(** * Voice cut-off and text analysis tool: segmentation and structuring pipeline

    A shallow embedding of the pure parts of
    - [src/core/audio_segmenter.py]   (merge pass and split pass),
    - [src/core/semantic_analyzer.py] (marker detection, marker driven
      re-splitting, importance scoring),
    - [src/core/logic_reconstructor.py] (core-argument marking, document
      assembly),
    - [src/models/document.py]        (the records),
    together with the properties the design document states about them.

    Conventions.
    - Python [int] is [Z]; list indices and character offsets are [nat].
    - A Python [float] is the rational it denotes, [Q]; NaN and infinities
      are outside the model.  Values that are only compared or added to a
      handful of decimal constants (scores) are left exact.  Where rounding
      shows, it is modelled: the interpolated timestamps of the re-split are
      rounded to binary64 after each operation ([Float64.round]), and the
      bounds of the split pass are computed with the IEEE-754 model of
      [SpecFloat].
    - A Python [str] whose characters are indexed (transcripts, marker words)
      is a list of Unicode code points; a [str] that is only compared or
      concatenated (ids, paths, topic labels) is a [string].
    - An operation that can raise returns a [result]. *)

From Stdlib Require Import String Ascii.
From Stdlib Require Import ZArith QArith Qminmax Qround List Bool.
From Stdlib Require Import Lia Lqa Arith PeanoNat DecimalString.
From Stdlib Require Import Floats.SpecFloat.
Import ListNotations.

Local Open Scope Z_scope.

(** ** Exceptions

    The exceptions the modelled code can meet; all are subclasses of
    [Exception], the class the [except] clauses of the reconstructor catch.
    [RuntimeError] stands for whatever a collaborator raises. *)

Inductive py_error : Type :=
| TypeError
| ZeroDivisionError
| RuntimeError (msg : string).

Inductive result (A : Type) : Type :=
| Ok (a : A)
| Raise (e : py_error).

Arguments Ok {A} a.
Arguments Raise {A} e.

Definition bind {A B : Type} (m : result A) (k : A -> result B) : result B :=
  match m with
  | Ok a => k a
  | Raise e => Raise e
  end.

Notation "x <- m ;; k" := (bind m (fun x => k))
  (at level 61, m at next level, right associativity).

Fixpoint mapM {A B : Type} (f : A -> result B) (l : list A) : result (list B) :=
  match l with
  | [] => Ok []
  | a :: tl => b <- f a ;; bs <- mapM f tl ;; Ok (b :: bs)
  end.

(** ** binary64 arithmetic, as far as the split pass needs it *)

Module Float64.

Definition prec : Z := 53.
Definition emax : Z := 1024.

Definition float := spec_float.

(** [float(n)] for a Python int (round to nearest, ties to even). *)
Definition of_int (n : Z) : float := binary_normalize prec emax n 0 false.

Definition mul : float -> float -> float := SFmul prec emax.
Definition add : float -> float -> float := SFadd prec emax.
Definition div : float -> float -> float := SFdiv prec emax.

(** [int(x)]: truncation toward zero (finite values only). *)
Definition to_int (x : float) : Z :=
  match x with
  | S754_finite s m e =>
      let mag := if 0 <=? e then Z.pos m * 2 ^ e else Z.pos m / 2 ^ (- e) in
      if s then - mag else mag
  | _ => 0
  end.

Definition sub : float -> float -> float := SFsub prec emax.

(** The value of a finite float. *)
Definition to_Q (x : float) : Q :=
  match x with
  | S754_finite s m e =>
      let mag := if 0 <=? e then inject_Z (Z.pos m * 2 ^ e)
                 else (inject_Z (Z.pos m) / inject_Z (2 ^ (- e)))%Q in
      if s then (- mag)%Q else mag
  | _ => 0%Q
  end.

(** *** Rounding an exact value

    Timestamps are kept as the rationals they denote.  An arithmetic
    operation on floats returns the binary64 value nearest to its exact
    result, ties to the one with an even significand; [round] is that
    function on rationals.  The binary64 values are the multiples [m * 2^e]
    of a power of two with [|m| < 2^53] and [e >= -1074]; scaled by [2^1074]
    they are the integers of at most 53 significant bits.  Overflow is not
    modelled: [round] is the float operation for results below [2^1023] in
    magnitude. *)

(** [x] rounded to the nearest integer, ties to the even one. *)
Definition round_half_even (x : Q) : Z :=
  let f := Qfloor x in
  match (x - inject_Z f ?= 1 # 2)%Q with
  | Lt => f
  | Eq => if Z.even f then f else f + 1
  | Gt => f + 1
  end.

(** [x >= 0] rounded to the nearest integer of at most [prec] significant
    bits: above [2^prec] the last [j] bits are rounded away. *)
Definition round_significand (x : Q) : Z :=
  let j := Z.max 0 (Z.log2 (Qfloor x) + 1 - prec) in
  round_half_even (x / inject_Z (2 ^ j)) * 2 ^ j.

(** [2^1074], the inverse of the smallest positive binary64 value. *)
Definition scale : Q := inject_Z (2 ^ (emax + prec - 3)).

Definition round_magnitude (x : Q) : Q :=
  (inject_Z (round_significand (x * scale)) / scale)%Q.

Definition round (x : Q) : Q :=
  Qred (if Qle_bool 0 x then round_magnitude x
        else (- round_magnitude (- x))%Q).

(** [x] is a binary64 value. *)
Definition is_float (x : Q) : bool := Qeq_bool (round x) x.

End Float64.

(** ** Audio segmenter: [merge_short_segments] and [split_long_segments]

    Ranges are pairs [(start_ms, end_ms)] of integers.  The thresholds
    [min_duration_ms = int(min_segment_duration * 1000)] and
    [max_duration_ms = int(max_segment_duration * 1000)] are integers by the
    time the loops run and are taken as such. *)

Definition range_ms : Type := (Z * Z)%type.

Definition range_duration (r : range_ms) : Z := snd r - fst r.

(** The [for start, end in segments[1:]] loop with its two accumulators
    [current_start], [current_end]; the ranges appended to [merged] are the
    ones consed here, followed by the append after the loop. *)
Fixpoint merge_loop (min_duration_ms current_start current_end : Z)
         (rest : list range_ms) : list range_ms :=
  match rest with
  | [] => [(current_start, current_end)]
  | (start, end_) :: tl =>
      if current_end - current_start <? min_duration_ms
      then merge_loop min_duration_ms current_start end_ tl
      else (current_start, current_end) :: merge_loop min_duration_ms start end_ tl
  end.

Definition merge_short_segments (min_duration_ms : Z) (segments : list range_ms)
  : list range_ms :=
  match segments with
  | [] => []
  | (current_start, current_end) :: tl =>
      merge_loop min_duration_ms current_start current_end tl
  end.

(** [range(n)] *)
Definition py_range (n : Z) : list Z := map Z.of_nat (seq 0 (Z.to_nat n)).

(** [int(duration / max_duration_ms)].  Python's [int / int] is the float
    nearest to the exact quotient; for operands below 2^53 in magnitude
    its truncation is the truncated integer quotient, which is what this
    definition returns, and the statements about it keep to that range
    ([exact_offsets]).  The division raises on a zero divisor. *)
Definition int_truediv (a b : Z) : result Z :=
  if b =? 0 then Raise ZeroDivisionError else Ok (Z.quot a b).

(** [duration / num_splits] as a float. *)
Definition float_truediv (a b : Z) : result Float64.float :=
  if b =? 0 then Raise ZeroDivisionError
  else Ok (Float64.div (Float64.of_int a) (Float64.of_int b)).

(** [int(start + i * split_duration)] *)
Definition split_bound (start i : Z) (split_duration : Float64.float) : Z :=
  Float64.to_int
    (Float64.add (Float64.of_int start)
                 (Float64.mul (Float64.of_int i) split_duration)).

(** The body of the [for start, end in segments] loop of
    [split_long_segments]: the ranges one input range contributes. *)
Definition split_range (max_duration_ms : Z) (r : range_ms) : result (list range_ms) :=
  let '(start, end_) := r in
  let duration := end_ - start in
  if max_duration_ms <? duration then
    q <- int_truediv duration max_duration_ms ;;
    let num_splits := q + 1 in
    split_duration <- float_truediv duration num_splits ;;
    Ok (map (fun i => (split_bound start i split_duration,
                       split_bound start (i + 1) split_duration))
            (py_range num_splits))
  else Ok [(start, end_)].

Definition split_long_segments (max_duration_ms : Z) (segments : list range_ms)
  : result (list range_ms) :=
  pieces <- mapM (split_range max_duration_ms) segments ;;
  Ok (concat pieces).

(** ** Data model ([src/models/document.py]) *)

Inductive RelationType : Type :=
| CONTRAST | ADDITION | CAUSALITY | REFERENCE_BACK
| SUMMARY | EXAMPLE | PARALLEL | UNKNOWN.

Definition RelationType_eqb (a b : RelationType) : bool :=
  match a, b with
  | CONTRAST, CONTRAST | ADDITION, ADDITION | CAUSALITY, CAUSALITY
  | REFERENCE_BACK, REFERENCE_BACK | SUMMARY, SUMMARY | EXAMPLE, EXAMPLE
  | PARALLEL, PARALLEL | UNKNOWN, UNKNOWN => true
  | _, _ => false
  end.

(** A [str] as its sequence of code points. *)
Definition pystr : Type := list Z.

Fixpoint pystr_eqb (a b : pystr) : bool :=
  match a, b with
  | [], [] => true
  | c :: a', d :: b' => (c =? d) && pystr_eqb a' b'
  | _, _ => false
  end.

(** [RelationType.value] *)
Definition relation_value (t : RelationType) : pystr :=
  match t with
  | CONTRAST => [36716; 25240]        (* 转折 *)
  | ADDITION => [36882; 36827]        (* 递进 *)
  | CAUSALITY => [22240; 26524]       (* 因果 *)
  | REFERENCE_BACK => [22238; 28335]  (* 回溯 *)
  | SUMMARY => [24635; 32467]         (* 总结 *)
  | EXAMPLE => [20030; 20363]         (* 举例 *)
  | PARALLEL => [24182; 21015]        (* 并列 *)
  | UNKNOWN => [26410; 30693]         (* 未知 *)
  end.

Record ParagraphRelation : Type := mkParagraphRelation {
  source_id : string;
  target_id : string;
  relation_type : RelationType;
  marker_words : list pystr;
  rel_confidence : Q;       (* [confidence] *)
  rel_description : pystr   (* [description] *)
}.

Record Segment : Type := mkSegment {
  id : string;
  start_time : Q;
  end_time : Q;
  audio_path : string;
  text : pystr;
  markers : list pystr;
  topics : list string;
  importance_score : Q;
  relations : list ParagraphRelation;
  confidence : Q;
  is_core_argument : bool
}.

(** [Segment(id=..., start_time=..., end_time=..., audio_path=..., text=...,
    markers=..., confidence=...)]: the remaining fields take the dataclass
    defaults. *)
Definition new_Segment (id_ : string) (start_time_ end_time_ : Q)
           (audio_path_ : string) (text_ : pystr) (markers_ : list pystr)
           (confidence_ : Q) : Segment :=
  {| id := id_; start_time := start_time_; end_time := end_time_;
     audio_path := audio_path_; text := text_; markers := markers_;
     topics := []; importance_score := 1 # 2; relations := [];
     confidence := confidence_; is_core_argument := false |}.

(** [Segment.duration], [end_time - start_time] on floats.  (When both times
    are ints the difference is an exact int; the one place that uses it
    multiplies it by a float, which converts it with the same rounding.) *)
Definition duration (s : Segment) : Q :=
  Float64.round (end_time s - start_time s).

Record LogicChain : Type := mkLogicChain {
  chain_id : string;
  chain_type : string;
  chain_segments : list string;   (* [segments] *)
  chain_description : string;     (* [description] *)
  chain_importance : Q            (* [importance] *)
}.

(** The structured values the topic tree is made of (what [json.loads]
    returns, and what the fallback tree is built from). *)
#[warnings="-register-all"]
Inductive json : Type :=
| JNull
| JBool (b : bool)
| JNum (q : Q)
| JStr (s : string)
| JList (l : list json)
| JDict (d : list (string * json)).

(** Truth value of a Python object of these shapes. *)
Definition truthy (j : json) : bool :=
  match j with
  | JNull => false
  | JBool b => b
  | JNum q => negb (Qeq_bool q 0)
  | JStr s => negb (String.eqb s "")
  | JList l => match l with [] => false | _ => true end
  | JDict d => match d with [] => false | _ => true end
  end.

Record Document : Type := mkDocument {
  source_file : string;
  segments : list Segment;
  logic_chains : list LogicChain;
  topic_tree : json;
  metadata : list (string * Z);
  created_at : Z
}.

(** [Document.segment_count] *)
Definition segment_count (d : Document) : nat := length (segments d).

(** [Document.get_core_arguments] *)
Definition get_core_arguments (d : Document) : list Segment :=
  filter is_core_argument (segments d).

(** [Document.get_segment_by_id] *)
Definition get_segment_by_id (d : Document) (segment_id : string) : option Segment :=
  find (fun seg => String.eqb (id seg) segment_id) (segments d).

(** [metadata.get(key)] on the insertion-ordered dict. *)
Fixpoint dict_get {V : Type} (key : string) (d : list (string * V)) : option V :=
  match d with
  | [] => None
  | (k, v) :: tl => if String.eqb k key then Some v else dict_get key tl
  end.

(** ** Strings of code points: slicing, [in], [strip], word boundaries *)

Definition lexicon : Type := list (RelationType * list pystr).

Fixpoint starts_with (prefix s : pystr) : bool :=
  match prefix, s with
  | [], _ => true
  | c :: prefix', d :: s' => (c =? d) && starts_with prefix' s'
  | _ :: _, [] => false
  end.

(** [sub in s] *)
Fixpoint contains (sub s : pystr) : bool :=
  starts_with sub s ||
  match s with
  | [] => false
  | _ :: tl => contains sub tl
  end.

(** [s[a:b]] for offsets [0 <= a], [0 <= b]. *)
Definition slice (s : pystr) (a b : nat) : pystr := firstn (b - a) (skipn a s).

Fixpoint drop_while (f : Z -> bool) (s : pystr) : pystr :=
  match s with
  | [] => []
  | c :: tl => if f c then drop_while f tl else s
  end.

Definition nonempty {A : Type} (l : list A) : bool :=
  match l with [] => false | _ => true end.

(** [str.isspace] on one code point: the Unicode white-space characters and
    the four ASCII separators 0x1C-0x1F. *)
Definition unicode_space (c : Z) : bool :=
  ((9 <=? c) && (c <=? 13)) || ((28 <=? c) && (c <=? 32)) ||
  (c =? 133) || (c =? 160) || (c =? 5760) ||
  ((8192 <=? c) && (c <=? 8202)) || (c =? 8232) || (c =? 8233) ||
  (c =? 8239) || (c =? 8287) || (c =? 12288).

(** The class [\w] of [re] on [str] patterns is "alphanumeric or underscore"
    over the whole Unicode table.  This is its restriction to the blocks the
    lexicon and the transcripts of this tool are written in: ASCII letters,
    digits and [_], and the CJK unified ideographs (U+3400-U+4DBF,
    U+4E00-U+9FFF).  CJK punctuation such as U+3002 and U+FF0C is outside.
    The properties stated with it concern given texts, all of whose
    characters it classifies as [re] does; the properties of arbitrary
    texts are stated for an arbitrary class [is_word]. *)
Definition unicode_word (c : Z) : bool :=
  ((48 <=? c) && (c <=? 57)) || ((65 <=? c) && (c <=? 90)) || (c =? 95) ||
  ((97 <=? c) && (c <=? 122)) ||
  ((13312 <=? c) && (c <=? 19903)) || ((19968 <=? c) && (c <=? 40959)).

(** The class-level table [SemanticAnalyzer.SEMANTIC_MARKERS], in its
    insertion order. *)
Definition SEMANTIC_MARKERS : lexicon :=
  [
   (CONTRAST,
     [
      [20294; 26159] (* 但是 *);
      [28982; 32780] (* 然而 *);
      [19981; 36807] (* 不过 *);
      [21487; 26159] (* 可是 *);
      [21453; 36807; 26469; 35828] (* 反过来说 *);
      [30456; 21453] (* 相反 *);
      [30456; 23545; 32780; 35328] (* 相对而言 *);
      [19982; 27492; 30456; 21453] (* 与此相反 *) ]);
   (ADDITION,
     [
      [32780; 19988] (* 而且 *);
      [24182; 19988] (* 并且 *);
      [36824; 26377] (* 还有 *);
      [21478; 22806] (* 另外 *);
      [27492; 22806] (* 此外 *);
      [20877; 32773] (* 再者 *);
      [21516; 26102] (* 同时 *);
      [20197; 21450] (* 以及 *) ]);
   (CAUSALITY,
     [
      [25152; 20197] (* 所以 *);
      [22240; 27492] (* 因此 *);
      [22240; 20026] (* 因为 *);
      [30001; 20110] (* 由于 *);
      [23548; 33268] (* 导致 *);
      [32467; 26524] (* 结果 *);
      [22240; 32780] (* 因而 *);
      [20174; 32780] (* 从而 *) ]);
   (REFERENCE_BACK,
     [
      [22238; 36807; 22836; 26469; 35762] (* 回过头来讲 *);
      [21069; 38754; 35828; 21040] (* 前面说到 *);
      [21018; 25165; 25552; 21040] (* 刚才提到 *);
      [20043; 21069; 35762; 36807] (* 之前讲过 *);
      [22914; 21069; 25152; 36848] (* 如前所述 *);
      [27491; 22914; 25105; 35828; 30340] (* 正如我说的 *) ]);
   (SUMMARY,
     [
      [24635; 20043] (* 总之 *);
      [32508; 19978; 25152; 36848] (* 综上所述 *);
      [24635; 30340; 26469; 35828] (* 总的来说 *);
      [27010; 25324; 26469; 35828] (* 概括来说 *);
      [24402; 32435; 36215; 26469] (* 归纳起来 *);
      [31616; 32780; 35328; 20043] (* 简而言之 *) ]);
   (EXAMPLE,
     [
      [27604; 22914] (* 比如 *);
      [20363; 22914] (* 例如 *);
      [35692; 22914] (* 譬如 *);
      [27604; 26041; 35828] (* 比方说 *);
      [20030; 20363; 26469; 35828] (* 举例来说 *);
      [23601; 20687] (* 就像 *) ]) ].

(** [min(a, b)] and [max(a, b)] of two numbers: the first argument unless the
    second is strictly smaller (resp. greater). *)
Definition py_min (a b : Q) : Q := if Qle_bool a b then a else b.
Definition py_max (a b : Q) : Q := if Qle_bool b a then a else b.

(** A split point [(match.start(), marker, relation_type)]. *)
Definition split_point : Type := (nat * pystr * RelationType)%type.

(** [split_points.sort(key=lambda x: x[0])]: a stable sort on the offset. *)
Fixpoint insert_point (x : split_point) (l : list split_point) : list split_point :=
  match l with
  | [] => [x]
  | y :: tl =>
      if (fst (fst x) <=? fst (fst y))%nat then x :: l else y :: insert_point x tl
  end.

Fixpoint sort_points (l : list split_point) : list split_point :=
  match l with
  | [] => []
  | x :: tl => insert_point x (sort_points tl)
  end.

(** [relation_type >= last_pos] as evaluated by the filter of the trailing
    comprehension, [for _, marker, _ in split_points if _ >= last_pos]: the
    target list binds [_] twice, so the name holds the third component, a
    [RelationType].  [Enum] defines no ordering and [int] does not compare
    with it, so the comparison raises. *)
Definition enum_ge_int (t : RelationType) (n : nat) : result bool :=
  Raise TypeError.

(** [[marker for _, marker, _ in split_points if _ >= last_pos]] *)
Fixpoint trailing_markers (split_points : list split_point) (last_pos : nat)
  : result (list pystr) :=
  match split_points with
  | [] => Ok []
  | (_, marker, relation_type) :: tl =>
      keep <- enum_ge_int relation_type last_pos ;;
      rest <- trailing_markers tl last_pos ;;
      Ok (if keep then marker :: rest else rest)
  end.

(** [f"{segment.id}_sub{i}"] *)
Definition sub_id (parent : string) (i : nat) : string :=
  (parent ++ "_sub" ++ NilEmpty.string_of_uint (Nat.to_uint i))%string.

(** [pos / len(text)]: the true division of two ints, the float nearest to
    the exact quotient.  The code divides only after it has found a slice of
    the text that is non-empty after [strip], hence with a positive divisor
    (lemma [strip_slice_text_nonempty]). *)
Definition char_ratio (pos len : nat) : Q :=
  Float64.round (inject_Z (Z.of_nat pos) / inject_Z (Z.of_nat len)).

(** [start_time + ratio * duration], a float product and a float sum. *)
Definition interpolate (start_time_ ratio duration_ : Q) : Q :=
  Float64.round (start_time_ + Float64.round (ratio * duration_)).

(** ** Semantic analyzer ([src/core/semantic_analyzer.py]) *)

(** [SemanticAnalyzer.__init__].  [self.SEMANTIC_MARKERS.copy()] copies the
    outer dict only: the [{'keywords': [...]}] entries, and so the keyword
    lists that [extend] lengthens, are the class table's own.  The table an
    analyzer reads is therefore the class table as it stands, and building
    an analyzer with custom markers changes it for every analyzer, earlier
    and later ones included.  [class_table] is the table on entry; the
    result is the table afterwards, which is also [self.markers].

    The keywords of [custom_markers] are appended to the list of the same
    relation type; types the table lacks are ignored. *)
Fixpoint extend_keywords (table : lexicon) (t : RelationType) (extra : list pystr)
  : lexicon :=
  match table with
  | [] => []
  | (t', keywords) :: tl =>
      if RelationType_eqb t' t then (t', keywords ++ extra) :: tl
      else (t', keywords) :: extend_keywords tl t extra
  end.

Definition init_markers (class_table custom_markers : lexicon) : lexicon :=
  fold_left (fun table entry => extend_keywords table (fst entry) (snd entry))
            custom_markers class_table.

Section Analyzer.

(** The character classes of the [re] and [str] libraries. *)
Variable is_word : Z -> bool.    (* [\w] *)
Variable is_space : Z -> bool.   (* [str.isspace] *)

(** [self.markers] *)
Variable markers_table : lexicon.

(** [s.strip()] *)
Definition strip (s : pystr) : pystr :=
  rev (drop_while is_space (rev (drop_while is_space s))).

(** Whether the character at offset [p] is a word character; there is none
    outside the string. *)
Definition word_at (s : pystr) (p : nat) : bool :=
  match nth_error s p with
  | Some c => is_word c
  | None => false
  end.

(** [\b] at offset [p]: exactly one of the characters before and after the
    offset is a word character. *)
Definition boundary (s : pystr) (p : nat) : bool :=
  match p with
  | O => word_at s 0
  | S q => xorb (word_at s q) (word_at s p)
  end.

(** Whether [\b] + [re.escape(marker)] + [\b] matches at offset [p]. *)
Definition match_at (marker s : pystr) (p : nat) : bool :=
  boundary s p && starts_with marker (skipn p s) &&
  boundary s (p + length marker).

(** The scan of [re.finditer]: candidate offsets in increasing order; after
    a match the scan resumes at its end ([skip] offsets are passed over),
    and after an empty match one offset further. *)
Fixpoint finditer_from (marker s : pystr) (skip : nat) (offsets : list nat)
  : list nat :=
  match offsets with
  | [] => []
  | p :: ps =>
      match skip with
      | S k => finditer_from marker s k ps
      | O =>
          if match_at marker s p
          then p :: finditer_from marker s (pred (length marker)) ps
          else finditer_from marker s 0 ps
      end
  end.

(** [[m.start() for m in re.finditer(pattern, text)]] *)
Definition finditer (marker s : pystr) : list nat :=
  finditer_from marker s 0 (seq 0 (S (length s))).

(** [detect_markers] *)
Definition detect_markers (text_ : pystr) : list (pystr * RelationType) :=
  flat_map
    (fun entry : RelationType * list pystr =>
       let (relation_type_, keywords) := entry in
       flat_map
         (fun keyword =>
            if contains keyword text_ then [(keyword, relation_type_)] else [])
         keywords)
    markers_table.

(** The first loop of [split_by_markers]: all word-boundary occurrences of
    all detected markers, in detection order. *)
Definition find_split_points (text_ : pystr)
           (found : list (pystr * RelationType)) : list split_point :=
  flat_map
    (fun m : pystr * RelationType =>
       let (marker, relation_type_) := m in
       map (fun pos => (pos, marker, relation_type_)) (finditer marker text_))
    found.

(** The sub-segment built inside the walk for the slice
    [text[last_pos:pos]]. *)
Definition inner_sub_segment (segment : Segment) (i last_pos pos : nat)
           (sub_text : pystr) : Segment :=
  let char_ratio_start := char_ratio last_pos (length (text segment)) in
  let char_ratio_end := char_ratio pos (length (text segment)) in
  let duration_ := duration segment in
  let sub_start := interpolate (start_time segment) char_ratio_start duration_ in
  let sub_end := interpolate (start_time segment) char_ratio_end duration_ in
  new_Segment (sub_id (id segment) i) sub_start sub_end (audio_path segment)
              sub_text [] (confidence segment).

(** The loop [for i, (pos, marker, relation_type) in enumerate(split_points)]:
    returns [sub_segments] and the final [last_pos]. *)
Fixpoint walk_points (segment : Segment) (i last_pos : nat)
         (split_points : list split_point) : list Segment * nat :=
  match split_points with
  | [] => ([], last_pos)
  | (pos, _, _) :: tl =>
      let sub_text := strip (slice (text segment) last_pos pos) in
      let here :=
        if nonempty sub_text
        then [inner_sub_segment segment i last_pos pos sub_text]
        else [] in
      let (rest, final_pos) := walk_points segment (S i) pos tl in
      (here ++ rest, final_pos)
  end.

(** [split_by_markers] *)
Definition split_by_markers (segment : Segment) : result (list Segment) :=
  let text_ := text segment in
  let found := detect_markers text_ in
  if negb (nonempty found) then Ok [segment] else
  let split_points := find_split_points text_ found in
  if negb (nonempty split_points) then Ok [segment] else
  let split_points := sort_points split_points in
  let (sub_segments, last_pos) := walk_points segment 0 0 split_points in
  let last_text := strip (skipn last_pos text_) in
  sub_segments <-
    (if nonempty last_text then
       kept <- trailing_markers split_points last_pos ;;
       Ok (sub_segments ++
           [new_Segment
              (sub_id (id segment) (length split_points))
              (interpolate (start_time segment)
                           (char_ratio last_pos (length text_))
                           (duration segment))
              (end_time segment) (audio_path segment) last_text kept
              (confidence segment)])
     else Ok sub_segments) ;;
  Ok (if nonempty sub_segments then sub_segments else [segment]).

(** [f"通过标记词'{marker}'识别的{relation_type.value}关系"] *)
Definition relation_description (marker : pystr) (t : RelationType) : pystr :=
  [36890; 36807; 26631; 35760; 35789; 39] ++ marker ++
  [39; 35782; 21035; 30340] ++ relation_value t ++ [20851; 31995].

(** [analyze_relations]: every segment gets its detected markers; every
    segment but the first gets one relation per detected marker, from its
    predecessor. *)
Fixpoint analyze_relations_from (prev : option Segment) (l : list Segment)
  : list Segment :=
  match l with
  | [] => []
  | segment :: tl =>
      let found := detect_markers (text segment) in
      let new_relations :=
        match prev with
        | Some prev_segment =>
            map (fun m : pystr * RelationType =>
                   {| source_id := id prev_segment;
                      target_id := id segment;
                      relation_type := snd m;
                      marker_words := [fst m];
                      rel_confidence := 8 # 10;
                      rel_description := relation_description (fst m) (snd m) |})
                found
        | None => []
        end in
      let segment' :=
        {| id := id segment; start_time := start_time segment;
           end_time := end_time segment; audio_path := audio_path segment;
           text := text segment; markers := map fst found;
           topics := topics segment;
           importance_score := importance_score segment;
           relations := relations segment ++ new_relations;
           confidence := confidence segment;
           is_core_argument := is_core_argument segment |} in
      segment' :: analyze_relations_from (Some segment') tl
  end.

Definition analyze_relations (l : list Segment) : list Segment :=
  analyze_relations_from None l.

(** [refine_segments] *)
Definition refine_segments (l : list Segment) : result (list Segment) :=
  pieces <- mapM split_by_markers l ;;
  Ok (analyze_relations (concat pieces)).

(** The relation type under which the lexicon first lists [marker]: the
    inner [for relation_type, config in self.markers.items()] loop up to
    its [break]. *)
Definition first_type (marker : pystr) : option RelationType :=
  match find (fun entry : RelationType * list pystr =>
                existsb (pystr_eqb marker) (snd entry)) markers_table with
  | Some entry => Some (fst entry)
  | None => None
  end.

(** One round of the outer [for marker in segment.markers] loop. *)
Definition add_marker_bonus (score : Q) (marker : pystr) : Q :=
  match first_type marker with
  | Some SUMMARY => (score + (3 # 10))%Q
  | Some CAUSALITY => (score + (2 # 10))%Q
  | _ => score
  end.

(** [sum(1 for s in all_segments for r in s.relations
         if r.target_id == segment.id or r.source_id == segment.id)] *)
Definition reference_count (segment : Segment) (all_segments : list Segment) : Z :=
  Z.of_nat
    (length
       (filter (fun r => String.eqb (target_id r) (id segment)
                         || String.eqb (source_id r) (id segment))
               (flat_map relations all_segments))).

(** [calculate_importance] *)
Definition calculate_importance (segment : Segment) (all_segments : list Segment)
  : Q :=
  let score := 1 # 2 in
  let score := fold_left add_marker_bonus (markers segment) score in
  let score :=
    (score + py_min (inject_Z (reference_count segment all_segments) * (1 # 10))
                    (3 # 10))%Q in
  let score :=
    if (100 <? length (text segment))%nat then (score + (1 # 10))%Q else score in
  py_min score 1.

(** [process] *)
Definition analyzer_process (l : list Segment) : result (list Segment) :=
  refined <- refine_segments l ;;
  Ok (map (fun seg =>
             {| id := id seg; start_time := start_time seg;
                end_time := end_time seg; audio_path := audio_path seg;
                text := text seg; markers := markers seg;
                topics := topics seg;
                importance_score := calculate_importance seg refined;
                relations := relations seg;
                confidence := confidence seg;
                is_core_argument := is_core_argument seg |})
          refined).

End Analyzer.

(** The analyzer as the application builds it, [SemanticAnalyzer()]. *)
Definition default_split_by_markers : Segment -> result (list Segment) :=
  split_by_markers unicode_word unicode_space SEMANTIC_MARKERS.

(** ** Logic reconstructor ([src/core/logic_reconstructor.py]) *)

(** One entry of [segments_data], the payload of the structuring call. *)
Record SegmentPayload : Type := mkSegmentPayload {
  payload_id : string;
  payload_text : pystr;
  payload_timestamp : string;
  payload_markers : list pystr;
  payload_topics : list string
}.

(** A chain descriptor of the analysis result; every key may be missing. *)
Record ChainData : Type := mkChainData {
  data_chain_id : option string;
  data_chain_type : option string;
  data_segments : option (list string);
  data_description : option string;
  data_importance : option Q
}.

(** The dict returned by [analyze_paragraphs]; every key may be missing. *)
Record AnalysisResult : Type := mkAnalysisResult {
  core_arguments : option (list string);
  supporting_points : option (list string);
  result_logic_chains : option (list ChainData);
  paragraph_relations : option (list json);
  result_topic_tree : option json
}.

(** [d.get(key, default)] *)
Definition get_default {A : Type} (entry : option A) (default : A) : A :=
  match entry with
  | Some v => v
  | None => default
  end.

(** The dict literal of the [except] branch of [analyze_logic_structure]. *)
Definition empty_analysis : AnalysisResult :=
  {| core_arguments := Some [];
     supporting_points := Some [];
     result_logic_chains := Some [];
     paragraph_relations := Some [];
     result_topic_tree := Some (JDict []) |}.

(** [f"{n:02d}"] *)
Definition format_02d (n : Z) : string :=
  if (0 <=? n) && (n <? 10)
  then ("0" ++ NilZero.string_of_int (Z.to_int n))%string
  else NilZero.string_of_int (Z.to_int n).

(** [Segment.format_timestamp], for times between 0 and 2^53 seconds, where
    the float [//] and [%] are exact. *)
Definition format_timestamp (s : Segment) : string :=
  let minutes (t : Q) := Qfloor (t / 60) in
  let seconds (t : Q) := Qfloor (t - 60 * inject_Z (Qfloor (t / 60))) in
  (format_02d (minutes (start_time s)) ++ ":" ++ format_02d (seconds (start_time s))
   ++ " - " ++
   format_02d (minutes (end_time s)) ++ ":" ++ format_02d (seconds (end_time s)))%string.

(** [build_logic_chains] *)
Definition build_logic_chains (analysis_result : AnalysisResult) : list LogicChain :=
  map (fun chain_data =>
         {| chain_id := get_default (data_chain_id chain_data) ""%string;
            chain_type := get_default (data_chain_type chain_data) "UNKNOWN"%string;
            chain_segments := get_default (data_segments chain_data) [];
            chain_description := get_default (data_description chain_data) ""%string;
            chain_importance := get_default (data_importance chain_data) (1 # 2) |})
      (get_default (result_logic_chains analysis_result) []).

(** [segment.id in core_ids] *)
Definition id_in (x : string) (core_ids : list string) : bool :=
  existsb (String.eqb x) core_ids.

(** The body of the loop of [mark_core_arguments]. *)
Definition mark_segment (core_ids : list string) (segment : Segment) : Segment :=
  if id_in (id segment) core_ids then
    {| id := id segment; start_time := start_time segment;
       end_time := end_time segment; audio_path := audio_path segment;
       text := text segment; markers := markers segment;
       topics := topics segment;
       importance_score := py_max (importance_score segment) (9 # 10);
       relations := relations segment;
       confidence := confidence segment;
       is_core_argument := true |}
  else segment.

(** [mark_core_arguments] *)
Definition mark_core_arguments (l : list Segment) (core_ids : list string)
  : list Segment :=
  map (mark_segment core_ids) l.

(** [topic_segments[topic].append(seg_id)], creating the entry when the topic
    is new; the dict keeps insertion order. *)
Fixpoint dict_append (topic seg_id : string) (d : list (string * list string))
  : list (string * list string) :=
  match d with
  | [] => [(topic, [seg_id])]
  | (k, ids) :: tl =>
      if String.eqb k topic then (k, ids ++ [seg_id]) :: tl
      else (k, ids) :: dict_append topic seg_id tl
  end.

(** [build_topic_tree] *)
Definition build_topic_tree (l : list Segment) (topic_tree_data : json) : json :=
  if truthy topic_tree_data then topic_tree_data else
  let topic_segments :=
    fold_left
      (fun d seg => fold_left (fun d' topic => dict_append topic (id seg) d')
                              (topics seg) d)
      l [] in
  JDict
    [("main_topic"%string, JStr "文档主题");
     ("subtopics"%string,
      JList (map (fun entry : string * list string =>
                    JDict [("name"%string, JStr (fst entry));
                           ("segments"%string, JList (map JStr (snd entry)))])
                 topic_segments))].

(** [len(set(topic for seg in segments for topic in seg.topics))] *)
Definition total_topics (l : list Segment) : Z :=
  Z.of_nat (length (nodup string_dec (flat_map topics l))).

Section Reconstructor.

(** The structuring collaborator [self.llm_client]: its two operations may
    raise, and may answer differently from one call to the next, so they
    thread the collaborator's state. *)
Variable LLM : Type.
Variable extract_topics : pystr -> LLM -> result (list string) * LLM.
Variable analyze_paragraphs :
  list SegmentPayload -> LLM -> result AnalysisResult * LLM.

(** The reading of [datetime.now] taken by [Document]'s default factory. *)
Variable now : Z.

Definition set_topics (segment : Segment) (topics_ : list string) : Segment :=
  {| id := id segment; start_time := start_time segment;
     end_time := end_time segment; audio_path := audio_path segment;
     text := text segment; markers := markers segment;
     topics := topics_;
     importance_score := importance_score segment;
     relations := relations segment;
     confidence := confidence segment;
     is_core_argument := is_core_argument segment |}.

(** [extract_topics_for_segments] *)
Fixpoint extract_topics_for_segments (l : list Segment) (st : LLM)
  : list Segment * LLM :=
  match l with
  | [] => ([], st)
  | segment :: tl =>
      let (segment', st') :=
        if nonempty (text segment) then
          match extract_topics (text segment) st with
          | (Ok topics_, st') => (set_topics segment topics_, st')
          | (Raise _, st') => (set_topics segment [], st')
          end
        else (segment, st) in
      let (tl', st'') := extract_topics_for_segments tl st' in
      (segment' :: tl', st'')
  end.

Definition segments_data (l : list Segment) : list SegmentPayload :=
  map (fun seg =>
         {| payload_id := id seg;
            payload_text := text seg;
            payload_timestamp := format_timestamp seg;
            payload_markers := markers seg;
            payload_topics := topics seg |})
      l.

(** [analyze_logic_structure] *)
Definition analyze_logic_structure (l : list Segment) (st : LLM)
  : AnalysisResult * LLM :=
  match analyze_paragraphs (segments_data l) st with
  | (Ok analysis_result, st') => (analysis_result, st')
  | (Raise _, st') => (empty_analysis, st')
  end.

(** [reconstruct] *)
Definition reconstruct (l : list Segment) (st : LLM) : Document * LLM :=
  let (l1, st1) := extract_topics_for_segments l st in
  let (analysis_result, st2) := analyze_logic_structure l1 st1 in
  let logic_chains_ := build_logic_chains analysis_result in
  let core_argument_ids := get_default (core_arguments analysis_result) [] in
  let l2 := mark_core_arguments l1 core_argument_ids in
  let topic_tree_ :=
    build_topic_tree l2 (get_default (result_topic_tree analysis_result) (JDict [])) in
  ({| source_file := "";
      segments := l2;
      logic_chains := logic_chains_;
      topic_tree := topic_tree_;
      metadata :=
        [("core_arguments_count"%string, Z.of_nat (length core_argument_ids));
         ("logic_chains_count"%string, Z.of_nat (length logic_chains_));
         ("total_topics"%string, total_topics l2)];
      created_at := now |},
   st2).

End Reconstructor.

Arguments extract_topics_for_segments {LLM} extract_topics l st.
Arguments analyze_logic_structure {LLM} analyze_paragraphs l st.
Arguments reconstruct {LLM} extract_topics analyze_paragraphs now l st.

(** ** Document accessors ([src/models/document.py]) *)

(** [Document.total_duration]: [max] over the end times, [0.0] for an empty
    document. *)
Definition total_duration (d : Document) : Q :=
  match segments d with
  | [] => 0
  | s :: tl => fold_left (fun m x => py_max m (end_time x)) tl (end_time s)
  end.

(** The two numbers [format_timestamp] prints for a time [t]:
    [int(t // 60)] and [int(t % 60)].  On ints these are the floor division
    and its remainder.  On floats [%] is [fmod], which is exact, corrected by
    a rounded [+ 60] when the time is negative, and [//] divides
    [t - fmod(t, 60)] by 60: for [0 <= t < 2^53] no step rounds and the two
    numbers are the exact ones below; outside that range they need not be
    ([-2**-70 % 60] is [60.0]). *)
Definition timestamp_minutes (t : Q) : Z := Qfloor (t / 60).

Definition timestamp_seconds (t : Q) : Z :=
  Qfloor (t - 60 * inject_Z (Qfloor (t / 60))).

(** The times on which [format_timestamp] computes without rounding. *)
Definition clock_time (t : Q) : Prop := (0 <= t)%Q /\ (t < inject_Z (2 ^ 53))%Q.

(** ** Transcriber ([src/core/transcriber.py], [src/api/stt_client.py]) *)

(** [STTResult] *)
Record STTResult : Type := mkSTTResult {
  stt_text : pystr;
  stt_confidence : Q;
  stt_metadata : list (string * json)
}.

(** The segment with [text] and [confidence] assigned. *)
Definition set_transcript (segment : Segment) (text_ : pystr) (confidence_ : Q)
  : Segment :=
  {| id := id segment; start_time := start_time segment;
     end_time := end_time segment; audio_path := audio_path segment;
     text := text_; markers := markers segment;
     topics := topics segment;
     importance_score := importance_score segment;
     relations := relations segment;
     confidence := confidence_;
     is_core_argument := is_core_argument segment |}.

(** [transcribe_segment], given what [self.stt_client.transcribe] did for
    this segment's audio: returned a result or raised. *)
Definition transcribe_segment (outcome : result STTResult) (segment : Segment)
  : Segment :=
  match outcome with
  | Ok r => set_transcript segment (stt_text r) (stt_confidence r)
  | Raise _ => set_transcript segment [] 0
  end.

(** [transcribe_segments] without a progress callback.  The calls run
    concurrently under the semaphore, in an order the code does not fix;
    [asyncio.gather] returns the results in the order of the segments.  The
    k-th outcome is what the collaborator did for the k-th segment. *)
Fixpoint transcribe_segments (outcomes : list (result STTResult))
         (l : list Segment) : list Segment :=
  match l, outcomes with
  | segment :: tl, outcome :: outcomes' =>
      transcribe_segment outcome segment :: transcribe_segments outcomes' tl
  | _, _ => []
  end.

(** [STTClient.transcribe_batch], given the outcome of each call: an
    exception becomes the empty result. *)
Definition transcribe_batch (outcomes : list (result STTResult)) : list STTResult :=
  map (fun outcome =>
         match outcome with
         | Ok r => r
         | Raise _ => {| stt_text := []; stt_confidence := 0; stt_metadata := [] |}
         end)
      outcomes.

(** [MockSTTClient.transcribe]: the same result for every path,
    "这是一段模拟的转录文本，用于测试系统功能。" with confidence 0.90. *)
Definition mock_transcript : pystr :=
  [36825; 26159; 19968; 27573; 27169; 25311; 30340; 36716; 24405; 25991;
   26412; 65292; 29992; 20110; 27979; 35797; 31995; 32479; 21151; 33021;
   12290].

Definition mock_transcribe (audio_path_ : string) : result STTResult :=
  Ok {| stt_text := mock_transcript;
        stt_confidence := 90 # 100;
        stt_metadata := [("mock"%string, JBool true)] |}.

(** ** The mock structuring collaborator ([src/api/llm_client.py]) *)

(** [MockLLMClient.analyze_paragraphs]; the collaborator keeps no state. *)
Definition mock_analyze_paragraphs (payload : list SegmentPayload) (st : unit)
  : result AnalysisResult * unit :=
  (Ok {| core_arguments :=
           Some (match payload with
                 | [] => []
                 | first :: _ => [payload_id first]
                 end);
         supporting_points :=
           Some (if (1 <? length payload)%nat
                 then map payload_id (firstn 2 (skipn 1 payload))
                 else []);
         result_logic_chains :=
           Some [{| data_chain_id := Some "chain_1"%string;
                    data_chain_type := Some "MAIN_ARGUMENT"%string;
                    data_segments := Some (map payload_id (firstn 3 payload));
                    data_description := Some "主要论述链路（模拟）"%string;
                    data_importance := None |}];
         paragraph_relations := Some [];
         result_topic_tree :=
           Some (JDict [("main_topic"%string, JStr "哲学讨论（模拟）");
                        ("subtopics"%string,
                         JList [JStr "认识论"; JStr "本体论"])]) |},
   st).

(** [MockLLMClient.extract_topics] *)
Definition mock_extract_topics (t : pystr) (st : unit)
  : result (list string) * unit :=
  (Ok ["哲学"; "认识论"; "现象学"]%string, st).

(** ** The processing run of the window ([src/gui/main_window.py])

    Steps 2 to 4 of [ProcessingThread.run], after the audio segmenter has
    produced the segments: transcription with the mock provider, semantic
    analysis with the default analyzer, reconstruction with the mock
    collaborator, and the source file set on the document. *)

Definition set_source_file (d : Document) (file_path : string) : Document :=
  {| source_file := file_path; segments := segments d;
     logic_chains := logic_chains d; topic_tree := topic_tree d;
     metadata := metadata d; created_at := created_at d |}.

Definition run_after_segmentation (file_path : string) (now : Z)
           (l : list Segment) : result Document :=
  let transcribed :=
    transcribe_segments (map (fun seg => mock_transcribe (audio_path seg)) l) l in
  analyzed <- analyzer_process unicode_word unicode_space SEMANTIC_MARKERS
                               transcribed ;;
  let document :=
    fst (reconstruct mock_extract_topics mock_analyze_paragraphs now analyzed tt) in
  Ok (set_source_file document file_path).

(** ** Further vocabulary *)

(** The span of a group of consecutive ranges: from the start of its first
    range to the end of its last. *)
Definition group_span (g : list range_ms) : range_ms :=
  (fst (hd (0, 0) g), snd (last g (0, 0))).

(** [sub] occurs in [s]. *)
Definition occurs_in (sub s : pystr) : Prop :=
  exists pre post : pystr, s = pre ++ sub ++ post.

(** The relations [analyze_relations] appends to a segment that follows
    [prev]: one per detected marker. *)
Definition relations_from (prev segment : Segment)
           (found : list (pystr * RelationType)) : list ParagraphRelation :=
  map (fun m : pystr * RelationType =>
         {| source_id := id prev;
            target_id := id segment;
            relation_type := snd m;
            marker_words := [fst m];
            rel_confidence := 8 # 10;
            rel_description := relation_description (fst m) (snd m) |})
      found.

(** The fields of a segment other than its markers and relations. *)
Definition same_but_markers_relations (a b : Segment) : Prop :=
  id a = id b /\ start_time a = start_time b /\ end_time a = end_time b
  /\ audio_path a = audio_path b /\ text a = text b /\ topics a = topics b
  /\ importance_score a = importance_score b /\ confidence a = confidence b
  /\ is_core_argument a = is_core_argument b.

(** The dict [topic_segments] that the fallback of [build_topic_tree]
    fills. *)
Definition topic_segments (l : list Segment) : list (string * list string) :=
  fold_left
    (fun d seg => fold_left (fun d' topic => dict_append topic (id seg) d')
                            (topics seg) d)
    l [].

(** The (topic, segment id) pairs in the order the fallback visits them. *)
Definition topic_pairs (l : list Segment) : list (string * string) :=
  flat_map (fun seg => map (fun topic => (topic, id seg)) (topics seg)) l.

(** The elements of a list in the order of their first occurrence. *)
Fixpoint first_seen (seen l : list string) : list string :=
  match l with
  | [] => []
  | x :: tl =>
      if existsb (String.eqb x) seen then first_seen seen tl
      else x :: first_seen (x :: seen) tl
  end.

(** One child of the fallback tree. *)
Definition subtopic_node (entry : string * list string) : json :=
  JDict [("name"%string, JStr (fst entry));
         ("segments"%string, JList (map JStr (snd entry)))].

(** The default analyzer finds a word-boundary occurrence of a marker in
    the segment's text. *)
Definition has_boundary_occurrence (segment : Segment) : bool :=
  nonempty (find_split_points unicode_word (text segment)
              (detect_markers SEMANTIC_MARKERS (text segment))).

(** An analyzer that reads [table] finds a word-boundary occurrence of a
    marker in the segment's text, whatever the class [\w] is. *)
Definition has_occurrence (is_word : Z -> bool) (table : lexicon)
           (segment : Segment) : bool :=
  nonempty (find_split_points is_word (text segment)
              (detect_markers table (text segment))).

(** All the keywords a custom table gives for relation type [t], in order. *)
Definition custom_keywords (custom_markers : lexicon) (t : RelationType)
  : list pystr :=
  concat (map snd (filter (fun entry : RelationType * list pystr =>
                             RelationType_eqb (fst entry) t)
                          custom_markers)).

(** What a sub-segment of the walk takes from its parent and what it starts
    with. *)
Definition fresh_sub_segment (parent sub : Segment) : Prop :=
  text sub <> [] /\ audio_path sub = audio_path parent
  /\ confidence sub = confidence parent /\ markers sub = []
  /\ topics sub = [] /\ relations sub = []
  /\ importance_score sub = 1 # 2 /\ is_core_argument sub = false.

(** The ids the fallback tree lists under [topic]: one per occurrence of the
    topic among the segments' topic labels, in visiting order. *)
Definition ids_with_topic (l : list Segment) (topic : string) : list string :=
  map snd (filter (fun p : string * string => String.eqb (fst p) topic)
                  (topic_pairs l)).

(** A sample segment with topic labels. *)
Definition labelled_segment (id_ : string) (labels : list string) : Segment :=
  set_topics (new_Segment id_ 0 5 "a.wav" [21746; 23398] [] 1) labels.

(** The fields reconstruction leaves alone: all but topics, score and core
    flag. *)
Definition same_but_topics_score_flag (a b : Segment) : Prop :=
  id a = id b /\ start_time a = start_time b /\ end_time a = end_time b
  /\ audio_path a = audio_path b /\ text a = text b /\ markers a = markers b
  /\ relations a = relations b /\ confidence a = confidence b.

(** The fields transcription leaves alone: all but text and confidence. *)
Definition same_but_transcript (a b : Segment) : Prop :=
  id a = id b /\ start_time a = start_time b /\ end_time a = end_time b
  /\ audio_path a = audio_path b /\ markers a = markers b
  /\ topics a = topics b /\ importance_score a = importance_score b
  /\ relations a = relations b /\ is_core_argument a = is_core_argument b.

(** The segment with its markers emptied, and with its score replaced. *)
Definition clear_markers (segment : Segment) : Segment :=
  {| id := id segment; start_time := start_time segment;
     end_time := end_time segment; audio_path := audio_path segment;
     text := text segment; markers := [];
     topics := topics segment;
     importance_score := importance_score segment;
     relations := relations segment;
     confidence := confidence segment;
     is_core_argument := is_core_argument segment |}.

Definition with_importance (segment : Segment) (score : Q) : Segment :=
  {| id := id segment; start_time := start_time segment;
     end_time := end_time segment; audio_path := audio_path segment;
     text := text segment; markers := markers segment;
     topics := topics segment;
     importance_score := score;
     relations := relations segment;
     confidence := confidence segment;
     is_core_argument := is_core_argument segment |}.

(** What the mock collaborator answers: its topics, its tree, and its one
    chain over the given segment ids. *)
Definition mock_topics : list string := ["哲学"; "认识论"; "现象学"]%string.

Definition mock_tree : json :=
  JDict [("main_topic"%string, JStr "哲学讨论（模拟）");
         ("subtopics"%string, JList [JStr "认识论"; JStr "本体论"])].

Definition mock_chain (ids : list string) : LogicChain :=
  {| chain_id := "chain_1"; chain_type := "MAIN_ARGUMENT";
     chain_segments := firstn 3 ids;
     chain_description := "主要论述链路（模拟）";
     chain_importance := 1 # 2 |}.

(** The seven transcribed segments of [create_mock_segments] in
    [test_mock.py] (ids, times and texts). *)
Definition mock_lecture_segments : list Segment :=
  [ new_Segment "seg_001" 0 (85 # 10) "mock_audio_001.wav"
      [25105; 20204; 39318; 20808; 35201; 29702; 35299; 20160; 20040; 26159;
       29616; 35937; 23398; 12290; 29616; 35937; 23398; 26159; 30740; 31350;
       24847; 35782; 30340; 26412; 36136; 32467; 26500; 12290]
      [] (95 # 100);
    new_Segment "seg_002" (85 # 10) (162 # 10) "mock_audio_002.wav"
      [20294; 26159; 36825; 20010; 27010; 24565; 24456; 25277; 35937; 65292;
       38656; 35201; 20174; 19981; 21516; 35282; 24230; 26469; 29702; 35299;
       12290; 27604; 22914; 32993; 22622; 23572; 30340; 35266; 28857; 12290]
      [] (92 # 100);
    new_Segment "seg_003" (162 # 10) (248 # 10) "mock_audio_003.wav"
      [32993; 22622; 23572; 35748; 20026; 24847; 35782; 24635; 26159; 20851;
       20110; 26576; 29289; 30340; 24847; 35782; 12290; 36825; 26159; 24847;
       21521; 24615; 29702; 35770; 30340; 26680; 24515; 12290]
      [] (94 # 100);
    new_Segment "seg_004" (248 # 10) (325 # 10) "mock_audio_004.wav"
      [22238; 36807; 22836; 26469; 35762; 65292; 29616; 35937; 23398; 30340;
       30446; 26631; 26159; 22238; 21040; 20107; 29289; 26412; 36523; 12290]
      [] (91 # 100);
    new_Segment "seg_005" (325 # 10) 40 "mock_audio_005.wav"
      [22240; 27492; 65292; 25105; 20204; 38656; 35201; 24748; 32622; 33258;
       28982; 24577; 24230; 12290; 36825; 21483; 20570; 29616; 35937; 23398;
       36824; 21407; 12290]
      [] (93 # 100);
    new_Segment "seg_006" 40 (483 # 10) "mock_audio_006.wav"
      [28982; 32780; 65292; 36825; 31181; 26041; 27861; 35770; 24182; 38750;
       27809; 26377; 20105; 35758; 12290; 28023; 24503; 26684; 23572; 23601;
       25552; 20986; 20102; 19981; 21516; 30475; 27861; 12290]
      [] (90 # 100);
    new_Segment "seg_007" (483 # 10) 55 "mock_audio_007.wav"
      [24635; 20043; 65292; 29616; 35937; 23398; 20026; 25105; 20204; 25552;
       20379; 20102; 29702; 35299; 24847; 35782; 30340; 26032; 26041; 27861;
       12290]
      [] (96 # 100) ].

(** * Vocabulary of the statements

    Readings of the design document that are compared with the code, the
    predicates the theorems are stated with, and the sample inputs. *)

(** ** Split pass *)

(** [ceil(a / b)] for a positive [b]. *)
Definition ceil_div (a b : Z) : Z := - ((- a) / b).

(** The count of sub-ranges as the design document words it. *)
Definition split_count_is_ceiling : Prop :=
  forall (max_duration_ms : Z) (r : range_ms) (pieces : list range_ms),
    0 < max_duration_ms ->
    max_duration_ms < range_duration r ->
    split_range max_duration_ms r = Ok pieces ->
    Z.of_nat (length pieces) = ceil_div (range_duration r) max_duration_ms.

(** Offsets in milliseconds from the start of the audio that binary64
    holds exactly: on such ranges the float quotient of the duration by the
    maximum, truncated, is the integer quotient. *)
Definition exact_offsets (r : range_ms) : Prop := 0 <= fst r /\ snd r < 2 ^ 53.

(** ** Reconstructor *)

(** A short segment with the given id and importance score. *)
Definition sample_segment (id_ : string) (score : Q) : Segment :=
  {| id := id_; start_time := 0; end_time := 5; audio_path := "a.wav";
     text := [21746; 23398]; markers := []; topics := [];
     importance_score := score; relations := []; confidence := 1;
     is_core_argument := false |}.

(** Collaborators whose state counts the calls made so far: topic
    extraction that always answers, and three paragraph analyses: one that
    raises, one that names a segment the list does not contain, one that
    names a segment of the list. *)
Definition canned_topics (t : pystr) (st : nat) : result (list string) * nat :=
  (Ok ["philosophy"%string], S st).

Definition failing_analysis (payload : list SegmentPayload) (st : nat)
  : result AnalysisResult * nat :=
  (Raise (RuntimeError "connection reset"), S st).

Definition stray_analysis (payload : list SegmentPayload) (st : nat)
  : result AnalysisResult * nat :=
  (Ok {| core_arguments := Some ["seg_1"; "seg_9"]%string;
         supporting_points := Some [];
         result_logic_chains := Some [];
         paragraph_relations := Some [];
         result_topic_tree := Some (JDict []) |},
   S st).

Definition named_analysis (payload : list SegmentPayload) (st : nat)
  : result AnalysisResult * nat :=
  (Ok {| core_arguments := Some ["seg_2"]%string;
         supporting_points := Some [];
         result_logic_chains := Some [];
         paragraph_relations := Some [];
         result_topic_tree := Some (JDict []) |},
   S st).

(** The core-argument count as the design document words it: the number of
    segments of the document whose core flag is set. *)
Definition core_count_is_flag_count : Prop :=
  forall (LLM : Type)
         (extract_topics : pystr -> LLM -> result (list string) * LLM)
         (analyze_paragraphs :
            list SegmentPayload -> LLM -> result AnalysisResult * LLM)
         (now : Z) (l : list Segment) (st : LLM),
    let doc := fst (reconstruct extract_topics analyze_paragraphs now l st) in
    dict_get "core_arguments_count" (metadata doc)
    = Some (Z.of_nat (length (get_core_arguments doc))).

(** ** Importance scoring *)

(** [marker] is a keyword of relation type [t]. *)
Definition belongs_to (table : lexicon) (t : RelationType) (marker : pystr) : bool :=
  existsb (fun entry : RelationType * list pystr =>
             RelationType_eqb (fst entry) t && existsb (pystr_eqb marker) (snd entry))
          table.

(** The marker bonus as the design document words it: one bonus per segment,
    +0.3 when some marker of the segment is a SUMMARY keyword, else +0.2
    when some marker is a CAUSALITY keyword. *)
Definition stated_marker_bonus (table : lexicon) (segment : Segment) : Q :=
  if existsb (belongs_to table SUMMARY) (markers segment) then 3 # 10
  else if existsb (belongs_to table CAUSALITY) (markers segment) then 2 # 10
  else 0.

(** The score with that single bonus; the other terms as in the code. *)
Definition stated_importance (table : lexicon) (segment : Segment)
           (all_segments : list Segment) : Q :=
  Qmin ((1 # 2) + stated_marker_bonus table segment
        + Qmin (inject_Z (reference_count segment all_segments) * (1 # 10)) (3 # 10)
        + (if (100 <? length (text segment))%nat then (1 # 10) else 0))%Q
       1.

Definition single_marker_bonus : Prop :=
  forall (segment : Segment) (all_segments : list Segment),
    (calculate_importance SEMANTIC_MARKERS segment all_segments
     == stated_importance SEMANTIC_MARKERS segment all_segments)%Q.

(** The bonus one marker contributes in the code. *)
Definition marker_bonus (table : lexicon) (marker : pystr) : Q :=
  match first_type table marker with
  | Some SUMMARY => 3 # 10
  | Some CAUSALITY => 2 # 10
  | _ => 0
  end.

Definition sum_Q (l : list Q) : Q := fold_right Qplus 0%Q l.

(** "总之哲学很重要所以我们要学习" *)
Definition summary_and_cause_text : pystr :=
  [24635; 20043; 21746; 23398; 24456; 37325; 35201; 25152; 20197; 25105;
   20204; 35201; 23398; 20064].

(** The segment relation analysis makes of that transcript: its markers are
    the detected keywords, in lexicon order. *)
Definition summary_and_cause : Segment :=
  {| id := "seg_1"; start_time := 0; end_time := 10; audio_path := "test.wav";
     text := summary_and_cause_text;
     markers := [[25152; 20197]; [24635; 20043]];   (* 所以, 总之 *)
     topics := []; importance_score := 1 # 2; relations := [];
     confidence := 1; is_core_argument := false |}.

(** ** Marker driven re-splitting *)

(** Every keyword of the table is non-empty and starts with a character that
    [strip] keeps. *)
Definition visible_keywords (is_space : Z -> bool) (table : lexicon) : bool :=
  forallb
    (fun entry : RelationType * list pystr =>
       forallb (fun keyword : pystr =>
                  match keyword with
                  | [] => false
                  | c :: _ => negb (is_space c)
                  end)
               (snd entry))
    table.

(** Each sub-segment starts at or after [lo], and each next one at or after
    the end of the one before. *)
Fixpoint ordered_from (lo : Q) (subs : list Segment) : Prop :=
  match subs with
  | [] => True
  | x :: tl => (lo <= start_time x)%Q /\ ordered_from (end_time x) tl
  end.

(** Non-decreasing timestamps: each sub-segment starts at or after the end
    of the previous one. *)
Definition monotone_timestamps (subs : list Segment) : Prop :=
  match subs with
  | [] => True
  | x :: tl => ordered_from (end_time x) tl
  end.

(** Every sub-segment's interval lies inside the parent's. *)
Definition within_parent (parent : Segment) (subs : list Segment) : Prop :=
  Forall (fun x => (start_time parent <= start_time x)%Q
                   /\ (end_time x <= end_time parent)%Q)
         subs.

(** The split points come in ascending offsets, none below [lo]. *)
Fixpoint ascending_from (lo : nat) (pts : list split_point) : Prop :=
  match pts with
  | [] => True
  | pt :: tl => (lo <= fst (fst pt))%nat /\ ascending_from (fst (fst pt)) tl
  end.

(** The time the interpolation gives to character offset [p]. *)
Definition time_at (segment : Segment) (p : nat) : Q :=
  interpolate (start_time segment) (char_ratio p (length (text segment)))
              (duration segment).

(** Every sub-segment starts at or after the parent's start and ends at or
    before the time the interpolation gives to the end of the parent's
    text, [start + 1.0 * duration] in floats. *)
Definition within_reach (parent : Segment) (subs : list Segment) : Prop :=
  Forall (fun x => (start_time parent <= start_time x)%Q
                   /\ (end_time x <= time_at parent (length (text parent)))%Q)
         subs.

(** Times of a magnitude at which no step of the interpolation overflows. *)
Definition moderate (t : Q) : Prop :=
  (- inject_Z (2 ^ 1000) <= t)%Q /\ (t <= inject_Z (2 ^ 1000))%Q.

(** A parent segment as the pipeline makes them: its times are floats, the
    start not after the end. *)
Definition well_timed (segment : Segment) : Prop :=
  Float64.is_float (start_time segment) = true
  /\ Float64.is_float (end_time segment) = true
  /\ moderate (start_time segment) /\ moderate (end_time segment)
  /\ (start_time segment <= end_time segment)%Q.

(** The custom table [{RelationType.CONTRAST: {'keywords': ['']}}]. *)
Definition empty_keyword : lexicon := [(CONTRAST, [[]])].

(** The containment as the design document words it, for the analyzers
    [SemanticAnalyzer(custom_markers)] of a fresh process. *)
Definition resplit_stays_within_parent : Prop :=
  forall (custom_markers : lexicon) (segment : Segment) (subs : list Segment),
    text segment <> [] ->
    well_timed segment ->
    split_by_markers unicode_word unicode_space
                     (init_markers SEMANTIC_MARKERS custom_markers) segment
    = Ok subs ->
    monotone_timestamps subs /\ within_parent segment subs.

(** [Segment(id="seg_1", start_time=0.3, end_time=0.9,
    audio_path="test.wav", text="ab")] *)
Definition tenths_segment : Segment :=
  new_Segment "seg_1" (Float64.round (3 # 10)) (Float64.round (9 # 10))
              "test.wav" [97; 98] [] 0.

(** "我们首先要理解哲学的本质。但是这个问题很复杂。" *)
Definition scenario_text : pystr :=
  [25105; 20204; 39318; 20808; 35201; 29702; 35299; 21746; 23398; 30340;
   26412; 36136; 12290; 20294; 26159; 36825; 20010; 38382; 39064; 24456;
   22797; 26434; 12290].

(** "我们首先要理解哲学的本质。但是，这个问题很复杂。": the marker is followed by
    a comma. *)
Definition comma_text : pystr :=
  [25105; 20204; 39318; 20808; 35201; 29702; 35299; 21746; 23398; 30340;
   26412; 36136; 12290; 20294; 26159; 65292; 36825; 20010; 38382; 39064;
   24456; 22797; 26434; 12290].

(** The segment text of the analyzer test of [test_mock.py]:
    "现象学很重要。但是它很抽象。因此我们需要举例说明。比如意识的结构。" *)
Definition mock_test_text : pystr :=
  [29616; 35937; 23398; 24456; 37325; 35201; 12290; 20294; 26159; 23427;
   24456; 25277; 35937; 12290; 22240; 27492; 25105; 20204; 38656; 35201;
   20030; 20363; 35828; 26126; 12290; 27604; 22914; 24847; 35782; 30340;
   32467; 26500; 12290].

(** One of its detection sentences: "总之，这是一个复杂的问题。" *)
Definition summary_comma_text : pystr :=
  [24635; 20043; 65292; 36825; 26159; 19968; 20010; 22797; 26434; 30340;
   38382; 39064; 12290].

(** [Segment(id="seg_1", start_time=0, end_time=10, audio_path="test.wav",
    text=...)] *)
Definition wrap (text_ : pystr) : Segment :=
  new_Segment "seg_1" 0 10 "test.wav" text_ [] 0.

(** * Properties *)

(** ** Merge pass *)

Lemma merge_loop_nonempty (min_duration_ms cs ce : Z) (rest : list range_ms) :
  merge_loop min_duration_ms cs ce rest <> [].
Proof.
  revert cs ce.
  induction rest as [| [s e] tl IH]; intros cs ce; simpl.
  - discriminate.
  - destruct (ce - cs <? min_duration_ms); [apply IH | discriminate].
Qed.

Lemma merge_loop_emitted (min_duration_ms cs ce : Z) (rest : list range_ms) :
  Forall (fun r => min_duration_ms <= range_duration r)
         (removelast (merge_loop min_duration_ms cs ce rest)).
Proof.
  revert cs ce.
  induction rest as [| [s e] tl IH]; intros cs ce.
  - simpl. constructor.
  - cbn [merge_loop].
    destruct (ce - cs <? min_duration_ms) eqn:Hshort.
    + apply IH.
    + change ((cs, ce) :: merge_loop min_duration_ms s e tl)
        with ([(cs, ce)] ++ merge_loop min_duration_ms s e tl).
      rewrite removelast_app by apply merge_loop_nonempty.
      simpl. constructor.
      * unfold range_duration; simpl. apply Z.ltb_ge in Hshort. exact Hshort.
      * apply IH.
Qed.

Lemma last_indep {A : Type} (x : A) (l : list A) (d d' : A) :
  last (x :: l) d = last (x :: l) d'.
Proof.
  revert x. induction l as [| y tl IH]; intros x; [reflexivity |].
  change (last (x :: y :: tl) d) with (last (y :: tl) d).
  change (last (x :: y :: tl) d') with (last (y :: tl) d').
  apply IH.
Qed.

(** The range closed after the loop ends where the input ends. *)
Lemma merge_loop_last (min_duration_ms cs ce : Z) (rest : list range_ms) :
  snd (last (merge_loop min_duration_ms cs ce rest) (0, 0))
  = snd (last rest (cs, ce)).
Proof.
  revert cs ce.
  induction rest as [| [s e] tl IH]; intros cs ce.
  - reflexivity.
  - cbn [merge_loop].
    destruct (ce - cs <? min_duration_ms).
    + rewrite IH. destruct tl as [| r tl']; [reflexivity |].
      change (last ((s, e) :: r :: tl') (cs, ce)) with (last (r :: tl') (cs, ce)).
      f_equal. apply last_indep.
    + pose proof (merge_loop_nonempty min_duration_ms s e tl) as Hne.
      specialize (IH s e).
      destruct (merge_loop min_duration_ms s e tl) as [| x xs] eqn:E;
        [contradiction |].
      change (last ((cs, ce) :: x :: xs) (0, 0)) with (last (x :: xs) (0, 0)).
      rewrite IH. destruct tl as [| r tl']; [reflexivity |].
      change (last ((s, e) :: r :: tl') (cs, ce)) with (last (r :: tl') (cs, ce)).
      f_equal. apply last_indep.
Qed.

(** C5.  Every range the merge pass emits lasts at least the minimum segment
    duration, except possibly the last one; the last accumulated range is
    emitted whatever its length, so a non-empty input gives a non-empty
    output ending where the input ends. *)
Theorem merge_short_segments_min_duration :
  forall (min_duration_ms : Z) (segs : list range_ms),
    Forall (fun r => min_duration_ms <= range_duration r)
           (removelast (merge_short_segments min_duration_ms segs))
    /\ nonempty (merge_short_segments min_duration_ms segs) = nonempty segs
    /\ snd (last (merge_short_segments min_duration_ms segs) (0, 0))
       = snd (last segs (0, 0)).
Proof.
  intros m segs. destruct segs as [| [cs ce] tl]; simpl.
  - repeat split. constructor.
  - split; [apply merge_loop_emitted |]. split.
    + pose proof (merge_loop_nonempty m cs ce tl).
      destruct (merge_loop m cs ce tl); [contradiction | reflexivity].
    + rewrite merge_loop_last. destruct tl as [| r tl']; [reflexivity |].
      change (last ((cs, ce) :: r :: tl') (0, 0)) with (last (r :: tl') (0, 0)).
      f_equal. apply last_indep.
Qed.

(** The last range may indeed stay short. *)
Example merge_last_range_short :
  merge_short_segments 1500 [(0, 2000); (2500, 3000)] = [(0, 2000); (2500, 3000)].
Proof. reflexivity. Qed.

(** Seven ranges of 500 ms under a minimum of 1500 ms. *)
Example merge_seven_short_ranges :
  merge_short_segments 1500
    [(0, 500); (600, 1100); (1200, 1700); (1800, 2300); (2400, 2900);
     (3000, 3500); (3600, 4100)]
  = [(0, 1700); (1800, 3500); (3600, 4100)].
Proof. reflexivity. Qed.

(** ** Split pass *)

(** On the durations of the examples the truncated float quotient is the
    truncated integer quotient. *)
Example float_quotient_agrees :
  map (fun d => Float64.to_int (Float64.div (Float64.of_int d) (Float64.of_int 30000)))
      [60000; 59999; 60001; 100000; 3600000]
  = map (fun d => Z.quot d 30000) [60000; 59999; 60001; 100000; 3600000].
Proof. vm_compute. reflexivity. Qed.

(** The bounds are truncated binary64 values: a range of 100 ms under a
    maximum of 7 ms. *)
Example split_range_rounding :
  split_range 7 (0, 100)
  = Ok [(0, 6); (6, 13); (13, 20); (20, 26); (26, 33); (33, 40); (40, 46);
        (46, 53); (53, 60); (60, 66); (66, 73); (73, 80); (80, 86); (86, 93);
        (93, 100)].
Proof. vm_compute. reflexivity. Qed.

Lemma py_range_length (n : Z) : 0 <= n -> Z.of_nat (length (py_range n)) = n.
Proof.
  intros Hn. unfold py_range. rewrite length_map, length_seq. lia.
Qed.

Lemma split_range_long (max_duration_ms : Z) (r : range_ms) :
  0 < max_duration_ms ->
  max_duration_ms < range_duration r ->
  exists pieces,
    split_range max_duration_ms r = Ok pieces
    /\ Z.of_nat (length pieces) = range_duration r / max_duration_ms + 1.
Proof.
  intros Hmax Hlong. destruct r as [s e].
  unfold range_duration in *; simpl in Hlong |- *.
  unfold split_range.
  apply Z.ltb_lt in Hlong as Hlt. rewrite Hlt.
  unfold int_truediv.
  destruct (max_duration_ms =? 0) eqn:E0; [apply Z.eqb_eq in E0; lia |].
  cbn [bind].
  assert (Hq : Z.quot (e - s) max_duration_ms = (e - s) / max_duration_ms)
    by (apply Z.quot_div_nonneg; lia).
  assert (Hq0 : 0 <= (e - s) / max_duration_ms) by (apply Z.div_pos; lia).
  unfold float_truediv.
  destruct (Z.quot (e - s) max_duration_ms + 1 =? 0) eqn:E1;
    [apply Z.eqb_eq in E1; lia |].
  cbn [bind]. eexists. split; [reflexivity |].
  rewrite length_map, py_range_length; lia.
Qed.

Lemma split_range_short (max_duration_ms : Z) (r : range_ms) :
  range_duration r <= max_duration_ms ->
  split_range max_duration_ms r = Ok [r].
Proof.
  intros Hshort. destruct r as [s e].
  unfold range_duration in Hshort; simpl in Hshort.
  unfold split_range.
  apply Z.ltb_ge in Hshort. rewrite Hshort. reflexivity.
Qed.

Lemma ceil_div_floor (a b : Z) :
  0 < b ->
  a / b + 1 = ceil_div a b + (if a mod b =? 0 then 1 else 0).
Proof.
  intros Hb. unfold ceil_div.
  destruct (a mod b =? 0) eqn:E.
  - apply Z.eqb_eq in E. rewrite Z.div_opp_l_z by lia. lia.
  - apply Z.eqb_neq in E. rewrite Z.div_opp_l_nz by lia. lia.
Qed.

(** Where the integer quotient of the model stands for the truncated float
    quotient of the code: at the upper end of the exact range the two still
    agree, and beyond it they need not (a duration of 1999999999999999999 ms
    under a maximum of 10^18 ms has the integer quotient 1 and the float
    quotient 2.0). *)
Example float_quotient_at_the_bound :
  Float64.to_int (Float64.div (Float64.of_int (2 ^ 53 - 1))
                              (Float64.of_int (2 ^ 52)))
  = Z.quot (2 ^ 53 - 1) (2 ^ 52)
  /\ Float64.to_int (Float64.div (Float64.of_int 1999999999999999999)
                                 (Float64.of_int (10 ^ 18)))
     = 2
  /\ Z.quot 1999999999999999999 (10 ^ 18) = 1.
Proof. vm_compute. repeat split. Qed.

(** C3, as the code has it.  With a positive maximum and ranges whose
    offsets lie between 0 and 2^53 ms, the split pass never raises; a range
    longer than the maximum is cut into [floor(duration / max) + 1]
    sub-ranges, which is [ceil(duration / max)] unless the duration is an
    exact multiple of the maximum, where it is one more; a range at or
    below the maximum passes through unchanged. *)
Theorem split_long_segments_counts :
  forall (max_duration_ms : Z) (segs : list range_ms),
    0 < max_duration_ms ->
    Forall exact_offsets segs ->
    exists pieces : list (list range_ms),
      split_long_segments max_duration_ms segs = Ok (concat pieces)
      /\ Forall2
           (fun r piece =>
              if max_duration_ms <? range_duration r
              then Z.of_nat (length piece)
                   = range_duration r / max_duration_ms + 1
                   /\ Z.of_nat (length piece)
                      = ceil_div (range_duration r) max_duration_ms
                        + (if range_duration r mod max_duration_ms =? 0
                           then 1 else 0)
              else piece = [r])
           segs pieces.
Proof.
  intros m segs Hm _. unfold split_long_segments.
  induction segs as [| r tl IH].
  - exists []. split; [reflexivity | constructor].
  - destruct IH as [pieces [Hrun Hall]].
    cbn [mapM].
    destruct (mapM (split_range m) tl) as [done |] eqn:Htl;
      cbn [bind] in Hrun; [| discriminate].
    injection Hrun as Hdone.
    destruct (m <? range_duration r) eqn:Hcmp.
    + apply Z.ltb_lt in Hcmp as Hlong.
      destruct (split_range_long m r Hm Hlong) as [piece [Hpiece Hlen]].
      rewrite Hpiece. cbn [bind].
      exists (piece :: pieces). split.
      * cbn [concat]. rewrite Hdone. reflexivity.
      * constructor; [| exact Hall]. rewrite Hcmp. split; [exact Hlen |].
        rewrite Hlen. apply ceil_div_floor. exact Hm.
    + apply Z.ltb_ge in Hcmp as Hshort.
      rewrite (split_range_short m r Hshort). cbn [bind].
      exists ([r] :: pieces). split.
      * cbn [concat]. rewrite Hdone. reflexivity.
      * constructor; [| exact Hall]. rewrite Hcmp. reflexivity.
Qed.

Lemma split_long_segments_counts_witness :
  exists pieces : list (list range_ms),
    split_long_segments 30000 [(0, 60000); (5, 100); (1000, 101000)]
    = Ok (concat pieces)
    /\ Forall2
         (fun r piece =>
            if 30000 <? range_duration r
            then Z.of_nat (length piece) = range_duration r / 30000 + 1
                 /\ Z.of_nat (length piece)
                    = ceil_div (range_duration r) 30000
                      + (if range_duration r mod 30000 =? 0 then 1 else 0)
            else piece = [r])
         [(0, 60000); (5, 100); (1000, 101000)] pieces.
Proof.
  apply (split_long_segments_counts 30000 [(0, 60000); (5, 100); (1000, 101000)]).
  - lia.
  - unfold exact_offsets. repeat constructor; simpl; lia.
Defined.

(** A range of exactly twice the maximum is cut in three, not in two. *)
Lemma split_count_is_ceiling_fails : ~ split_count_is_ceiling.
Proof.
  intros Hclaim.
  specialize (Hclaim 30000 (0, 60000)
                [(0, 20000); (20000, 40000); (40000, 60000)]).
  assert (H3 : split_range 30000 (0, 60000)
               = Ok [(0, 20000); (20000, 40000); (40000, 60000)])
    by (vm_compute; reflexivity).
  specialize (Hclaim ltac:(lia) ltac:(unfold range_duration; simpl; lia) H3).
  vm_compute in Hclaim. discriminate.
Qed.

(** ** Core-argument marking *)

Lemma id_in_In (x : string) (core_ids : list string) :
  id_in x core_ids = true <-> In x core_ids.
Proof.
  unfold id_in. rewrite existsb_exists. split.
  - intros [y [Hin Heq]]. apply String.eqb_eq in Heq. subst. exact Hin.
  - intros Hin. exists x. split; [exact Hin | apply String.eqb_refl].
Qed.

Lemma id_in_not_In (x : string) (core_ids : list string) :
  id_in x core_ids = false <-> ~ In x core_ids.
Proof.
  rewrite <- id_in_In. destruct (id_in x core_ids); split; congruence.
Qed.

(** Python's two-argument [max] is the maximum of the rationals. *)
Lemma py_max_Qmax (a b : Q) : py_max a b = Qmax a b.
Proof.
  unfold py_max, Qmax, GenericMinMax.gmax.
  destruct (Qle_bool b a) eqn:Hle.
  - apply Qle_bool_iff in Hle.
    destruct (a ?= b)%Q eqn:Hcmp; try reflexivity.
    apply Qlt_alt in Hcmp. exfalso. apply (Qlt_not_le _ _ Hcmp Hle).
  - destruct (a ?= b)%Q eqn:Hcmp; try reflexivity; exfalso.
    + apply Qeq_alt in Hcmp.
      assert (Hba : (b <= a)%Q) by (rewrite Hcmp; apply Qle_refl).
      apply Qle_bool_iff in Hba. congruence.
    + apply Qgt_alt in Hcmp. apply Qlt_le_weak in Hcmp.
      apply Qle_bool_iff in Hcmp. congruence.
Qed.

Lemma py_max_bounds (a b : Q) : (a <= py_max a b)%Q /\ (b <= py_max a b)%Q.
Proof.
  unfold py_max. destruct (Qle_bool b a) eqn:Hle.
  - apply Qle_bool_iff in Hle. split; [apply Qle_refl | exact Hle].
  - split; [| apply Qle_refl].
    destruct (Qlt_le_dec a b) as [Hlt | Hge].
    + apply Qlt_le_weak. exact Hlt.
    + apply Qle_bool_iff in Hge. congruence.
Qed.

Lemma mark_segment_id (core_ids : list string) (s : Segment) :
  id (mark_segment core_ids s) = id s.
Proof.
  unfold mark_segment. destruct (id_in (id s) core_ids); reflexivity.
Qed.

Lemma mark_segment_score (core_ids : list string) (s : Segment) :
  (importance_score s <= importance_score (mark_segment core_ids s))%Q.
Proof.
  unfold mark_segment. destruct (id_in (id s) core_ids); simpl.
  - apply py_max_bounds.
  - apply Qle_refl.
Qed.

Lemma mark_core_arguments_nth (l : list Segment) (core_ids : list string)
      (i : nat) (s : Segment) :
  nth_error l i = Some s ->
  nth_error (mark_core_arguments l core_ids) i = Some (mark_segment core_ids s).
Proof.
  intros Hnth. unfold mark_core_arguments.
  rewrite nth_error_map, Hnth. reflexivity.
Qed.

(** C7.  After core-argument marking, the segment at every position has a
    score no lower than before; when its id is in the core list its core
    flag is set and its score is the maximum of its previous score and 0.9
    (hence at least 0.9). *)
Theorem mark_core_arguments_raises_score :
  forall (l : list Segment) (core_ids : list string) (i : nat) (s : Segment),
    nth_error l i = Some s ->
    exists s' : Segment,
      nth_error (mark_core_arguments l core_ids) i = Some s'
      /\ (importance_score s <= importance_score s')%Q
      /\ (In (id s) core_ids ->
          is_core_argument s' = true
          /\ importance_score s' = Qmax (importance_score s) (9 # 10)
          /\ (9 # 10 <= importance_score s')%Q).
Proof.
  intros l core_ids i s Hnth.
  exists (mark_segment core_ids s).
  split; [apply mark_core_arguments_nth; exact Hnth |].
  split; [apply mark_segment_score |].
  intros Hin. apply id_in_In in Hin.
  unfold mark_segment. rewrite Hin. simpl.
  split; [reflexivity |]. split; [apply py_max_Qmax | apply py_max_bounds].
Qed.

Lemma mark_core_arguments_raises_score_witness :
  exists s' : Segment,
    nth_error
      (mark_core_arguments
         [sample_segment "seg_1" (1 # 2); sample_segment "seg_2" (19 # 20)]
         ["seg_1"%string]) 0
    = Some s'
    /\ (1 # 2 <= importance_score s')%Q
    /\ is_core_argument s' = true
    /\ importance_score s' = Qmax (1 # 2) (9 # 10)
    /\ (9 # 10 <= importance_score s')%Q.
Proof.
  destruct (mark_core_arguments_raises_score
              [sample_segment "seg_1" (1 # 2); sample_segment "seg_2" (19 # 20)]
              ["seg_1"%string] 0 (sample_segment "seg_1" (1 # 2)) eq_refl)
    as [s' [Hnth [Hle Hcore]]].
  exists s'. split; [exact Hnth |]. split; [exact Hle |].
  apply Hcore. left. reflexivity.
Defined.

(** A score above 0.9 is kept. *)
Example mark_keeps_higher_score :
  map importance_score
      (mark_core_arguments
         [sample_segment "seg_1" (1 # 2); sample_segment "seg_2" (19 # 20)]
         ["seg_2"; "seg_1"]%string)
  = [9 # 10; 19 # 20].
Proof. reflexivity. Qed.

(** C10.  A segment whose id is not in the core list comes out of
    core-argument marking as it went in, at the same position; the list
    keeps its length and the order of its ids. *)
Theorem mark_core_arguments_frame :
  forall (l : list Segment) (core_ids : list string) (i : nat) (s : Segment),
    nth_error l i = Some s ->
    ~ In (id s) core_ids ->
    nth_error (mark_core_arguments l core_ids) i = Some s
    /\ length (mark_core_arguments l core_ids) = length l
    /\ map id (mark_core_arguments l core_ids) = map id l.
Proof.
  intros l core_ids i s Hnth Hout.
  split; [| split].
  - rewrite (mark_core_arguments_nth l core_ids i s Hnth).
    apply id_in_not_In in Hout.
    unfold mark_segment. rewrite Hout. reflexivity.
  - unfold mark_core_arguments. apply length_map.
  - unfold mark_core_arguments. rewrite map_map.
    apply map_ext. intros a. apply mark_segment_id.
Qed.

Lemma mark_core_arguments_frame_witness :
  nth_error
    (mark_core_arguments
       [sample_segment "seg_1" (1 # 2); sample_segment "seg_2" (3 # 10)]
       ["seg_1"%string]) 1
  = Some (sample_segment "seg_2" (3 # 10))
  /\ length
       (mark_core_arguments
          [sample_segment "seg_1" (1 # 2); sample_segment "seg_2" (3 # 10)]
          ["seg_1"%string])
     = length [sample_segment "seg_1" (1 # 2); sample_segment "seg_2" (3 # 10)]
  /\ map id
       (mark_core_arguments
          [sample_segment "seg_1" (1 # 2); sample_segment "seg_2" (3 # 10)]
          ["seg_1"%string])
     = map id [sample_segment "seg_1" (1 # 2); sample_segment "seg_2" (3 # 10)].
Proof.
  apply (mark_core_arguments_frame
           [sample_segment "seg_1" (1 # 2); sample_segment "seg_2" (3 # 10)]
           ["seg_1"%string] 1 (sample_segment "seg_2" (3 # 10))).
  - reflexivity.
  - simpl. intros [H | H]; [discriminate H | exact H].
Defined.

(** ** Document assembly *)

Lemma mark_core_arguments_nil (l : list Segment) :
  mark_core_arguments l [] = l.
Proof.
  unfold mark_core_arguments.
  induction l as [| s tl IH]; [reflexivity |].
  simpl. rewrite IH. reflexivity.
Qed.

(** C8.  When the paragraph-analysis call of the structuring collaborator
    raises, [analyze_logic_structure] answers with the all-empty result and
    [reconstruct] still returns a document: the segments as topic extraction
    left them, no chain, the fallback topic tree, and zero counts of core
    arguments and chains. *)
Theorem structuring_failure_recovered :
  forall (LLM : Type)
         (extract_topics : pystr -> LLM -> result (list string) * LLM)
         (analyze_paragraphs :
            list SegmentPayload -> LLM -> result AnalysisResult * LLM)
         (now : Z) (l : list Segment) (st : LLM) (e : py_error) (st2 : LLM),
    let l1 := fst (extract_topics_for_segments extract_topics l st) in
    let st1 := snd (extract_topics_for_segments extract_topics l st) in
    analyze_paragraphs (segments_data l1) st1 = (Raise e, st2) ->
    analyze_logic_structure analyze_paragraphs l1 st1
    = ({| core_arguments := Some [];
          supporting_points := Some [];
          result_logic_chains := Some [];
          paragraph_relations := Some [];
          result_topic_tree := Some (JDict []) |},
       st2)
    /\ reconstruct extract_topics analyze_paragraphs now l st
       = ({| source_file := "";
             segments := l1;
             logic_chains := [];
             topic_tree := build_topic_tree l1 (JDict []);
             metadata :=
               [("core_arguments_count"%string, 0);
                ("logic_chains_count"%string, 0);
                ("total_topics"%string, total_topics l1)];
             created_at := now |},
          st2).
Proof.
  intros LLM extract analyze now l st e st2 l1 st1 Hfail.
  assert (Hstruct : analyze_logic_structure analyze l1 st1 = (empty_analysis, st2)).
  { unfold analyze_logic_structure. rewrite Hfail. reflexivity. }
  split; [exact Hstruct |].
  unfold reconstruct. subst l1 st1.
  destruct (extract_topics_for_segments extract l st) as [l1 st1].
  simpl in Hstruct. rewrite Hstruct.
  simpl. rewrite mark_core_arguments_nil. reflexivity.
Qed.

Lemma structuring_failure_recovered_witness :
  analyze_logic_structure failing_analysis
    (fst (extract_topics_for_segments canned_topics
            [sample_segment "seg_1" (1 # 2)] 0%nat))
    (snd (extract_topics_for_segments canned_topics
            [sample_segment "seg_1" (1 # 2)] 0%nat))
  = ({| core_arguments := Some [];
        supporting_points := Some [];
        result_logic_chains := Some [];
        paragraph_relations := Some [];
        result_topic_tree := Some (JDict []) |},
     2%nat)
  /\ reconstruct canned_topics failing_analysis 1700000000
       [sample_segment "seg_1" (1 # 2)] 0%nat
     = ({| source_file := "";
           segments :=
             fst (extract_topics_for_segments canned_topics
                    [sample_segment "seg_1" (1 # 2)] 0%nat);
           logic_chains := [];
           topic_tree :=
             build_topic_tree
               (fst (extract_topics_for_segments canned_topics
                       [sample_segment "seg_1" (1 # 2)] 0%nat))
               (JDict []);
           metadata :=
             [("core_arguments_count"%string, 0);
              ("logic_chains_count"%string, 0);
              ("total_topics"%string,
               total_topics
                 (fst (extract_topics_for_segments canned_topics
                         [sample_segment "seg_1" (1 # 2)] 0%nat)))];
           created_at := 1700000000 |},
        2%nat).
Proof.
  apply (structuring_failure_recovered nat canned_topics failing_analysis
           1700000000 [sample_segment "seg_1" (1 # 2)] 0%nat
           (RuntimeError "connection reset") 2%nat).
  reflexivity.
Defined.

(** The document of that run, spelled out. *)
Example structuring_failure_document :
  fst (reconstruct canned_topics failing_analysis 1700000000
         [sample_segment "seg_1" (1 # 2)] 0%nat)
  = {| source_file := "";
       segments :=
         [{| id := "seg_1"; start_time := 0; end_time := 5;
             audio_path := "a.wav"; text := [21746; 23398]; markers := [];
             topics := ["philosophy"%string]; importance_score := 1 # 2;
             relations := []; confidence := 1; is_core_argument := false |}];
       logic_chains := [];
       topic_tree :=
         JDict
           [("main_topic"%string, JStr "文档主题");
            ("subtopics"%string,
             JList [JDict [("name"%string, JStr "philosophy");
                           ("segments"%string, JList [JStr "seg_1"])]])];
       metadata :=
         [("core_arguments_count"%string, 0);
          ("logic_chains_count"%string, 0);
          ("total_topics"%string, 1)];
       created_at := 1700000000 |}.
Proof. reflexivity. Qed.

Lemma core_count_is_flag_count_fails : ~ core_count_is_flag_count.
Proof.
  intros Hclaim.
  specialize (Hclaim nat canned_topics stray_analysis 1700000000
                [sample_segment "seg_1" (1 # 2); sample_segment "seg_2" (1 # 2)]
                0%nat).
  vm_compute in Hclaim. discriminate Hclaim.
Qed.

Lemma extract_topics_keeps_ids
      (LLM : Type) (extract_topics : pystr -> LLM -> result (list string) * LLM)
      (l : list Segment) (st : LLM) :
  map id (fst (extract_topics_for_segments extract_topics l st)) = map id l
  /\ map is_core_argument (fst (extract_topics_for_segments extract_topics l st))
     = map is_core_argument l.
Proof.
  revert st. induction l as [| s tl IH]; intros st; [split; reflexivity |].
  cbn [extract_topics_for_segments].
  destruct (nonempty (text s)).
  - destruct (extract_topics (text s) st) as [[ts | err] st'];
      specialize (IH st');
      destruct (extract_topics_for_segments extract_topics tl st') as [tl' st''];
      simpl in *; destruct IH as [IH1 IH2]; rewrite IH1, IH2; split; reflexivity.
  - specialize (IH st).
    destruct (extract_topics_for_segments extract_topics tl st) as [tl' st''].
    simpl in *. destruct IH as [IH1 IH2]. rewrite IH1, IH2. split; reflexivity.
Qed.

Lemma flagged_after_marking (core_ids : list string) (l : list Segment) :
  Forall (fun b => b = false) (map is_core_argument l) ->
  length (filter is_core_argument (mark_core_arguments l core_ids))
  = length (filter (fun x => id_in x core_ids) (map id l)).
Proof.
  unfold mark_core_arguments.
  induction l as [| s tl IH]; intros Hflags; [reflexivity |].
  inversion Hflags as [| b bs Hb Hbs]; subst.
  specialize (IH Hbs). simpl.
  unfold mark_segment at 1.
  destruct (id_in (id s) core_ids); simpl.
  - rewrite IH. reflexivity.
  - rewrite Hb. exact IH.
Qed.

Lemma count_listed_ids (core_ids xs : list string) :
  NoDup core_ids -> NoDup xs -> incl core_ids xs ->
  length (filter (fun x => id_in x core_ids) xs) = length core_ids.
Proof.
  intros Hids Hxs Hincl.
  apply Nat.le_antisymm.
  - apply NoDup_incl_length.
    + apply NoDup_filter. exact Hxs.
    + intros x Hx. apply filter_In in Hx. apply id_in_In. apply Hx.
  - apply NoDup_incl_length; [exact Hids |].
    intros x Hx. apply filter_In. split; [apply Hincl; exact Hx |].
    apply id_in_In. exact Hx.
Qed.

(** C9, as the code has it.  The core-argument count of the metadata is the
    length of the id list the analysis result gives under [core_arguments].
    It is the number of flagged segments of the document when those ids are
    pairwise distinct, each of them is the id of a segment, segment ids are
    unique and no segment came in already flagged. *)
Theorem core_arguments_count_is_id_count :
  forall (LLM : Type)
         (extract_topics : pystr -> LLM -> result (list string) * LLM)
         (analyze_paragraphs :
            list SegmentPayload -> LLM -> result AnalysisResult * LLM)
         (now : Z) (l : list Segment) (st : LLM),
    let l1 := fst (extract_topics_for_segments extract_topics l st) in
    let st1 := snd (extract_topics_for_segments extract_topics l st) in
    let core_ids :=
      get_default
        (core_arguments (fst (analyze_logic_structure analyze_paragraphs l1 st1)))
        [] in
    let doc := fst (reconstruct extract_topics analyze_paragraphs now l st) in
    dict_get "core_arguments_count" (metadata doc)
    = Some (Z.of_nat (length core_ids))
    /\ (NoDup core_ids ->
        NoDup (map id l) ->
        incl core_ids (map id l) ->
        Forall (fun s => is_core_argument s = false) l ->
        length (get_core_arguments doc) = length core_ids).
Proof.
  intros LLM extract analyze now l st l1 st1 core_ids doc.
  pose proof (extract_topics_keeps_ids LLM extract l st) as [Hids Hflags].
  fold l1 in Hids, Hflags.
  assert (Hdoc : doc
                 = {| source_file := "";
                      segments := mark_core_arguments l1 core_ids;
                      logic_chains :=
                        build_logic_chains
                          (fst (analyze_logic_structure analyze l1 st1));
                      topic_tree :=
                        build_topic_tree (mark_core_arguments l1 core_ids)
                          (get_default
                             (result_topic_tree
                                (fst (analyze_logic_structure analyze l1 st1)))
                             (JDict []));
                      metadata :=
                        [("core_arguments_count"%string,
                          Z.of_nat (length core_ids));
                         ("logic_chains_count"%string,
                          Z.of_nat
                            (length
                               (build_logic_chains
                                  (fst (analyze_logic_structure analyze l1 st1)))));
                         ("total_topics"%string,
                          total_topics (mark_core_arguments l1 core_ids))];
                      created_at := now |}).
  { subst doc core_ids l1 st1. unfold reconstruct.
    destruct (extract_topics_for_segments extract l st) as [l1 st1]. simpl.
    destruct (analyze_logic_structure analyze l1 st1) as [res st2].
    reflexivity. }
  rewrite Hdoc. split; [reflexivity |].
  intros Hnd Hnd_l Hincl Hunflagged.
  unfold get_core_arguments. cbn [segments].
  rewrite flagged_after_marking.
  - rewrite Hids. apply count_listed_ids; assumption.
  - rewrite Hflags. apply Forall_map. exact Hunflagged.
Qed.

Lemma core_arguments_count_is_id_count_witness :
  dict_get "core_arguments_count"
    (metadata
       (fst (reconstruct canned_topics named_analysis 1700000000
               [sample_segment "seg_1" (1 # 2); sample_segment "seg_2" (1 # 2)]
               0%nat)))
  = Some 1
  /\ length
       (get_core_arguments
          (fst (reconstruct canned_topics named_analysis 1700000000
                  [sample_segment "seg_1" (1 # 2); sample_segment "seg_2" (1 # 2)]
                  0%nat)))
     = 1%nat.
Proof.
  destruct (core_arguments_count_is_id_count nat canned_topics named_analysis
              1700000000
              [sample_segment "seg_1" (1 # 2); sample_segment "seg_2" (1 # 2)]
              0%nat) as [Hcount Hflags].
  split; [exact Hcount |].
  apply Hflags.
  - repeat constructor. simpl. tauto.
  - repeat constructor; simpl; intuition discriminate.
  - intros x Hx. simpl in Hx |- *. tauto.
  - repeat constructor.
Defined.

(** ** Importance scoring *)

(** A segment with one CAUSALITY and one SUMMARY marker scores 1.0 in the
    code (0.5 + 0.2 + 0.3), not the 0.8 of a single bonus. *)
Lemma single_marker_bonus_fails : ~ single_marker_bonus.
Proof.
  intros Hclaim.
  specialize (Hclaim summary_and_cause [summary_and_cause]).
  vm_compute in Hclaim. discriminate Hclaim.
Qed.

(** That segment is what the analyzer itself produces from the transcript,
    and it gives it the score 1.0. *)
Example summary_and_cause_from_process :
  match analyzer_process unicode_word unicode_space SEMANTIC_MARKERS
          [new_Segment "seg_1" 0 10 "test.wav" summary_and_cause_text [] 1] with
  | Ok [s] =>
      markers s = markers summary_and_cause
      /\ text s = text summary_and_cause
      /\ relations s = []
      /\ (importance_score s == 1)%Q
  | _ => False
  end.
Proof. vm_compute. repeat split; reflexivity. Qed.

Lemma py_min_Qmin (a b : Q) : py_min a b = Qmin a b.
Proof.
  unfold py_min, Qmin, GenericMinMax.gmin.
  destruct (Qle_bool a b) eqn:Hle.
  - apply Qle_bool_iff in Hle.
    destruct (a ?= b)%Q eqn:Hcmp; try reflexivity.
    apply Qgt_alt in Hcmp. exfalso. apply (Qlt_not_le _ _ Hcmp Hle).
  - destruct (a ?= b)%Q eqn:Hcmp; try reflexivity; exfalso.
    + apply Qeq_alt in Hcmp.
      assert (Hab : (a <= b)%Q) by (rewrite Hcmp; apply Qle_refl).
      apply Qle_bool_iff in Hab. congruence.
    + apply Qlt_alt in Hcmp. apply Qlt_le_weak in Hcmp.
      apply Qle_bool_iff in Hcmp. congruence.
Qed.

Lemma add_marker_bonus_spec (table : lexicon) (score : Q) (marker : pystr) :
  (add_marker_bonus table score marker == score + marker_bonus table marker)%Q.
Proof.
  unfold add_marker_bonus, marker_bonus.
  destruct (first_type table marker) as [[] |]; ring.
Qed.

Lemma fold_marker_bonus (table : lexicon) (ms : list pystr) (score : Q) :
  (fold_left (add_marker_bonus table) ms score
   == score + sum_Q (map (marker_bonus table) ms))%Q.
Proof.
  revert score. induction ms as [| m tl IH]; intros score; simpl.
  - ring.
  - rewrite IH, add_marker_bonus_spec. ring.
Qed.

(** C4, as the code has it.  Every marker of the segment contributes its own
    bonus, +0.3 when the first lexicon entry listing it is SUMMARY and +0.2
    when it is CAUSALITY; the bonuses of all markers are added to the base
    0.5 together with the reference and length terms, and the sum is clamped
    to 1.0. *)
Theorem calculate_importance_sums_bonuses :
  forall (table : lexicon) (segment : Segment) (all_segments : list Segment),
    (calculate_importance table segment all_segments
     == Qmin ((1 # 2) + sum_Q (map (marker_bonus table) (markers segment))
              + Qmin (inject_Z (reference_count segment all_segments) * (1 # 10))
                     (3 # 10)
              + (if (100 <? length (text segment))%nat then (1 # 10) else 0))
             1)%Q.
Proof.
  intros table segment all_segments.
  unfold calculate_importance.
  rewrite !py_min_Qmin.
  apply Q.min_compat; [| reflexivity].
  destruct (100 <? length (text segment))%nat;
    rewrite fold_marker_bonus; ring.
Qed.

(** With at most one marker on the segment the code and the single-bonus
    reading agree: the two differ by the stacking alone. *)

Lemma pystr_eqb_eq (a b : pystr) : pystr_eqb a b = true <-> a = b.
Proof.
  revert b. induction a as [| c a' IH]; intros [| d b']; simpl;
    try (split; [discriminate | discriminate]); [tauto |].
  rewrite andb_true_iff, Z.eqb_eq, IH. split.
  - intros [-> ->]. reflexivity.
  - intros H. injection H as -> ->. auto.
Qed.

Lemma first_type_belongs (table : lexicon) (m : pystr) (t : RelationType) :
  first_type table m = Some t -> belongs_to table t m = true.
Proof.
  unfold first_type, belongs_to.
  destruct (find _ table) as [entry |] eqn:Hfind; [| discriminate].
  intros H. injection H as <-.
  apply find_some in Hfind. destruct Hfind as [Hin Hkw].
  apply existsb_exists. exists entry. split; [exact Hin |].
  rewrite Hkw. destruct (fst entry); reflexivity.
Qed.

Lemma RelationType_eqb_eq (a b : RelationType) :
  RelationType_eqb a b = true -> a = b.
Proof. destruct a, b; simpl; congruence. Qed.

(** In the default table no keyword is listed under two types. *)
Lemma default_belongs_first_type (m : pystr) (t : RelationType) :
  belongs_to SEMANTIC_MARKERS t m = true ->
  first_type SEMANTIC_MARKERS m = Some t.
Proof.
  unfold belongs_to. intros H.
  apply existsb_exists in H. destruct H as [[t' keywords] [Hentry H]].
  apply andb_true_iff in H. destruct H as [Ht Hkw].
  apply RelationType_eqb_eq in Ht. cbn [fst] in Ht. subst t'.
  apply existsb_exists in Hkw. destruct Hkw as [keyword [Hkw Heq]].
  apply pystr_eqb_eq in Heq. subst keyword. cbn [snd] in Hkw.
  unfold SEMANTIC_MARKERS in Hentry. simpl in Hentry.
  repeat (destruct Hentry as [Hentry | Hentry];
          [injection Hentry as <- <-; simpl in Hkw;
           repeat (destruct Hkw as [<- | Hkw]; [vm_compute; reflexivity |]);
           contradiction |]).
  contradiction.
Qed.

Lemma single_marker_agrees (segment : Segment) (all_segments : list Segment) :
  (length (markers segment) <= 1)%nat ->
  (calculate_importance SEMANTIC_MARKERS segment all_segments
   == stated_importance SEMANTIC_MARKERS segment all_segments)%Q.
Proof.
  intros Hone.
  unfold calculate_importance, stated_importance, stated_marker_bonus.
  rewrite !py_min_Qmin.
  apply Q.min_compat; [| reflexivity].
  assert (Hbonus :
            (fold_left (add_marker_bonus SEMANTIC_MARKERS) (markers segment) (1 # 2)
             == (1 # 2)
                + (if existsb (belongs_to SEMANTIC_MARKERS SUMMARY) (markers segment)
                   then 3 # 10
                   else if existsb (belongs_to SEMANTIC_MARKERS CAUSALITY)
                                   (markers segment)
                        then 2 # 10 else 0))%Q).
  { destruct (markers segment) as [| m [| m' tl]]; [simpl; ring | | simpl in Hone; lia].
    cbn [fold_left existsb]. rewrite !orb_false_r.
    unfold add_marker_bonus.
    destruct (first_type SEMANTIC_MARKERS m) as [t |] eqn:Hfirst.
    - pose proof (first_type_belongs _ _ _ Hfirst) as Hb.
      destruct (belongs_to SEMANTIC_MARKERS SUMMARY m) eqn:Hs.
      + apply default_belongs_first_type in Hs.
        rewrite Hfirst in Hs. injection Hs as ->. ring.
      + destruct (belongs_to SEMANTIC_MARKERS CAUSALITY m) eqn:Hc.
        * apply default_belongs_first_type in Hc.
          rewrite Hfirst in Hc. injection Hc as ->. ring.
        * destruct t; try ring; congruence.
    - destruct (belongs_to SEMANTIC_MARKERS SUMMARY m) eqn:Hs.
      + apply default_belongs_first_type in Hs. congruence.
      + destruct (belongs_to SEMANTIC_MARKERS CAUSALITY m) eqn:Hc.
        * apply default_belongs_first_type in Hc. congruence.
        * ring. }
  destruct (100 <? length (text segment))%nat; rewrite Hbonus; ring.
Qed.

(** ** Marker driven re-splitting *)

Section AnalyzerFacts.

Variable is_word : Z -> bool.
Variable is_space : Z -> bool.
Variable table : lexicon.

Lemma detect_markers_In (text_ : pystr) (m : pystr) (t : RelationType) :
  In (m, t) (detect_markers table text_) ->
  exists keywords, In (t, keywords) table /\ In m keywords
                   /\ contains m text_ = true.
Proof.
  unfold detect_markers. intros Hin.
  apply in_flat_map in Hin. destruct Hin as [[t' keywords] [Hentry Hin]].
  apply in_flat_map in Hin. destruct Hin as [keyword [Hkw Hin]].
  destruct (contains keyword text_) eqn:Hc; [| contradiction].
  destruct Hin as [Heq | []]. injection Heq as -> ->.
  exists keywords. auto.
Qed.

Lemma finditer_from_In (marker s : pystr) (skip : nat) (offsets : list nat)
      (p : nat) :
  In p (finditer_from is_word marker s skip offsets) ->
  In p offsets /\ match_at is_word marker s p = true.
Proof.
  revert skip. induction offsets as [| q qs IH]; intros skip Hin.
  - contradiction.
  - cbn [finditer_from] in Hin. destruct skip as [| k].
    + destruct (match_at is_word marker s q) eqn:Hm.
      * destruct Hin as [-> | Hin]; [split; [left; reflexivity | exact Hm] |].
        apply IH in Hin. destruct Hin. split; [right |]; assumption.
      * apply IH in Hin. destruct Hin. split; [right |]; assumption.
    + apply IH in Hin. destruct Hin. split; [right |]; assumption.
Qed.

Lemma finditer_In (marker s : pystr) (p : nat) :
  In p (finditer is_word marker s) ->
  (p <= length s)%nat /\ match_at is_word marker s p = true.
Proof.
  unfold finditer. intros Hin. apply finditer_from_In in Hin.
  destruct Hin as [Hseq Hm]. apply in_seq in Hseq. split; [lia | exact Hm].
Qed.

Lemma find_split_points_In (text_ : pystr) (found : list (pystr * RelationType))
      (p : nat) (m : pystr) (t : RelationType) :
  In (p, m, t) (find_split_points is_word text_ found) ->
  In (m, t) found /\ In p (finditer is_word m text_).
Proof.
  unfold find_split_points. intros Hin.
  apply in_flat_map in Hin. destruct Hin as [[m' t'] [Hfound Hin]].
  apply in_map_iff in Hin. destruct Hin as [q [Heq Hq]].
  injection Heq as -> -> ->. auto.
Qed.

Lemma insert_point_In (x y : split_point) (l : list split_point) :
  In x (insert_point y l) <-> x = y \/ In x l.
Proof.
  induction l as [| z tl IH]; simpl.
  - intuition.
  - destruct (fst (fst y) <=? fst (fst z))%nat; simpl; [intuition |].
    rewrite IH. intuition.
Qed.

Lemma sort_points_In (x : split_point) (l : list split_point) :
  In x (sort_points l) <-> In x l.
Proof.
  induction l as [| y tl IH]; simpl; [tauto |].
  rewrite insert_point_In, IH. intuition.
Qed.

Lemma sort_points_nonempty (l : list split_point) :
  l <> [] -> sort_points l <> [].
Proof.
  destruct l as [| x tl]; [congruence |]. intros _ Hnil.
  assert (Hin : In x (sort_points (x :: tl)))
    by (apply sort_points_In; left; reflexivity).
  rewrite Hnil in Hin. contradiction.
Qed.

(** The walk leaves [last_pos] at the offset of the last split point. *)
Lemma walk_points_final (segment : Segment) (i last_pos : nat)
      (pts : list split_point) :
  snd (walk_points is_space segment i last_pos pts)
  = last (map (fun pt : split_point => fst (fst pt)) pts) last_pos.
Proof.
  revert i last_pos. induction pts as [| [[pos m] t] tl IH]; intros i last_pos.
  - reflexivity.
  - cbn [walk_points]. specialize (IH (S i) pos).
    destruct (walk_points is_space segment (S i) pos tl) as [rest final_pos].
    cbn [snd] in IH |- *. rewrite IH.
    destruct tl as [| y tl']; [reflexivity |].
    cbn [map fst]. 
    change (last (pos :: fst (fst y) :: map (fun pt : split_point => fst (fst pt)) tl')
                 last_pos)
      with (last (fst (fst y) :: map (fun pt : split_point => fst (fst pt)) tl')
                 last_pos).
    apply last_indep.
Qed.

Lemma last_In {A : Type} (x : A) (l : list A) (d : A) : In (last (x :: l) d) (x :: l).
Proof.
  revert x. induction l as [| y tl IH]; intros x.
  - left. reflexivity.
  - right. change (last (x :: y :: tl) d) with (last (y :: tl) d). apply IH.
Qed.

Lemma walk_points_final_In (segment : Segment) (i last_pos : nat)
      (pts : list split_point) :
  pts <> [] ->
  exists m t,
    In (snd (walk_points is_space segment i last_pos pts), m, t) pts.
Proof.
  intros Hne. rewrite walk_points_final.
  destruct pts as [| pt tl]; [congruence |].
  pose proof (last_In (fst (fst pt))
                      (map (fun pt : split_point => fst (fst pt)) tl) last_pos)
    as Hin.
  change (fst (fst pt) :: map (fun pt0 : split_point => fst (fst pt0)) tl)
    with (map (fun pt0 : split_point => fst (fst pt0)) (pt :: tl)) in Hin.
  apply in_map_iff in Hin. destruct Hin as [[[p m] t] [Hp Hin]].
  cbn [fst] in Hp. exists m, t. rewrite <- Hp. exact Hin.
Qed.

Lemma drop_while_snoc (f : Z -> bool) (s : pystr) (c : Z) :
  f c = false -> drop_while f (s ++ [c]) <> [].
Proof.
  intros Hc. induction s as [| d tl IH]; simpl.
  - rewrite Hc. discriminate.
  - destruct (f d); [exact IH | discriminate].
Qed.

Lemma strip_visible (c : Z) (rest : pystr) :
  is_space c = false -> strip is_space (c :: rest) <> [].
Proof.
  intros Hc. unfold strip. cbn [drop_while]. rewrite Hc.
  cbn [rev]. intros Hnil.
  apply (f_equal (@rev Z)) in Hnil. rewrite rev_involutive in Hnil.
  simpl in Hnil. exact (drop_while_snoc is_space (rev rest) c Hc Hnil).
Qed.

Lemma strip_slice_text_nonempty (s : pystr) (a b : nat) :
  strip is_space (slice s a b) <> [] \/ strip is_space (skipn a s) <> [] ->
  (0 < length s)%nat.
Proof.
  destruct s as [| c tl]; [| simpl; lia].
  unfold slice. rewrite skipn_nil, firstn_nil. unfold strip. simpl.
  intros [H | H]; contradiction H; reflexivity.
Qed.

Lemma starts_with_head (c : Z) (m s : pystr) :
  starts_with (c :: m) s = true -> exists rest, s = c :: rest.
Proof.
  destruct s as [| d tl]; simpl; [discriminate |].
  intros H. apply andb_true_iff in H. destruct H as [H _].
  apply Z.eqb_eq in H. subst. eauto.
Qed.

Lemma trailing_markers_raises (pts : list split_point) (last_pos : nat) :
  pts <> [] -> trailing_markers pts last_pos = Raise TypeError.
Proof.
  destruct pts as [| [[p m] t] tl]; [congruence | reflexivity].
Qed.

Lemma nonempty_true {A : Type} (l : list A) : l <> [] -> nonempty l = true.
Proof. destruct l; [congruence | reflexivity]. Qed.

(** Without a word-boundary occurrence the segment is returned as it is. *)
Lemma split_by_markers_unsplit (segment : Segment) :
  find_split_points is_word (text segment) (detect_markers table (text segment))
  = [] ->
  split_by_markers is_word is_space table segment = Ok [segment].
Proof.
  intros Hnone. unfold split_by_markers.
  destruct (nonempty (detect_markers table (text segment))); [| reflexivity].
  rewrite Hnone. reflexivity.
Qed.

(** With a word-boundary occurrence and keywords that [strip] keeps, the
    trailing text is never empty, the comprehension over the split points
    is evaluated, and its filter raises. *)
Lemma split_by_markers_raises (segment : Segment) :
  visible_keywords is_space table = true ->
  find_split_points is_word (text segment) (detect_markers table (text segment))
  <> [] ->
  split_by_markers is_word is_space table segment = Raise TypeError.
Proof.
  intros Hvis Hsome. unfold split_by_markers.
  set (found := detect_markers table (text segment)) in *.
  destruct (nonempty found) eqn:Hfound.
  2:{ destruct found; [| discriminate]. exfalso. apply Hsome. reflexivity. }
  cbn [negb].
  set (pts := find_split_points is_word (text segment) found) in *.
  rewrite (nonempty_true pts Hsome). cbn [negb].
  pose proof (sort_points_nonempty pts Hsome) as Hsorted.
  destruct (walk_points_final_In segment 0 0 (sort_points pts) Hsorted)
    as [m [t Hlast]].
  destruct (walk_points is_space segment 0 0 (sort_points pts))
    as [sub_segments last_pos].
  cbn [snd] in Hlast.
  apply (proj1 (sort_points_In _ _)) in Hlast. unfold pts in Hlast.
  apply find_split_points_In in Hlast. destruct Hlast as [Hdet Hiter].
  unfold found in Hdet.
  apply detect_markers_In in Hdet. destruct Hdet as [keywords [Hentry [Hkw _]]].
  apply finditer_In in Hiter. destruct Hiter as [_ Hmatch].
  unfold match_at in Hmatch.
  apply andb_true_iff in Hmatch. destruct Hmatch as [Hmatch _].
  apply andb_true_iff in Hmatch. destruct Hmatch as [_ Hprefix].
  unfold visible_keywords in Hvis.
  rewrite forallb_forall in Hvis. specialize (Hvis _ Hentry). cbn [snd] in Hvis.
  rewrite forallb_forall in Hvis. specialize (Hvis _ Hkw).
  destruct m as [| c m']; [discriminate |].
  apply negb_true_iff in Hvis.
  destruct (starts_with_head c m' _ Hprefix) as [rest Hrest].
  rewrite Hrest.
  rewrite (nonempty_true _ (strip_visible c rest Hvis)).
  rewrite (trailing_markers_raises (sort_points pts) last_pos Hsorted).
  reflexivity.
Qed.

End AnalyzerFacts.

(** *** Rounding to binary64 is monotone *)

Lemma round_half_even_bounds (x : Q) :
  Qfloor x <= Float64.round_half_even x <= Qfloor x + 1.
Proof.
  unfold Float64.round_half_even.
  destruct (x - inject_Z (Qfloor x) ?= 1 # 2)%Q; [| lia | lia].
  destruct (Z.even (Qfloor x)); lia.
Qed.

Lemma round_half_even_mono (x y : Q) :
  (x <= y)%Q -> Float64.round_half_even x <= Float64.round_half_even y.
Proof.
  intros Hxy.
  pose proof (Qfloor_resp_le x y Hxy) as Hfloor.
  pose proof (round_half_even_bounds x) as Hx.
  pose proof (round_half_even_bounds y) as Hy.
  destruct (Z.eq_dec (Qfloor x) (Qfloor y)) as [Heq | Hne]; [| lia].
  clear Hx Hy Hfloor. unfold Float64.round_half_even. rewrite <- Heq.
  destruct (x - inject_Z (Qfloor x) ?= 1 # 2)%Q eqn:Hcx;
    destruct (y - inject_Z (Qfloor x) ?= 1 # 2)%Q eqn:Hcy;
    cbv iota;
    try (destruct (Z.even (Qfloor x)); lia);
    exfalso;
    try (apply (proj2 (Qeq_alt _ _)) in Hcx);
    try (apply (proj2 (Qeq_alt _ _)) in Hcy);
    try (apply (proj2 (Qlt_alt _ _)) in Hcx);
    try (apply (proj2 (Qlt_alt _ _)) in Hcy);
    try (apply (proj2 (Qgt_alt _ _)) in Hcx);
    try (apply (proj2 (Qgt_alt _ _)) in Hcy);
    lra.
Qed.

Lemma round_half_even_Z (n : Z) : Float64.round_half_even (inject_Z n) = n.
Proof.
  unfold Float64.round_half_even. rewrite Qfloor_Z.
  assert (H : (inject_Z n - inject_Z n ?= 1 # 2)%Q = Lt).
  { apply (proj1 (Qlt_alt _ _)). lra. }
  rewrite H. reflexivity.
Qed.

Lemma pow2_pos (j : Z) : 0 <= j -> (0 < inject_Z (2 ^ j))%Q.
Proof.
  intros Hj. change 0%Q with (inject_Z 0). rewrite <- Zlt_Qlt.
  apply Z.pow_pos_nonneg; lia.
Qed.

Lemma round_significand_nonneg (x : Q) :
  (0 <= x)%Q -> 0 <= Float64.round_significand x.
Proof.
  intros Hx. unfold Float64.round_significand.
  set (j := Z.max 0 (Z.log2 (Qfloor x) + 1 - Float64.prec)).
  assert (Hj : 0 <= j) by (unfold j; lia).
  apply Z.mul_nonneg_nonneg; [| apply Z.pow_nonneg; lia].
  apply Z.le_trans with (Float64.round_half_even 0).
  - change 0%Q with (inject_Z 0). rewrite (round_half_even_Z 0). lia.
  - apply round_half_even_mono.
    apply Qle_shift_div_l; [apply pow2_pos; exact Hj | lra].
Qed.

Lemma floor_lt_pow2 (f : Z) : 0 <= f -> f + 1 <= 2 ^ (Z.log2 f + 1).
Proof.
  intros Hf. destruct (Z.eq_dec f 0) as [-> | Hne]; [simpl; lia |].
  pose proof (Z.log2_spec f ltac:(lia)) as [_ H].
  replace (Z.succ (Z.log2 f)) with (Z.log2 f + 1) in H by lia. lia.
Qed.

Lemma round_significand_mono (x y : Q) :
  (0 <= x)%Q -> (x <= y)%Q -> Float64.round_significand x <= Float64.round_significand y.
Proof.
  intros Hx Hxy.
  assert (Hy : (0 <= y)%Q) by lra.
  pose proof (Qfloor_resp_le x y Hxy) as Hfloor.
  assert (Hfx : 0 <= Qfloor x).
  { rewrite <- (Qfloor_Z 0). apply Qfloor_resp_le. exact Hx. }
  pose proof (Z.log2_le_mono _ _ Hfloor) as Hlog.
  unfold Float64.round_significand.
  set (jx := Z.max 0 (Z.log2 (Qfloor x) + 1 - Float64.prec)).
  set (jy := Z.max 0 (Z.log2 (Qfloor y) + 1 - Float64.prec)).
  assert (Hjx : 0 <= jx) by (unfold jx; lia).
  assert (Hjy : 0 <= jy) by (unfold jy; lia).
  assert (Hj : jx <= jy) by (unfold jx, jy; lia).
  destruct (Z.eq_dec jx jy) as [Heq | Hne].
  - rewrite <- Heq.
    apply Z.mul_le_mono_nonneg_r; [apply Z.pow_nonneg; lia |].
    apply round_half_even_mono.
    unfold Qdiv. apply Qmult_le_compat_r; [exact Hxy |].
    apply Qinv_le_0_compat. apply Qlt_le_weak. apply pow2_pos. exact Hjx.
  - assert (Hlt : jx + 1 <= jy) by lia.
    assert (Hjy_eq : jy = Z.log2 (Qfloor y) + 1 - Float64.prec) by (unfold jy in *; lia).
    apply Z.le_trans with (2 ^ (Float64.prec + jx)).
    + (* the smaller one stays below the next power of two *)
      rewrite Z.pow_add_r by (unfold Float64.prec; lia).
      apply Z.mul_le_mono_nonneg_r; [apply Z.pow_nonneg; lia |].
      rewrite <- (round_half_even_Z (2 ^ Float64.prec)).
      apply round_half_even_mono.
      apply Qle_shift_div_r; [apply pow2_pos; exact Hjx |].
      rewrite <- inject_Z_mult, <- Z.pow_add_r by (unfold Float64.prec; lia).
      apply Qle_trans with (inject_Z (Qfloor x + 1)).
      * apply Qlt_le_weak. apply Qlt_floor.
      * rewrite <- Zle_Qle.
        apply Z.le_trans with (2 ^ (Z.log2 (Qfloor x) + 1)).
        -- apply floor_lt_pow2. exact Hfx.
        -- apply Z.pow_le_mono_r; [lia |]. unfold jx. lia.
    + (* the larger one is at least that power *)
      apply Z.le_trans with (2 ^ (Float64.prec - 1) * 2 ^ jy).
      * rewrite <- Z.pow_add_r by (unfold Float64.prec; lia).
        apply Z.pow_le_mono_r; [lia |]. lia.
      * apply Z.mul_le_mono_nonneg_r; [apply Z.pow_nonneg; lia |].
        rewrite <- (round_half_even_Z (2 ^ (Float64.prec - 1))).
        apply round_half_even_mono.
        apply Qle_shift_div_l; [apply pow2_pos; exact Hjy |].
        rewrite <- inject_Z_mult, <- Z.pow_add_r by (unfold Float64.prec; lia).
        apply Qle_trans with (inject_Z (Qfloor y)); [| apply Qfloor_le].
        rewrite <- Zle_Qle.
        replace (Float64.prec - 1 + jy) with (Z.log2 (Qfloor y)) by lia.
        assert (Hpos : 0 < Qfloor y).
        { destruct (Z.eq_dec (Qfloor y) 0) as [H0 | H0]; [| lia].
          rewrite H0 in Hjy_eq. simpl in Hjy_eq. unfold Float64.prec in *. lia. }
        apply (Z.log2_spec _ Hpos).
Qed.

Lemma scale_pos : (0 < Float64.scale)%Q.
Proof. unfold Float64.scale. apply pow2_pos. unfold Float64.emax, Float64.prec. lia. Qed.

Lemma round_magnitude_mono (x y : Q) :
  (0 <= x)%Q -> (x <= y)%Q -> (Float64.round_magnitude x <= Float64.round_magnitude y)%Q.
Proof.
  intros Hx Hxy. unfold Float64.round_magnitude, Qdiv.
  pose proof scale_pos as Hs.
  apply Qmult_le_compat_r.
  - rewrite <- Zle_Qle. apply round_significand_mono.
    + apply Qmult_le_0_compat; [exact Hx | apply Qlt_le_weak; exact Hs].
    + apply Qmult_le_compat_r; [exact Hxy | apply Qlt_le_weak; exact Hs].
  - apply Qinv_le_0_compat. apply Qlt_le_weak. exact Hs.
Qed.

Lemma round_magnitude_nonneg (x : Q) :
  (0 <= x)%Q -> (0 <= Float64.round_magnitude x)%Q.
Proof.
  intros Hx. unfold Float64.round_magnitude.
  pose proof scale_pos as Hs.
  apply Qle_shift_div_l; [exact Hs |]. rewrite Qmult_0_l.
  change 0%Q with (inject_Z 0). rewrite <- Zle_Qle.
  apply round_significand_nonneg.
  apply Qmult_le_0_compat; [exact Hx | apply Qlt_le_weak; exact Hs].
Qed.

Lemma round_unfold (x : Q) :
  (Float64.round x == if Qle_bool 0 x then Float64.round_magnitude x
              else - Float64.round_magnitude (- x))%Q.
Proof. unfold Float64.round. apply Qred_correct. Qed.

Lemma round_mono (x y : Q) : (x <= y)%Q -> (Float64.round x <= Float64.round y)%Q.
Proof.
  intros Hxy. rewrite !round_unfold.
  destruct (Qle_bool 0 x) eqn:Hx; destruct (Qle_bool 0 y) eqn:Hy.
  - apply Qle_bool_iff in Hx. apply round_magnitude_mono; assumption.
  - apply Qle_bool_iff in Hx.
    assert (Hny : ~ (0 <= y)%Q) by (rewrite <- Qle_bool_iff, Hy; discriminate).
    exfalso. apply Hny. lra.
  - apply Qle_bool_iff in Hy.
    assert (Hnx : ~ (0 <= x)%Q) by (rewrite <- Qle_bool_iff, Hx; discriminate).
    pose proof (round_magnitude_nonneg (- x) ltac:(lra)).
    pose proof (round_magnitude_nonneg y Hy). lra.
  - assert (Hnx : ~ (0 <= x)%Q) by (rewrite <- Qle_bool_iff, Hx; discriminate).
    assert (Hny : ~ (0 <= y)%Q) by (rewrite <- Qle_bool_iff, Hy; discriminate).
    pose proof (round_magnitude_mono (- y) (- x) ltac:(lra) ltac:(lra)). lra.
Qed.

Lemma round_0 : (Float64.round 0 == 0)%Q.
Proof. vm_compute. reflexivity. Qed.

Lemma round_nonneg (x : Q) : (0 <= x)%Q -> (0 <= Float64.round x)%Q.
Proof.
  intros Hx. rewrite <- round_0. apply round_mono. exact Hx.
Qed.


Lemma round_fixes_float (x : Q) :
  Float64.is_float x = true -> (Float64.round x == x)%Q.
Proof. intros H. apply Qeq_bool_iff. exact H. Qed.

(** The rounding agrees with the float operations of [SpecFloat] on the
    decimal constants and on the sums, differences and products of the
    examples below. *)
Example round_agrees_with_SpecFloat :
  let three_tenths := Float64.div (Float64.of_int 3) (Float64.of_int 10) in
  let nine_tenths := Float64.div (Float64.of_int 9) (Float64.of_int 10) in
  let one := Float64.div (Float64.of_int 2) (Float64.of_int 2) in
  let difference := Float64.sub nine_tenths three_tenths in
  (Float64.to_Q three_tenths == Float64.round (3 # 10))%Q
  /\ (Float64.to_Q nine_tenths == Float64.round (9 # 10))%Q
  /\ (Float64.to_Q difference
      == Float64.round (Float64.round (9 # 10) - Float64.round (3 # 10)))%Q
  /\ (Float64.to_Q (Float64.add three_tenths (Float64.mul one difference))
      == interpolate (Float64.round (3 # 10)) (char_ratio 2 2)
                     (Float64.round (Float64.round (9 # 10)
                                     - Float64.round (3 # 10))))%Q
  /\ (Float64.to_Q (Float64.mul (Float64.div (Float64.of_int 2)
                                             (Float64.of_int 6))
                                (Float64.of_int 10))
      == Float64.round (char_ratio 2 6 * 10))%Q.
Proof. vm_compute. repeat split. Qed.

(** *** Timestamps of the sub-segments *)

Lemma ascending_from_weaken (lo lo' : nat) (pts : list split_point) :
  (lo' <= lo)%nat -> ascending_from lo pts -> ascending_from lo' pts.
Proof.
  destruct pts as [| pt tl]; simpl; [tauto |].
  intros Hle [H1 H2]. split; [lia | exact H2].
Qed.

Lemma insert_point_ascending (x : split_point) (lo : nat) (l : list split_point) :
  (lo <= fst (fst x))%nat ->
  ascending_from lo l -> ascending_from lo (insert_point x l).
Proof.
  revert lo. induction l as [| y tl IH]; intros lo Hx Hl.
  - simpl. auto.
  - cbn [insert_point].
    destruct (fst (fst x) <=? fst (fst y))%nat eqn:Hcmp.
    + apply Nat.leb_le in Hcmp. destruct Hl as [Hy Htl].
      simpl. repeat split; auto.
    + apply Nat.leb_gt in Hcmp. destruct Hl as [Hy Htl].
      cbn [ascending_from]. split; [exact Hy |].
      apply IH; [lia | exact Htl].
Qed.

Lemma sort_points_ascending (l : list split_point) :
  ascending_from 0 (sort_points l).
Proof.
  induction l as [| x tl IH]; simpl; [exact I |].
  apply insert_point_ascending; [lia | exact IH].
Qed.

Lemma exact_ratio_mono (a b len : nat) :
  (a <= b)%nat ->
  (inject_Z (Z.of_nat a) / inject_Z (Z.of_nat len)
   <= inject_Z (Z.of_nat b) / inject_Z (Z.of_nat len))%Q.
Proof.
  intros Hab. unfold Qdiv.
  apply Qmult_le_compat_r.
  - rewrite <- Zle_Qle. lia.
  - apply Qinv_le_0_compat. change 0%Q with (inject_Z 0).
    rewrite <- Zle_Qle. lia.
Qed.

Lemma char_ratio_mono (a b len : nat) :
  (a <= b)%nat -> (char_ratio a len <= char_ratio b len)%Q.
Proof.
  intros Hab. unfold char_ratio. apply round_mono.
  apply exact_ratio_mono. exact Hab.
Qed.

Lemma char_ratio_nonneg (a len : nat) : (0 <= char_ratio a len)%Q.
Proof.
  unfold char_ratio. apply round_nonneg. unfold Qdiv.
  apply Qmult_le_0_compat.
  - change 0%Q with (inject_Z 0). rewrite <- Zle_Qle. lia.
  - apply Qinv_le_0_compat. change 0%Q with (inject_Z 0).
    rewrite <- Zle_Qle. lia.
Qed.

(** With a duration that is not negative, a larger ratio gives a later
    time, and no ratio gives a time before the start. *)
Lemma interpolate_mono (start ratio ratio' duration_ : Q) :
  (0 <= duration_)%Q -> (ratio <= ratio')%Q ->
  (interpolate start ratio duration_ <= interpolate start ratio' duration_)%Q.
Proof.
  intros Hd Hr. unfold interpolate.
  apply round_mono. apply Qplus_le_r. apply round_mono.
  apply Qmult_le_compat_r; assumption.
Qed.

Lemma interpolate_lower (start ratio duration_ : Q) :
  (Float64.round start == start)%Q ->
  (0 <= ratio)%Q -> (0 <= duration_)%Q ->
  (start <= interpolate start ratio duration_)%Q.
Proof.
  intros Hstart Hr Hd. unfold interpolate.
  apply Qle_trans with (Float64.round start).
  - rewrite Hstart. apply Qle_refl.
  - apply round_mono.
    pose proof (round_nonneg (ratio * duration_)
                             (Qmult_le_0_compat _ _ Hr Hd)).
    lra.
Qed.

Section Timestamps.

Variable is_word : Z -> bool.
Variable is_space : Z -> bool.
Variable table : lexicon.
Variable segment : Segment.
Hypothesis Hstart : Float64.is_float (start_time segment) = true.
Hypothesis Hordered : (start_time segment <= end_time segment)%Q.

Let len := length (text segment).

Lemma duration_nonneg : (0 <= duration segment)%Q.
Proof. unfold duration. apply round_nonneg. pose proof Hordered. lra. Qed.

Lemma time_at_mono (a b : nat) :
  (a <= b)%nat -> (time_at segment a <= time_at segment b)%Q.
Proof.
  intros Hab. unfold time_at.
  apply interpolate_mono; [apply duration_nonneg |].
  apply char_ratio_mono. exact Hab.
Qed.

Lemma time_at_lower (a : nat) : (start_time segment <= time_at segment a)%Q.
Proof.
  unfold time_at. apply interpolate_lower.
  - apply round_fixes_float. exact Hstart.
  - apply char_ratio_nonneg.
  - apply duration_nonneg.
Qed.

(** The sub-segments of the walk follow one another; each starts at or
    after the parent's start and ends at or before the time of the end of
    the text. *)
Lemma walk_points_timestamps (pts : list split_point) :
  forall (i last_pos : nat) (lo : Q),
    ascending_from last_pos pts ->
    Forall (fun pt : split_point => (fst (fst pt) <= len)%nat) pts ->
    (lo <= time_at segment last_pos)%Q ->
    ordered_from lo (fst (walk_points is_space segment i last_pos pts))
    /\ within_reach segment
                    (fst (walk_points is_space segment i last_pos pts)).
Proof.
  induction pts as [| [[pos m] t] tl IH]; intros i last_pos lo Hasc Hlen Hlo.
  - simpl. split; [exact I | constructor].
  - cbn [walk_points].
    destruct Hasc as [Hpos Hasc]. cbn [fst] in Hpos, Hasc.
    inversion Hlen as [| pt pts' Hpos_len Hlen']; subst. cbn [fst] in Hpos_len.
    pose proof (time_at_mono last_pos pos Hpos) as Hmono.
    destruct (nonempty (strip is_space (slice (text segment) last_pos pos))).
    + destruct (IH (S i) pos (time_at segment pos) Hasc Hlen' (Qle_refl _))
        as [IHord IHin].
      destruct (walk_points is_space segment (S i) pos tl) as [rest final_pos].
      cbn [fst] in *. cbn [app].
      split.
      * cbn [ordered_from]. split; [exact Hlo | exact IHord].
      * constructor; [| exact IHin].
        split.
        -- apply time_at_lower.
        -- apply time_at_mono. exact Hpos_len.
    + destruct (IH (S i) pos lo Hasc Hlen' (Qle_trans _ _ _ Hlo Hmono))
        as [IHord IHin].
      destruct (walk_points is_space segment (S i) pos tl) as [rest final_pos].
      cbn [fst] in *. cbn [app]. split; assumption.
Qed.

Lemma ordered_from_monotone (lo : Q) (subs : list Segment) :
  ordered_from lo subs -> monotone_timestamps subs.
Proof.
  destruct subs as [| x tl]; simpl; tauto.
Qed.

(** Whatever the lexicon and the character classes: when the parent's start
    is a float and its end is not before its start, a list
    [split_by_markers] returns is the parent alone or a list of
    sub-segments with non-decreasing timestamps, none of which starts before
    the parent or ends after the time of the end of the text. *)
Lemma split_by_markers_timestamps (subs : list Segment) :
  split_by_markers is_word is_space table segment = Ok subs ->
  monotone_timestamps subs
  /\ (subs = [segment] \/ within_reach segment subs).
Proof.
  assert (Hself : monotone_timestamps [segment]
                  /\ ([segment] = [segment] \/ within_reach segment [segment])).
  { split; [exact I | left; reflexivity]. }
  unfold split_by_markers.
  destruct (nonempty (detect_markers table (text segment)));
    cbn [negb]; [| intros H; injection H as <-; exact Hself].
  set (pts := find_split_points is_word (text segment)
                (detect_markers table (text segment))).
  destruct (nonempty pts) eqn:Hpts;
    cbn [negb]; [| intros H; injection H as <-; exact Hself].
  assert (Hne : sort_points pts <> []).
  { apply sort_points_nonempty. destruct pts; [discriminate | congruence]. }
  assert (Hlen : Forall (fun pt : split_point => (fst (fst pt) <= len)%nat)
                        (sort_points pts)).
  { apply Forall_forall. intros [[p m] t] Hin.
    apply (proj1 (sort_points_In _ _)) in Hin. unfold pts in Hin.
    apply find_split_points_In in Hin. destruct Hin as [_ Hin].
    apply finditer_In in Hin. cbn [fst]. apply Hin. }
  pose proof (walk_points_timestamps (sort_points pts) 0 0 (start_time segment)
                (sort_points_ascending pts) Hlen (time_at_lower 0))
    as [Hord Hin].
  destruct (walk_points is_space segment 0 0 (sort_points pts))
    as [sub_segments last_pos].
  cbn [fst] in Hord, Hin.
  destruct (nonempty (strip is_space (skipn last_pos (text segment)))).
  - rewrite (trailing_markers_raises (sort_points pts) last_pos Hne).
    cbn [bind]. discriminate.
  - cbn [bind]. destruct sub_segments as [| x tl]; cbn [nonempty].
    + intros H; injection H as <-; exact Hself.
    + intros H; injection H as <-.
      split; [exact (ordered_from_monotone _ _ Hord) | right; exact Hin].
Qed.

End Timestamps.

(** *** The analyzer of the application *)

Lemma default_keywords_visible :
  visible_keywords unicode_space SEMANTIC_MARKERS = true.
Proof. vm_compute. reflexivity. Qed.

(** The default analyzer either returns the segment unsplit or raises. *)
Lemma default_split_outcomes (segment : Segment) :
  (find_split_points unicode_word (text segment)
     (detect_markers SEMANTIC_MARKERS (text segment)) = []
   /\ default_split_by_markers segment = Ok [segment])
  \/ (find_split_points unicode_word (text segment)
        (detect_markers SEMANTIC_MARKERS (text segment)) <> []
      /\ default_split_by_markers segment = Raise TypeError).
Proof.
  unfold default_split_by_markers.
  destruct (find_split_points unicode_word (text segment)
              (detect_markers SEMANTIC_MARKERS (text segment))) as [| pt tl] eqn:Hpts.
  - left. split; [reflexivity |]. apply split_by_markers_unsplit. exact Hpts.
  - right. split; [discriminate |].
    apply split_by_markers_raises; [exact default_keywords_visible |].
    rewrite Hpts. discriminate.
Qed.

(** C1.  On a segment whose text is the scenario sentence, marker detection
    finds ("但是", CONTRAST), yet [split_by_markers] returns the one segment
    it was given: the character after the marker is a word character, so
    the pattern finds no word-boundary occurrence. *)
Theorem scenario_detected_not_split :
  forall segment : Segment,
    text segment = scenario_text ->
    In ([20294; 26159], CONTRAST) (detect_markers SEMANTIC_MARKERS (text segment))
    /\ finditer unicode_word [20294; 26159] (text segment) = []
    /\ default_split_by_markers segment = Ok [segment]
    /\ length [segment] = 1%nat.
Proof.
  intros segment Htext. rewrite Htext.
  split; [vm_compute; left; reflexivity |].
  split; [vm_compute; reflexivity |].
  split; [| reflexivity].
  apply split_by_markers_unsplit. rewrite Htext. vm_compute. reflexivity.
Qed.

Lemma scenario_detected_not_split_witness :
  In ([20294; 26159], CONTRAST)
     (detect_markers SEMANTIC_MARKERS (text (wrap scenario_text)))
  /\ finditer unicode_word [20294; 26159] (text (wrap scenario_text)) = []
  /\ default_split_by_markers (wrap scenario_text) = Ok [wrap scenario_text]
  /\ length [wrap scenario_text] = 1%nat.
Proof.
  apply (scenario_detected_not_split (wrap scenario_text)). reflexivity.
Defined.

(** The segment of the repository's own analyzer test is returned unsplit as
    well: none of its three markers is followed by a non-word character. *)
Example mock_test_segment_not_split :
  map fst (detect_markers SEMANTIC_MARKERS mock_test_text)
  = [[20294; 26159]; [22240; 27492]; [27604; 22914]]
  /\ default_split_by_markers (wrap mock_test_text) = Ok [wrap mock_test_text].
Proof. split; vm_compute; reflexivity. Qed.

(** C2.  Whenever [split_by_markers] finds a word-boundary occurrence of a
    marker, the call raises [TypeError] while building the markers of the
    final sub-segment: no final sub-segment and no list is returned.  This
    holds whatever the class [\w] is, for every lexicon whose keywords are
    all non-empty and start with a character that [strip] keeps, as the
    keywords of the class table do ([default_keywords_visible]). *)
Theorem split_with_occurrence_raises :
  forall (is_word : Z -> bool) (table : lexicon) (segment : Segment),
    visible_keywords unicode_space table = true ->
    find_split_points is_word (text segment)
      (detect_markers table (text segment)) <> [] ->
    split_by_markers is_word unicode_space table segment = Raise TypeError.
Proof.
  intros is_word table segment Hvisible Hsome.
  apply split_by_markers_raises; assumption.
Qed.

Lemma split_with_occurrence_raises_witness :
  split_by_markers unicode_word unicode_space SEMANTIC_MARKERS (wrap comma_text)
  = Raise TypeError.
Proof.
  apply (split_with_occurrence_raises unicode_word SEMANTIC_MARKERS
                                      (wrap comma_text)).
  - vm_compute. reflexivity.
  - vm_compute. discriminate.
Defined.

(** The occurrence found in that text, and the outcome computed directly. *)
Example comma_text_occurrence :
  find_split_points unicode_word comma_text
    (detect_markers SEMANTIC_MARKERS comma_text)
  = [(13%nat, [20294; 26159], CONTRAST)]
  /\ default_split_by_markers (wrap comma_text) = Raise TypeError.
Proof. split; vm_compute; reflexivity. Qed.

(** So does a sentence that opens with a marker and a comma. *)
Example summary_comma_raises :
  default_split_by_markers (wrap summary_comma_text) = Raise TypeError.
Proof. vm_compute. reflexivity. Qed.

(** With a lexicon whose keywords are all visible the call has two
    outcomes only, whatever the class [\w]. *)
Lemma split_outcomes (is_word : Z -> bool) (table : lexicon)
      (segment : Segment) :
  visible_keywords unicode_space table = true ->
  split_by_markers is_word unicode_space table segment
  = if has_occurrence is_word table segment
    then Raise TypeError else Ok [segment].
Proof.
  intros Hvisible. unfold has_occurrence.
  destruct (find_split_points is_word (text segment)
              (detect_markers table (text segment))) as [| pt tl] eqn:Hpts.
  - apply split_by_markers_unsplit. exact Hpts.
  - apply split_by_markers_raises; [exact Hvisible |].
    rewrite Hpts. discriminate.
Qed.

(** An empty keyword is the way to get sub-segments back: ["" in text] is
    true of every text, the pattern [\b\b] matches at each word boundary,
    and when the text ends with a word character the trailing text is
    empty, so the comprehension that raises is not evaluated.  The times
    are the floats that Python computes,
    [(2/6)*10 = 3.333333333333333] and [(5/6)*10 = 8.333333333333334]. *)
Example split_with_empty_keyword :
  map (fun s => (id s, text s, start_time s, end_time s))
      match split_by_markers unicode_word unicode_space
              (init_markers SEMANTIC_MARKERS empty_keyword)
              (wrap [97; 98; 32; 99; 100; 32]) with
      | Ok subs => subs
      | Raise _ => []
      end
  = [("seg_1_sub1"%string, [97; 98], 0%Q,
      3752999689475413 # 1125899906842624);
     ("seg_1_sub3"%string, [99; 100], 5%Q,
      4691249611844267 # 562949953421312)].
Proof. vm_compute. reflexivity. Qed.




(** The interpolated time of the end of the text is the parent's end when
    the float sum is exact, as from 0 s to 10 s; from 0.3 s to 0.9 s it is
    0.9000000000000001, above the end, and from 0.2 s to 0.9 s it is
    0.8999999999999999, below it. *)
Example reach_of_some_parents :
  Qeq (time_at (wrap [97; 98]) 2) 10%Q
  /\ (end_time tenths_segment < time_at tenths_segment 2)%Q
  /\ (interpolate (Float64.round (2 # 10)) (char_ratio 2 2)
                  (Float64.round (Float64.round (9 # 10)
                                  - Float64.round (2 # 10)))
      < Float64.round (9 # 10))%Q.
Proof. vm_compute. repeat split. Qed.

(** * Further properties *)

(** ** Merge pass: what is merged with what *)

Lemma merge_loop_groups (min_duration_ms : Z) (rest g : list range_ms) :
  g <> [] ->
  exists groups : list (list range_ms),
    concat groups = g ++ rest
    /\ Forall (fun grp => grp <> []) groups
    /\ merge_loop min_duration_ms (fst (hd (0, 0) g)) (snd (last g (0, 0))) rest
       = map group_span groups.
Proof.
  revert g. induction rest as [| [s e] tl IH]; intros g Hg.
  - exists [g]. simpl. rewrite !app_nil_r.
    repeat split. constructor; [exact Hg | constructor].
  - cbn [merge_loop].
    destruct (snd (last g (0, 0)) - fst (hd (0, 0) g) <? min_duration_ms).
    + destruct (IH (g ++ [(s, e)])) as [groups [Hcat [Hne Hrun]]].
      { destruct g; discriminate. }
      exists groups. split; [| split].
      * rewrite Hcat, <- app_assoc. reflexivity.
      * exact Hne.
      * rewrite <- Hrun. rewrite last_last.
        destruct g as [| x g']; [contradiction Hg; reflexivity | reflexivity].
    + destruct (IH [(s, e)]) as [groups [Hcat [Hne Hrun]]]; [discriminate |].
      exists (g :: groups). split; [| split].
      * cbn [concat]. rewrite Hcat. reflexivity.
      * constructor; assumption.
      * simpl in Hrun. cbn [map]. rewrite Hrun. reflexivity.
Qed.

Lemma concat_nonempty_length {A : Type} (groups : list (list A)) :
  Forall (fun grp => grp <> []) groups ->
  (length groups <= length (concat groups))%nat.
Proof.
  induction 1 as [| g groups Hg _ IH]; simpl; [lia |].
  rewrite length_app. destruct g; [contradiction Hg; reflexivity |]. simpl. lia.
Qed.

(** X1.  The merge pass cuts the input list into consecutive non-empty
    groups and emits, for each group, the range from the start of its first
    member to the end of its last: no input range is dropped or reordered,
    and the output is never longer than the input. *)
Theorem merge_short_segments_groups :
  forall (min_duration_ms : Z) (segs : list range_ms),
  exists groups : list (list range_ms),
    concat groups = segs
    /\ Forall (fun grp => grp <> []) groups
    /\ merge_short_segments min_duration_ms segs = map group_span groups
    /\ (length (merge_short_segments min_duration_ms segs) <= length segs)%nat.
Proof.
  intros m segs. destruct segs as [| [cs ce] tl].
  - exists []. repeat split; [constructor | simpl; lia].
  - destruct (merge_loop_groups m tl [(cs, ce)]) as [groups [Hcat [Hne Hrun]]];
      [discriminate |].
    exists groups. simpl in Hrun. cbn [merge_short_segments].
    split; [exact Hcat |]. split; [exact Hne |]. split; [exact Hrun |].
    rewrite Hrun, length_map.
    pose proof (concat_nonempty_length groups Hne) as Hlen.
    rewrite Hcat in Hlen. exact Hlen.
Qed.

Lemma merge_loop_identity (min_duration_ms cs ce : Z) (rest : list range_ms) :
  Forall (fun r => min_duration_ms <= range_duration r)
         (removelast ((cs, ce) :: rest)) ->
  merge_loop min_duration_ms cs ce rest = (cs, ce) :: rest.
Proof.
  revert cs ce. induction rest as [| [s e] tl IH]; intros cs ce Hall.
  - reflexivity.
  - change (removelast ((cs, ce) :: (s, e) :: tl))
      with ((cs, ce) :: removelast ((s, e) :: tl)) in Hall.
    inversion Hall as [| x xs Hx Hxs]; subst.
    unfold range_duration in Hx; simpl in Hx.
    cbn [merge_loop].
    destruct (ce - cs <? min_duration_ms) eqn:Hshort;
      [apply Z.ltb_lt in Hshort; lia |].
    f_equal. apply IH. exact Hxs.
Qed.

(** X2.  When every range but the last already lasts the minimum, the merge
    pass returns its input unchanged. *)
Theorem merge_short_segments_identity :
  forall (min_duration_ms : Z) (segs : list range_ms),
    Forall (fun r => min_duration_ms <= range_duration r) (removelast segs) ->
    merge_short_segments min_duration_ms segs = segs.
Proof.
  intros m segs Hall. destruct segs as [| [cs ce] tl]; [reflexivity |].
  cbn [merge_short_segments]. apply merge_loop_identity. exact Hall.
Qed.

Lemma merge_short_segments_identity_witness :
  merge_short_segments 500 [(0, 700); (900, 2000); (2100, 2200)]
  = [(0, 700); (900, 2000); (2100, 2200)].
Proof.
  apply (merge_short_segments_identity 500 [(0, 700); (900, 2000); (2100, 2200)]).
  simpl. repeat constructor; unfold range_duration; simpl; lia.
Defined.

(** ** Split pass: a zero maximum *)

Lemma split_range_zero_max (r : range_ms) :
  split_range 0 r
  = if 0 <? range_duration r then Raise ZeroDivisionError else Ok [r].
Proof.
  destruct r as [s e]. unfold split_range, range_duration. simpl fst; simpl snd.
  destruct (0 <? e - s); reflexivity.
Qed.

Lemma mapM_split_range_zero_max (segs : list range_ms) :
  mapM (split_range 0) segs
  = if existsb (fun r => 0 <? range_duration r) segs
    then Raise ZeroDivisionError
    else Ok (map (fun r => [r]) segs).
Proof.
  induction segs as [| r tl IH]; [reflexivity |].
  cbn [mapM existsb map]. rewrite split_range_zero_max, IH.
  destruct (0 <? range_duration r); [reflexivity |].
  cbn [bind orb].
  destruct (existsb (fun r0 => 0 <? range_duration r0) tl); reflexivity.
Qed.

Lemma concat_singletons {A : Type} (l : list A) :
  concat (map (fun x => [x]) l) = l.
Proof.
  induction l as [| x tl IH]; [reflexivity |]. simpl. rewrite IH. reflexivity.
Qed.

(** X3.  With a maximum duration of zero the split pass raises
    [ZeroDivisionError] as soon as one range has a positive duration, and
    returns the input unchanged otherwise. *)
Theorem split_long_segments_zero_max :
  forall segs : list range_ms,
    split_long_segments 0 segs
    = if existsb (fun r => 0 <? range_duration r) segs
      then Raise ZeroDivisionError
      else Ok segs.
Proof.
  intros segs. unfold split_long_segments.
  rewrite mapM_split_range_zero_max.
  destruct (existsb (fun r => 0 <? range_duration r) segs); [reflexivity |].
  cbn [bind]. rewrite concat_singletons. reflexivity.
Qed.

(** ** Marker detection *)

Lemma starts_with_app (p s : pystr) :
  starts_with p s = true <-> exists post, s = p ++ post.
Proof.
  revert s. induction p as [| c p' IH]; intros s.
  - simpl. split; [intros _; exists s; reflexivity | reflexivity].
  - destruct s as [| d s']; simpl.
    + split; [discriminate | intros [post H]; discriminate H].
    + rewrite andb_true_iff, Z.eqb_eq, IH. split.
      * intros [-> [post ->]]. exists post. reflexivity.
      * intros [post H]. injection H as -> ->. split; [reflexivity | eauto].
Qed.

Lemma contains_occurs (sub s : pystr) :
  contains sub s = true <-> occurs_in sub s.
Proof.
  unfold occurs_in. induction s as [| c tl IH].
  - simpl. rewrite orb_false_r, starts_with_app. split.
    + intros [post H]. exists [], post. exact H.
    + intros [pre [post H]].
      destruct pre as [| x pre']; [| discriminate H].
      exists post. exact H.
  - cbn [contains]. rewrite orb_true_iff, starts_with_app, IH. split.
    + intros [[post H] | [pre [post H]]].
      * exists [], post. exact H.
      * exists (c :: pre), post. simpl. rewrite H. reflexivity.
    + intros [pre [post H]]. destruct pre as [| x pre'].
      * left. exists post. exact H.
      * right. injection H as _ H. exists pre', post. exact H.
Qed.

Lemma detect_markers_iff :
  forall (table : lexicon) (text_ : pystr) (m : pystr) (t : RelationType),
    In (m, t) (detect_markers table text_)
    <-> exists keywords, In (t, keywords) table /\ In m keywords
                         /\ occurs_in m text_.
Proof.
  intros table text_ m t. split.
  - intros Hin. apply detect_markers_In in Hin.
    destruct Hin as [keywords [H1 [H2 H3]]].
    exists keywords. rewrite <- contains_occurs. auto.
  - intros [keywords [Hentry [Hkw Hocc]]].
    apply contains_occurs in Hocc.
    unfold detect_markers. apply in_flat_map.
    exists (t, keywords). split; [exact Hentry |].
    apply in_flat_map. exists m. split; [exact Hkw |].
    rewrite Hocc. left. reflexivity.
Qed.

(** X4.  [detect_markers] returns exactly the pairs (keyword, type) of the
    table whose keyword occurs somewhere in the text. *)
Theorem detect_markers_spec :
  forall (table : lexicon) (text_ : pystr) (m : pystr) (t : RelationType),
    In (m, t) (detect_markers table text_)
    <-> exists keywords, In (t, keywords) table /\ In m keywords
                         /\ occurs_in m text_.
Proof. exact detect_markers_iff. Qed.

Lemma detect_markers_none (table : lexicon) (text_ : pystr) :
  (forall t keywords m,
      In (t, keywords) table -> In m keywords -> ~ occurs_in m text_) ->
  detect_markers table text_ = [].
Proof.
  intros Hnone.
  destruct (detect_markers table text_) as [| [m t] tl] eqn:Hdet; [reflexivity |].
  assert (Hin : In (m, t) (detect_markers table text_))
    by (rewrite Hdet; left; reflexivity).
  apply detect_markers_iff in Hin. destruct Hin as [keywords [H1 [H2 H3]]].
  exfalso. exact (Hnone t keywords m H1 H2 H3).
Qed.

(** X5.  Whatever the lexicon and the character classes, a segment whose
    text contains no keyword of the lexicon comes back from
    [split_by_markers] alone and unchanged. *)
Theorem split_by_markers_no_marker :
  forall (is_word is_space : Z -> bool) (table : lexicon) (segment : Segment),
    (forall t keywords m,
        In (t, keywords) table -> In m keywords -> ~ occurs_in m (text segment)) ->
    split_by_markers is_word is_space table segment = Ok [segment].
Proof.
  intros is_word is_space table segment Hnone.
  apply split_by_markers_unsplit.
  rewrite (detect_markers_none table (text segment) Hnone). reflexivity.
Qed.

Lemma default_keyword_cases (P : pystr -> Prop) :
  (forall m, existsb (pystr_eqb m) (concat (map snd SEMANTIC_MARKERS)) = true -> P m) ->
  forall t keywords m, In (t, keywords) SEMANTIC_MARKERS -> In m keywords -> P m.
Proof.
  intros H t keywords m Hentry Hkw. apply H.
  apply existsb_exists. exists m. split; [| apply pystr_eqb_eq; reflexivity].
  apply in_concat. exists keywords. split; [| exact Hkw].
  apply in_map_iff. exists (t, keywords). auto.
Qed.

Lemma split_by_markers_no_marker_witness :
  split_by_markers unicode_word unicode_space SEMANTIC_MARKERS (wrap mock_transcript)
  = Ok [wrap mock_transcript].
Proof.
  apply (split_by_markers_no_marker unicode_word unicode_space SEMANTIC_MARKERS
           (wrap mock_transcript)).
  apply default_keyword_cases. intros m Hm Hocc.
  apply contains_occurs in Hocc.
  apply existsb_exists in Hm. destruct Hm as [kw [Hkw Heq]].
  apply pystr_eqb_eq in Heq. subst kw.
  simpl in Hkw.
  repeat (destruct Hkw as [<- | Hkw]; [vm_compute in Hocc; discriminate Hocc |]).
  contradiction.
Defined.

(** ** Relation analysis *)

Lemma relations_from_same_id (a b s : Segment) (found : list (pystr * RelationType)) :
  id a = id b -> relations_from a s found = relations_from b s found.
Proof. intros H. unfold relations_from. rewrite H. reflexivity. Qed.

Lemma analyze_relations_from_nth (table : lexicon) (l : list Segment) :
  forall (prev : option Segment) (i : nat) (s : Segment),
    nth_error l i = Some s ->
    exists s' : Segment,
      nth_error (analyze_relations_from table prev l) i = Some s'
      /\ same_but_markers_relations s' s
      /\ markers s' = map fst (detect_markers table (text s))
      /\ relations s'
         = relations s
           ++ match match i with
                    | O => prev
                    | S j => nth_error l j
                    end with
              | Some p => relations_from p s (detect_markers table (text s))
              | None => []
              end.
Proof.
  induction l as [| x tl IH]; intros prev i s Hnth.
  - destruct i; discriminate Hnth.
  - destruct i as [| j].
    + injection Hnth as ->. cbn [analyze_relations_from nth_error].
      eexists. split; [reflexivity |].
      split; [repeat split |]. split; [reflexivity |].
      cbn [relations]. destruct prev; reflexivity.
    + cbn [analyze_relations_from nth_error] in Hnth |- *.
      match goal with
      | |- context [analyze_relations_from table (Some ?x') tl] =>
          destruct (IH (Some x') j s Hnth) as [s' [H1 [H2 [H3 H4]]]];
          assert (Hid : id x' = id x) by reflexivity
      end.
      exists s'. split; [exact H1 |]. split; [exact H2 |]. split; [exact H3 |].
      rewrite H4. destruct j as [| k]; [| reflexivity].
      cbn [nth_error]. rewrite (relations_from_same_id _ x s _ Hid). reflexivity.
Qed.

Lemma analyze_relations_from_length (table : lexicon) (l : list Segment) :
  forall prev, length (analyze_relations_from table prev l) = length l.
Proof.
  induction l as [| x tl IH]; intros prev; [reflexivity |].
  cbn [analyze_relations_from length]. rewrite IH. reflexivity.
Qed.

(** X6.  Relation analysis keeps the list's length and, position by
    position, every field of a segment but its markers and relations.  The
    markers become the keywords detected in the segment's text.  The first
    segment gets no new relation; any other gets, after the relations it
    had, one relation per detected marker, each from the segment
    immediately before it to itself, with confidence 0.8. *)
Theorem analyze_relations_nth :
  forall (table : lexicon) (l : list Segment) (i : nat) (s : Segment),
    nth_error l i = Some s ->
    length (analyze_relations table l) = length l
    /\ exists s' : Segment,
        nth_error (analyze_relations table l) i = Some s'
        /\ same_but_markers_relations s' s
        /\ markers s' = map fst (detect_markers table (text s))
        /\ relations s'
           = relations s
             ++ match i with
                | O => []
                | S j =>
                    match nth_error l j with
                    | Some prev =>
                        relations_from prev s (detect_markers table (text s))
                    | None => []
                    end
                end.
Proof.
  intros table l i s Hnth. unfold analyze_relations.
  split; [apply analyze_relations_from_length |].
  destruct (analyze_relations_from_nth table l None i s Hnth)
    as [s' [H1 [H2 [H3 H4]]]].
  exists s'. split; [exact H1 |]. split; [exact H2 |]. split; [exact H3 |].
  rewrite H4. destruct i; reflexivity.
Qed.

Lemma analyze_relations_nth_witness :
  exists s' : Segment,
    nth_error (analyze_relations SEMANTIC_MARKERS
                 [wrap mock_transcript; wrap scenario_text]) 1
    = Some s'
    /\ markers s' = [[20294; 26159]]
    /\ map (fun r => (source_id r, target_id r, relation_type r, marker_words r))
           (relations s')
       = [("seg_1"%string, "seg_1"%string, CONTRAST, [[20294; 26159]])].
Proof.
  destruct (analyze_relations_nth SEMANTIC_MARKERS
              [wrap mock_transcript; wrap scenario_text] 1
              (wrap scenario_text) eq_refl)
    as [_ [s' [H1 [_ [H3 H4]]]]].
  exists s'. split; [exact H1 |]. split.
  - rewrite H3. vm_compute. reflexivity.
  - rewrite H4. vm_compute. reflexivity.
Defined.

(** ** Importance scoring: bounds *)

Lemma marker_bonus_nonneg (table : lexicon) (m : pystr) :
  (0 <= marker_bonus table m)%Q.
Proof.
  unfold marker_bonus. destruct (first_type table m) as [[] |]; discriminate.
Qed.

Lemma sum_bonus_nonneg (table : lexicon) (ms : list pystr) :
  (0 <= sum_Q (map (marker_bonus table) ms))%Q.
Proof.
  induction ms as [| m tl IH]; simpl; [discriminate |].
  pose proof (marker_bonus_nonneg table m). lra.
Qed.

Lemma importance_between (table : lexicon) (segment : Segment)
      (all_segments : list Segment) :
  (1 # 2 <= calculate_importance table segment all_segments)%Q
  /\ (calculate_importance table segment all_segments <= 1)%Q.
Proof.
  revert table segment all_segments.
  intros table segment all_segments. unfold calculate_importance.
  rewrite !py_min_Qmin.
  split; [| apply Q.le_min_r].
  apply Q.min_glb; [| discriminate].
  pose proof (fold_marker_bonus table (markers segment) (1 # 2)) as Hfold.
  pose proof (sum_bonus_nonneg table (markers segment)) as Hsum.
  assert (Href : (0 <= Qmin (inject_Z (reference_count segment all_segments)
                             * (1 # 10)) (3 # 10))%Q).
  { apply Q.min_glb; [| discriminate].
    apply Qmult_le_0_compat; [| discriminate].
    change 0%Q with (inject_Z 0). rewrite <- Zle_Qle.
    unfold reference_count. lia. }
  destruct (100 <? length (text segment))%nat; lra.
Qed.

(** X7.  The importance score of a segment always lies between 0.5 and
    1.0, whatever the lexicon, the segment's markers and the relations of
    the list. *)
Theorem calculate_importance_bounds :
  forall (table : lexicon) (segment : Segment) (all_segments : list Segment),
    (1 # 2 <= calculate_importance table segment all_segments)%Q
    /\ (calculate_importance table segment all_segments <= 1)%Q.
Proof. exact importance_between. Qed.

(** ** The whole analysis with the default analyzer *)

Lemma default_split_case (segment : Segment) :
  default_split_by_markers segment
  = if has_boundary_occurrence segment then Raise TypeError else Ok [segment].
Proof.
  unfold has_boundary_occurrence.
  destruct (default_split_outcomes segment) as [[Hnone Hsame] | [Hsome Hraise]].
  - rewrite Hnone. exact Hsame.
  - rewrite (nonempty_true _ Hsome). exact Hraise.
Qed.

Lemma mapM_default_split (l : list Segment) :
  mapM default_split_by_markers l
  = if existsb has_boundary_occurrence l
    then Raise TypeError
    else Ok (map (fun s => [s]) l).
Proof.
  induction l as [| s tl IH]; [reflexivity |].
  cbn [mapM existsb map]. rewrite default_split_case, IH.
  destruct (has_boundary_occurrence s); [reflexivity |].
  cbn [bind orb]. destruct (existsb has_boundary_occurrence tl); reflexivity.
Qed.

Lemma analyze_relations_from_fields (table : lexicon) (l : list Segment) :
  forall prev,
    map id (analyze_relations_from table prev l) = map id l
    /\ map text (analyze_relations_from table prev l) = map text l
    /\ map markers (analyze_relations_from table prev l)
       = map (fun s => map fst (detect_markers table (text s))) l.
Proof.
  induction l as [| x tl IH]; intros prev; [repeat split |].
  cbn [analyze_relations_from map].
  match goal with
  | |- context [analyze_relations_from table ?p tl] =>
      destruct (IH p) as [H1 [H2 H3]]
  end.
  rewrite H1, H2, H3. repeat split.
Qed.

Lemma mapM_split (is_word : Z -> bool) (table : lexicon) (l : list Segment) :
  visible_keywords unicode_space table = true ->
  mapM (split_by_markers is_word unicode_space table) l
  = if existsb (has_occurrence is_word table) l
    then Raise TypeError
    else Ok (map (fun s => [s]) l).
Proof.
  intros Hvisible. induction l as [| s tl IH]; [reflexivity |].
  cbn [mapM existsb map]. rewrite (split_outcomes is_word table s Hvisible), IH.
  destruct (has_occurrence is_word table s); [reflexivity |].
  cbn [bind orb]. destruct (existsb (has_occurrence is_word table) tl);
    reflexivity.
Qed.

(** X8.  An analyzer whose lexicon has visible keywords only, as the class
    table has, never re-splits anything in [process], whatever the class
    [\w] is.  If some segment's text has a word-boundary occurrence of a
    marker the call raises [TypeError]; otherwise it returns as many
    segments as it was given, with the same ids and texts in the same
    order, each carrying the markers detected in its text and a score
    between 0.5 and 1.0. *)
Theorem analyzer_process_default :
  forall (is_word : Z -> bool) (table : lexicon) (l : list Segment),
    visible_keywords unicode_space table = true ->
    (existsb (has_occurrence is_word table) l = true ->
     analyzer_process is_word unicode_space table l = Raise TypeError)
    /\ (existsb (has_occurrence is_word table) l = false ->
        exists refined : list Segment,
          analyzer_process is_word unicode_space table l = Ok refined
          /\ map id refined = map id l
          /\ map text refined = map text l
          /\ map markers refined
             = map (fun s => map fst (detect_markers table (text s))) l
          /\ Forall (fun s => (1 # 2 <= importance_score s)%Q
                              /\ (importance_score s <= 1)%Q)
                    refined).
Proof.
  intros is_word table l Hvisible. unfold analyzer_process, refine_segments.
  rewrite (mapM_split is_word table l Hvisible).
  split; intros Hocc; rewrite Hocc; [reflexivity |].
  cbn [bind]. rewrite concat_singletons.
  eexists. split; [reflexivity |].
  destruct (analyze_relations_from_fields table l None) as [H1 [H2 H3]].
  unfold analyze_relations.
  rewrite !map_map. cbn [id text markers].
  split; [exact H1 |]. split; [exact H2 |]. split; [exact H3 |].
  apply Forall_map. apply Forall_forall. intros s _. cbn [importance_score].
  apply importance_between.
Qed.

Lemma analyzer_process_default_witness :
  analyzer_process unicode_word unicode_space SEMANTIC_MARKERS
    [wrap scenario_text; wrap comma_text]
  = Raise TypeError
  /\ exists refined : list Segment,
      analyzer_process unicode_word unicode_space SEMANTIC_MARKERS
        [wrap mock_transcript; wrap scenario_text]
      = Ok refined
      /\ map id refined = ["seg_1"; "seg_1"]%string
      /\ map markers refined = [[]; [[20294; 26159]]].
Proof.
  assert (Hvisible : visible_keywords unicode_space SEMANTIC_MARKERS = true)
    by (vm_compute; reflexivity).
  split.
  - apply (proj1 (analyzer_process_default
                    unicode_word SEMANTIC_MARKERS
                    [wrap scenario_text; wrap comma_text] Hvisible)).
    vm_compute. reflexivity.
  - destruct (proj2 (analyzer_process_default
                       unicode_word SEMANTIC_MARKERS
                       [wrap mock_transcript; wrap scenario_text] Hvisible))
      as [refined [H1 [H2 [_ [H4 _]]]]].
    + vm_compute. reflexivity.
    + exists refined. split; [exact H1 |]. split; [exact H2 |].
      rewrite H4. vm_compute. reflexivity.
Defined.

(** ** Custom markers *)

Lemma RelationType_eqb_refl (t : RelationType) : RelationType_eqb t t = true.
Proof. destruct t; reflexivity. Qed.

Lemma RelationType_eqb_sym (a b : RelationType) :
  RelationType_eqb a b = RelationType_eqb b a.
Proof. destruct a, b; reflexivity. Qed.

Lemma extend_keywords_types (table : lexicon) (t : RelationType)
      (extra : list pystr) :
  map fst (extend_keywords table t extra) = map fst table.
Proof.
  induction table as [| [t' keywords] tl IH]; [reflexivity |].
  cbn [extend_keywords]. destruct (RelationType_eqb t' t); simpl;
    [reflexivity | rewrite IH; reflexivity].
Qed.

Lemma fold_extend_types (custom table : lexicon) :
  map fst (fold_left (fun tb entry => extend_keywords tb (fst entry) (snd entry))
                     custom table)
  = map fst table.
Proof.
  revert table. induction custom as [| e tl IH]; intros table; [reflexivity |].
  cbn [fold_left]. rewrite IH. apply extend_keywords_types.
Qed.

Lemma default_types_NoDup : NoDup (map fst SEMANTIC_MARKERS).
Proof.
  simpl. repeat constructor; simpl; intuition discriminate.
Qed.

Lemma custom_keywords_cons (entry : RelationType * list pystr)
      (custom : lexicon) (t : RelationType) :
  custom_keywords (entry :: custom) t
  = (if RelationType_eqb (fst entry) t then snd entry else [])
    ++ custom_keywords custom t.
Proof.
  unfold custom_keywords. cbn [filter].
  destruct (RelationType_eqb (fst entry) t); reflexivity.
Qed.

(** Extending a table without [t] among its keys changes nothing. *)
Lemma extend_keywords_absent (table : lexicon) (t : RelationType)
      (extra : list pystr) :
  ~ In t (map fst table) -> extend_keywords table t extra = table.
Proof.
  induction table as [| [t' keywords] tl IH]; intros Hnotin; [reflexivity |].
  cbn [extend_keywords]. cbn [map fst In] in Hnotin.
  destruct (RelationType_eqb t' t) eqn:Heq.
  - apply RelationType_eqb_eq in Heq. exfalso. apply Hnotin. left. exact Heq.
  - rewrite IH; [reflexivity |]. intros Hin. apply Hnotin. right. exact Hin.
Qed.

Lemma map_unchanged (table : lexicon) (t : RelationType) (extra : list pystr) :
  ~ In t (map fst table) ->
  map (fun entry : RelationType * list pystr =>
         (fst entry,
          snd entry ++ (if RelationType_eqb (fst entry) t then extra else [])))
      table
  = table.
Proof.
  induction table as [| [t' keywords] tl IH]; intros Hnotin; [reflexivity |].
  cbn [map fst snd]. cbn [map fst In] in Hnotin.
  destruct (RelationType_eqb t' t) eqn:Heq.
  - apply RelationType_eqb_eq in Heq. exfalso. apply Hnotin. left. exact Heq.
  - rewrite app_nil_r, IH; [reflexivity |].
    intros Hin. apply Hnotin. right. exact Hin.
Qed.

(** On a table with pairwise distinct keys, as a dict has, one round of the
    loop of [__init__] appends to the list of its relation type. *)
Lemma extend_keywords_map (table : lexicon) (t : RelationType)
      (extra : list pystr) :
  NoDup (map fst table) ->
  extend_keywords table t extra
  = map (fun entry : RelationType * list pystr =>
           (fst entry,
            snd entry ++ (if RelationType_eqb (fst entry) t then extra else [])))
        table.
Proof.
  induction table as [| [t' keywords] tl IH]; intros Hnd; [reflexivity |].
  cbn [map fst] in Hnd. inversion Hnd as [| x xs Hnotin Hnd']; subst.
  cbn [extend_keywords map fst snd].
  destruct (RelationType_eqb t' t) eqn:Heq.
  - apply RelationType_eqb_eq in Heq. subst t'.
    rewrite (map_unchanged tl t extra Hnotin). reflexivity.
  - rewrite app_nil_r, (IH Hnd'). reflexivity.
Qed.

Lemma init_markers_closed_form (custom_markers : lexicon) :
  forall class_table : lexicon,
    NoDup (map fst class_table) ->
    init_markers class_table custom_markers
    = map (fun entry : RelationType * list pystr =>
             (fst entry,
              snd entry ++ custom_keywords custom_markers (fst entry)))
          class_table.
Proof.
  unfold init_markers.
  induction custom_markers as [| e tl IH]; intros class_table Hnd.
  - cbn [fold_left]. unfold custom_keywords. cbn [filter map concat].
    induction class_table as [| [t k] rest IHt]; [reflexivity |].
    cbn [map fst snd]. rewrite app_nil_r.
    cbn [map fst] in Hnd. inversion Hnd as [| x xs _ Hnd']; subst.
    rewrite <- (IHt Hnd'). reflexivity.
  - cbn [fold_left]. rewrite IH.
    + rewrite (extend_keywords_map class_table (fst e) (snd e) Hnd), map_map.
      apply map_ext. intros [t k]. cbn [fst snd].
      rewrite custom_keywords_cons, (RelationType_eqb_sym t (fst e)),
        <- app_assoc.
      reflexivity.
    + rewrite extend_keywords_types. exact Hnd.
Qed.

(** X9.  [__init__] reads and extends the class table as it stands.  On a
    table with pairwise distinct relation types, as a dict has, the table
    it leaves, which is the lexicon of the analyzer, keeps the relation
    types in their order and lists under each type the keywords that were
    there followed by all the custom keywords given for that type; entries
    for types the table lacks are ignored.  Building a second analyzer goes
    on from the table the first has left: the two custom tables add up, and
    a custom table given twice adds its keywords twice. *)
Theorem init_markers_spec :
  forall class_table custom_markers later_markers : lexicon,
    NoDup (map fst class_table) ->
    map fst (init_markers class_table custom_markers) = map fst class_table
    /\ init_markers class_table custom_markers
       = map (fun entry : RelationType * list pystr =>
                (fst entry,
                 snd entry ++ custom_keywords custom_markers (fst entry)))
             class_table
    /\ init_markers (init_markers class_table custom_markers) later_markers
       = map (fun entry : RelationType * list pystr =>
                (fst entry,
                 snd entry ++ custom_keywords custom_markers (fst entry)
                           ++ custom_keywords later_markers (fst entry)))
             class_table.
Proof.
  intros class_table custom later Hnd.
  split; [apply fold_extend_types |].
  split; [apply init_markers_closed_form; exact Hnd |].
  rewrite (init_markers_closed_form later
             (init_markers class_table custom)).
  - rewrite (init_markers_closed_form custom class_table Hnd), map_map.
    apply map_ext. intros [t k]. cbn [fst snd]. rewrite <- app_assoc.
    reflexivity.
  - unfold init_markers. rewrite fold_extend_types. exact Hnd.
Qed.

Lemma init_markers_spec_witness :
  map fst (init_markers SEMANTIC_MARKERS [(SUMMARY, [[25442; 21477]])])
  = map fst SEMANTIC_MARKERS
  /\ init_markers SEMANTIC_MARKERS [(SUMMARY, [[25442; 21477]])]
     = map (fun entry : RelationType * list pystr =>
              (fst entry,
               snd entry
               ++ custom_keywords [(SUMMARY, [[25442; 21477]])] (fst entry)))
           SEMANTIC_MARKERS
  /\ init_markers (init_markers SEMANTIC_MARKERS [(SUMMARY, [[25442; 21477]])])
                  [(SUMMARY, [[25442; 21477]])]
     = map (fun entry : RelationType * list pystr =>
              (fst entry,
               snd entry
               ++ custom_keywords [(SUMMARY, [[25442; 21477]])] (fst entry)
               ++ custom_keywords [(SUMMARY, [[25442; 21477]])] (fst entry)))
           SEMANTIC_MARKERS.
Proof.
  apply (init_markers_spec SEMANTIC_MARKERS [(SUMMARY, [[25442; 21477]])]
                           [(SUMMARY, [[25442; 21477]])]).
  simpl. repeat constructor; simpl; intuition discriminate.
Defined.

(** The SUMMARY keywords after two analyzers were built with the custom
    keyword "换句": it is listed twice, and detected twice. *)
Example custom_keyword_listed_twice :
  let twice :=
    init_markers (init_markers SEMANTIC_MARKERS [(SUMMARY, [[25442; 21477]])])
                 [(SUMMARY, [[25442; 21477]])] in
  map (fun entry : RelationType * list pystr => length (snd entry)) twice
  = [8; 8; 8; 6; 8; 6]%nat
  /\ detect_markers twice [25442; 21477; 35805; 35828]
     = [([25442; 21477], SUMMARY); ([25442; 21477], SUMMARY)].
Proof. vm_compute. split; reflexivity. Qed.

(** X10.  An analyzer built with custom markers on a class table with
    pairwise distinct relation types detects a pair (keyword, type) exactly
    when the keyword occurs in the text and is either a keyword the table
    had for that type or a custom keyword given for that type, the type
    being one of the table: custom markers never turn a marker off. *)
Theorem detect_markers_custom :
  forall (class_table custom_markers : lexicon) (text_ : pystr) (m : pystr)
         (t : RelationType),
    NoDup (map fst class_table) ->
    (In (m, t) (detect_markers (init_markers class_table custom_markers) text_)
     <-> occurs_in m text_
         /\ exists keywords,
             In (t, keywords) class_table
             /\ (In m keywords \/ In m (custom_keywords custom_markers t))).
Proof.
  intros class_table custom text_ m t Hnd.
  rewrite detect_markers_iff.
  rewrite (init_markers_closed_form custom class_table Hnd).
  split.
  - intros [keywords [Hentry [Hkw Hocc]]]. split; [exact Hocc |].
    apply in_map_iff in Hentry. destruct Hentry as [[t0 k0] [Heq Hin]].
    cbn [fst snd] in Heq. injection Heq as -> <-.
    exists k0. split; [exact Hin |]. apply in_app_or. exact Hkw.
  - intros [Hocc [keywords [Hentry Hkw]]].
    exists (keywords ++ custom_keywords custom t).
    split; [| split; [apply in_or_app; exact Hkw | exact Hocc]].
    apply in_map_iff. exists (t, keywords). split; [reflexivity | exact Hentry].
Qed.

Lemma detect_markers_custom_witness :
  In ([25442; 21477], SUMMARY)
     (detect_markers
        (init_markers SEMANTIC_MARKERS [(SUMMARY, [[25442; 21477]])])
        [25442; 21477; 35805; 35828]).
Proof.
  apply (proj2 (detect_markers_custom
                  SEMANTIC_MARKERS [(SUMMARY, [[25442; 21477]])]
                  [25442; 21477; 35805; 35828] [25442; 21477] SUMMARY
                  ltac:(simpl; repeat constructor; simpl;
                        intuition discriminate))).
  split.
  - exists [], [35805; 35828]. reflexivity.
  - exists [[24635; 20043]; [32508; 19978; 25152; 36848];
            [24635; 30340; 26469; 35828]; [27010; 25324; 26469; 35828];
            [24402; 32435; 36215; 26469]; [31616; 32780; 35328; 20043]].
    split.
    + simpl. tauto.
    + right. simpl. tauto.
Defined.

(** An analyzer with "换句话说" added under SUMMARY and an entry for PARALLEL. *)
Example custom_markers_detected :
  detect_markers
    (init_markers SEMANTIC_MARKERS
                  [(SUMMARY, [[25442; 21477; 35805; 35828]]);
                   (PARALLEL, [[19968; 26041; 38754]])])
    [25442; 21477; 35805; 35828; 65292; 24635; 20043; 19968; 26041; 38754]
  = [([24635; 20043], SUMMARY); ([25442; 21477; 35805; 35828], SUMMARY)].
Proof. vm_compute. reflexivity. Qed.

(** ** Sub-segments of the walk *)

Lemma walk_points_fresh (is_space : Z -> bool) (segment : Segment)
      (pts : list split_point) :
  forall i last_pos,
    Forall (fresh_sub_segment segment)
           (fst (walk_points is_space segment i last_pos pts)).
Proof.
  induction pts as [| [[pos m] t] tl IH]; intros i last_pos.
  - constructor.
  - cbn [walk_points]. specialize (IH (S i) pos).
    destruct (walk_points is_space segment (S i) pos tl) as [rest final_pos].
    cbn [fst] in *.
    destruct (strip is_space (slice (text segment) last_pos pos)) as [| c sub] eqn:Hsub;
      cbn [nonempty app]; [exact IH |].
    constructor; [| exact IH].
    unfold fresh_sub_segment, inner_sub_segment, new_Segment. cbn.
    repeat split. discriminate.
Qed.

(** X11.  Whatever the lexicon, a list returned by [split_by_markers] is
    either the segment itself or consists of sub-segments built by the walk:
    each has a non-empty text, the parent's audio path and transcription
    confidence, no markers, topics or relations, the default score 0.5 and
    a cleared core flag. *)
Theorem split_by_markers_fresh :
  forall (is_word is_space : Z -> bool) (table : lexicon) (segment : Segment)
         (subs : list Segment),
    split_by_markers is_word is_space table segment = Ok subs ->
    subs = [segment] \/ Forall (fresh_sub_segment segment) subs.
Proof.
  intros is_word is_space table segment subs.
  unfold split_by_markers.
  destruct (nonempty (detect_markers table (text segment)));
    cbn [negb]; [| intros H; injection H as <-; left; reflexivity].
  set (pts := find_split_points is_word (text segment)
                (detect_markers table (text segment))).
  destruct (nonempty pts) eqn:Hpts;
    cbn [negb]; [| intros H; injection H as <-; left; reflexivity].
  assert (Hne : sort_points pts <> []).
  { apply sort_points_nonempty. destruct pts; [discriminate | congruence]. }
  pose proof (walk_points_fresh is_space segment (sort_points pts) 0 0) as Hfresh.
  destruct (walk_points is_space segment 0 0 (sort_points pts))
    as [sub_segments last_pos].
  cbn [fst] in Hfresh.
  destruct (nonempty (strip is_space (skipn last_pos (text segment)))).
  - rewrite (trailing_markers_raises (sort_points pts) last_pos Hne).
    cbn [bind]. discriminate.
  - cbn [bind]. destruct sub_segments as [| x tl]; cbn [nonempty];
      intros H; injection H as <-; [left; reflexivity | right; exact Hfresh].
Qed.

Lemma split_by_markers_fresh_witness :
  exists subs : list Segment,
    split_by_markers unicode_word unicode_space
      (init_markers SEMANTIC_MARKERS [(CONTRAST, [[]])])
      (wrap [97; 98; 32; 99; 100; 32])
    = Ok subs
    /\ map id subs = ["seg_1_sub1"; "seg_1_sub3"]%string
    /\ (subs = [wrap [97; 98; 32; 99; 100; 32]]
        \/ Forall (fresh_sub_segment (wrap [97; 98; 32; 99; 100; 32])) subs).
Proof.
  eexists. split; [vm_compute; reflexivity |]. split; [reflexivity |].
  apply (split_by_markers_fresh unicode_word unicode_space
           (init_markers SEMANTIC_MARKERS [(CONTRAST, [[]])])
           (wrap [97; 98; 32; 99; 100; 32])).
  vm_compute. reflexivity.
Defined.

(** ** Core-argument marking: composition *)

Lemma py_max_idempotent (x c : Q) : py_max (py_max x c) c = py_max x c.
Proof.
  unfold py_max. destruct (Qle_bool c x) eqn:H1.
  - rewrite H1. reflexivity.
  - assert (H2 : Qle_bool c c = true) by (apply Qle_bool_iff; apply Qle_refl).
    rewrite H2. reflexivity.
Qed.

Lemma id_in_app (x : string) (a b : list string) :
  id_in x (a ++ b) = id_in x a || id_in x b.
Proof. unfold id_in. apply existsb_app. Qed.

Lemma mark_segment_compose (a b : list string) (s : Segment) :
  mark_segment b (mark_segment a s) = mark_segment (a ++ b) s.
Proof.
  unfold mark_segment at 2 3. rewrite id_in_app.
  destruct (id_in (id s) a) eqn:Ha; cbn [orb].
  - unfold mark_segment. cbn [id importance_score].
    destruct (id_in (id s) b); [| reflexivity].
    rewrite py_max_idempotent. reflexivity.
  - unfold mark_segment. destruct (id_in (id s) b); reflexivity.
Qed.

Lemma mark_segment_twice (a : list string) (s : Segment) :
  mark_segment a (mark_segment a s) = mark_segment a s.
Proof.
  rewrite mark_segment_compose. unfold mark_segment. rewrite id_in_app.
  destruct (id_in (id s) a); reflexivity.
Qed.

(** X12.  Marking with one id list and then with another is marking once
    with their concatenation, and marking twice with the same list changes
    nothing more: scores already raised to 0.9 stay where they are. *)
Theorem mark_core_arguments_compose :
  forall (l : list Segment) (a b : list string),
    mark_core_arguments (mark_core_arguments l a) b
    = mark_core_arguments l (a ++ b)
    /\ mark_core_arguments (mark_core_arguments l a) a
       = mark_core_arguments l a.
Proof.
  intros l a b. unfold mark_core_arguments. rewrite !map_map. split.
  - apply map_ext. intros s. apply mark_segment_compose.
  - apply map_ext. intros s. apply mark_segment_twice.
Qed.

(** X13.  After marking, the core arguments of a document are exactly the
    marked versions of the segments that are named in the id list or were
    flagged before. *)
Theorem core_arguments_after_marking :
  forall (d : Document) (l : list Segment) (core_ids : list string)
         (s' : Segment),
    segments d = mark_core_arguments l core_ids ->
    (In s' (get_core_arguments d)
     <-> exists s, In s l /\ s' = mark_segment core_ids s
                   /\ (In (id s) core_ids \/ is_core_argument s = true)).
Proof.
  intros d l core_ids s' Hsegs.
  unfold get_core_arguments. rewrite Hsegs. unfold mark_core_arguments.
  rewrite filter_In, in_map_iff. split.
  - intros [[s [Heq Hin]] Hflag]. exists s. split; [exact Hin |].
    split; [symmetry; exact Heq |].
    subst s'. unfold mark_segment in Hflag.
    destruct (id_in (id s) core_ids) eqn:Hid.
    + left. apply id_in_In. exact Hid.
    + right. exact Hflag.
  - intros [s [Hin [-> Hwhy]]]. split; [exists s; auto |].
    unfold mark_segment.
    destruct (id_in (id s) core_ids) eqn:Hid; [reflexivity |].
    destruct Hwhy as [Hlisted | Hflag]; [| exact Hflag].
    apply id_in_In in Hlisted. congruence.
Qed.

Lemma core_arguments_after_marking_witness :
  In (mark_segment ["seg_2"%string] (sample_segment "seg_2" (1 # 2)))
     (get_core_arguments
        {| source_file := ""; 
           segments :=
             mark_core_arguments
               [sample_segment "seg_1" (1 # 2); sample_segment "seg_2" (1 # 2)]
               ["seg_2"%string];
           logic_chains := []; topic_tree := JDict []; metadata := [];
           created_at := 0 |}).
Proof.
  apply (core_arguments_after_marking
           {| source_file := ""; 
              segments :=
                mark_core_arguments
                  [sample_segment "seg_1" (1 # 2); sample_segment "seg_2" (1 # 2)]
                  ["seg_2"%string];
              logic_chains := []; topic_tree := JDict []; metadata := [];
              created_at := 0 |}
           [sample_segment "seg_1" (1 # 2); sample_segment "seg_2" (1 # 2)]
           ["seg_2"%string]
           (mark_segment ["seg_2"%string] (sample_segment "seg_2" (1 # 2)))
           eq_refl).
  exists (sample_segment "seg_2" (1 # 2)).
  split; [right; left; reflexivity |]. split; [reflexivity |].
  left. left. reflexivity.
Defined.

(** ** Document accessors *)

Lemma find_by_id_none (l : list Segment) (x : string) :
  find (fun seg => String.eqb (id seg) x) l = None <-> ~ In x (map id l).
Proof.
  induction l as [| s tl IH]; simpl; [tauto |].
  destruct (String.eqb (id s) x) eqn:E.
  - apply String.eqb_eq in E. split; [discriminate | intros H; contradiction H; auto].
  - apply String.eqb_neq in E. rewrite IH. tauto.
Qed.

Lemma find_by_id_unique (l : list Segment) (s : Segment) :
  NoDup (map id l) -> In s l ->
  find (fun seg => String.eqb (id seg) (id s)) l = Some s.
Proof.
  induction l as [| x tl IH]; intros Hnd Hin; [contradiction |].
  simpl in Hnd. inversion Hnd as [| y ys Hnotin Hnd']; subst.
  simpl. destruct Hin as [-> | Hin].
  - rewrite String.eqb_refl. reflexivity.
  - destruct (String.eqb (id x) (id s)) eqn:E.
    + apply String.eqb_eq in E. exfalso. apply Hnotin. rewrite E.
      apply in_map. exact Hin.
    + apply IH; assumption.
Qed.

(** X14.  [get_segment_by_id] answers with a segment of the document that
    has the requested id, and with [None] exactly when no segment has it;
    when the ids of the document are pairwise distinct, looking up the id of
    any of its segments gives that segment back. *)
Theorem get_segment_by_id_spec :
  forall (d : Document) (x : string),
    (forall s, get_segment_by_id d x = Some s -> In s (segments d) /\ id s = x)
    /\ (get_segment_by_id d x = None <-> ~ In x (map id (segments d)))
    /\ (forall s, NoDup (map id (segments d)) -> In s (segments d) ->
                  get_segment_by_id d (id s) = Some s).
Proof.
  intros d x. unfold get_segment_by_id. split; [| split].
  - intros s Hfind. apply find_some in Hfind. destruct Hfind as [Hin Heq].
    apply String.eqb_eq in Heq. auto.
  - apply find_by_id_none.
  - intros s Hnd Hin. apply find_by_id_unique; assumption.
Qed.

Lemma fold_max_end_time (tl : list Segment) :
  forall m0 : Q,
    (m0 <= fold_left (fun m x => py_max m (end_time x)) tl m0)%Q
    /\ Forall (fun s => (end_time s
                         <= fold_left (fun m x => py_max m (end_time x)) tl m0)%Q)
              tl
    /\ (fold_left (fun m x => py_max m (end_time x)) tl m0 = m0
        \/ exists s, In s tl
                     /\ fold_left (fun m x => py_max m (end_time x)) tl m0
                        = end_time s).
Proof.
  induction tl as [| x tl IH]; intros m0.
  - simpl. split; [apply Qle_refl |]. split; [constructor | left; reflexivity].
  - cbn [fold_left].
    destruct (IH (py_max m0 (end_time x))) as [H1 [H2 H3]].
    destruct (py_max_bounds m0 (end_time x)) as [Hm Hx].
    split; [eapply Qle_trans; eassumption |].
    split; [constructor; [eapply Qle_trans; eassumption | exact H2] |].
    destruct H3 as [H3 | [s [Hin H3]]].
    + rewrite H3. unfold py_max. destruct (Qle_bool (end_time x) m0).
      * left. reflexivity.
      * right. exists x. split; [left; reflexivity | reflexivity].
    + right. exists s. split; [right; exact Hin | exact H3].
Qed.

(** X15.  The total duration of a document is 0 when it has no segment;
    otherwise it is the end time of one of its segments and no segment ends
    later. *)
Theorem total_duration_spec :
  forall d : Document,
    match segments d with
    | [] => total_duration d = 0%Q
    | _ :: _ =>
        (exists s, In s (segments d) /\ total_duration d = end_time s)
        /\ Forall (fun s => (end_time s <= total_duration d)%Q) (segments d)
    end.
Proof.
  intros d. unfold total_duration.
  destruct (segments d) as [| s tl]; [reflexivity |].
  destruct (fold_max_end_time tl (end_time s)) as [H1 [H2 H3]].
  split.
  - destruct H3 as [H3 | [x [Hin H3]]].
    + exists s. split; [left; reflexivity | exact H3].
    + exists x. split; [right; exact Hin | exact H3].
  - constructor; assumption.
Qed.

Lemma Qfloor_unique (y : Q) (m : Z) :
  (inject_Z m <= y)%Q -> (y < inject_Z (m + 1))%Q -> Qfloor y = m.
Proof.
  intros Hlo Hhi.
  assert (H1 : m <= Qfloor y).
  { rewrite <- (Qfloor_Z m). apply Qfloor_resp_le. exact Hlo. }
  assert (H2 : Qfloor y < m + 1).
  { rewrite Zlt_Qlt. eapply Qle_lt_trans; [apply Qfloor_le | exact Hhi]. }
  lia.
Qed.

Lemma timestamp_parts (t : Q) :
  0 <= timestamp_seconds t <= 59
  /\ 60 * timestamp_minutes t + timestamp_seconds t = Qfloor t.
Proof.
  unfold timestamp_seconds, timestamp_minutes.
  set (k := Qfloor (t / 60)).
  assert (Hlo : (inject_Z k <= t / 60)%Q) by apply Qfloor_le.
  assert (Hhi : (t / 60 < inject_Z (k + 1))%Q) by apply Qlt_floor.
  rewrite inject_Z_plus in Hhi. change (inject_Z 1) with 1%Q in Hhi.
  assert (Hdiv : (t == 60 * (t / 60))%Q) by (field).
  set (q := (t / 60)%Q) in *.
  assert (Hsec : Qfloor (t - 60 * inject_Z k) = Qfloor t - 60 * k).
  { apply Qfloor_unique.
    - unfold Zminus. rewrite inject_Z_plus, inject_Z_opp, inject_Z_mult.
      change (inject_Z 60) with 60%Q.
      pose proof (Qfloor_le t). lra.
    - replace (Qfloor t - 60 * k + 1) with ((Qfloor t + 1) + - (60 * k)) by lia.
      rewrite inject_Z_plus, inject_Z_opp, inject_Z_mult.
      change (inject_Z 60) with 60%Q.
      pose proof (Qlt_floor t). lra. }
  rewrite Hsec. split; [| lia].
  assert (H0 : 60 * k <= Qfloor t).
  { rewrite <- (Qfloor_Z (60 * k)). apply Qfloor_resp_le.
    rewrite inject_Z_mult. change (inject_Z 60) with 60%Q. lra. }
  assert (H1 : Qfloor t < 60 * k + 60).
  { rewrite Zlt_Qlt. eapply Qle_lt_trans; [apply Qfloor_le |].
    rewrite inject_Z_plus, inject_Z_mult.
    change (inject_Z 60) with 60%Q. lra. }
  lia.
Qed.

Lemma timestamp_minutes_nonneg (t : Q) : (0 <= t)%Q -> 0 <= timestamp_minutes t.
Proof.
  intros Ht. unfold timestamp_minutes.
  rewrite <- (Qfloor_Z 0). apply Qfloor_resp_le.
  change (inject_Z 0) with 0%Q. apply Qle_shift_div_l; lra.
Qed.

(** X16.  For a segment whose times lie between 0 and 2^53 seconds, where
    the float [//] and [%] are exact: the text [format_timestamp] prints is
    the two pairs minutes:seconds, each number on at least two digits,
    joined by [" - "]; the minutes are not negative, the seconds are
    between 0 and 59, and sixty times the minutes plus the seconds is the
    time rounded down to whole seconds. *)
Theorem format_timestamp_parts :
  forall s : Segment,
    clock_time (start_time s) -> clock_time (end_time s) ->
    format_timestamp s
    = (format_02d (timestamp_minutes (start_time s)) ++ ":"
       ++ format_02d (timestamp_seconds (start_time s)) ++ " - "
       ++ format_02d (timestamp_minutes (end_time s)) ++ ":"
       ++ format_02d (timestamp_seconds (end_time s)))%string
    /\ Forall (fun t : Q =>
                 0 <= timestamp_minutes t
                 /\ 0 <= timestamp_seconds t <= 59
                 /\ 60 * timestamp_minutes t + timestamp_seconds t = Qfloor t)
              [start_time s; end_time s].
Proof.
  intros s [Hstart _] [Hend _]. split; [reflexivity |].
  repeat constructor;
    solve [ apply timestamp_minutes_nonneg; assumption
          | apply timestamp_parts ].
Qed.

Lemma format_timestamp_parts_witness :
  format_timestamp
    (new_Segment "seg_1" (251 # 2) (1333 # 2) "test.wav" [97; 98] [] 0)
  = "02:05 - 11:06"%string
  /\ Forall (fun t : Q =>
               0 <= timestamp_minutes t
               /\ 0 <= timestamp_seconds t <= 59
               /\ 60 * timestamp_minutes t + timestamp_seconds t = Qfloor t)
            [251 # 2; 1333 # 2]%Q.
Proof.
  destruct (format_timestamp_parts
              (new_Segment "seg_1" (251 # 2) (1333 # 2) "test.wav"
                           [97; 98] [] 0)) as [Htext Hparts].
  - unfold clock_time. split; vm_compute; solve [reflexivity | discriminate].
  - unfold clock_time. split; vm_compute; solve [reflexivity | discriminate].
  - split; [rewrite Htext; vm_compute; reflexivity | exact Hparts].
Defined.

(** ** Topic extraction *)

Lemma extract_topics_pointwise
      (LLM : Type) (extract_topics : pystr -> LLM -> result (list string) * LLM)
      (l : list Segment) :
  forall st : LLM,
    Forall2 (fun s s' => (s' = s \/ exists ts, s' = set_topics s ts)
                         /\ (text s = [] -> s' = s))
            l (fst (extract_topics_for_segments extract_topics l st)).
Proof.
  induction l as [| s tl IH]; intros st; [constructor |].
  cbn [extract_topics_for_segments].
  destruct (text s) as [| c rest] eqn:Htext; cbn [nonempty].
  - specialize (IH st).
    destruct (extract_topics_for_segments extract_topics tl st) as [tl' st''].
    cbn [fst] in *. constructor; [| exact IH].
    split; [left; reflexivity | intros _; reflexivity].
  - destruct (extract_topics (c :: rest) st) as [[ts | err] st'];
      specialize (IH st');
      destruct (extract_topics_for_segments extract_topics tl st') as [tl' st''];
      cbn [fst] in *; (constructor; [| exact IH]);
      (split; [right; eexists; reflexivity
              | intros H; rewrite Htext in H; discriminate H]).
Qed.

Lemma extract_topics_all_fail
      (LLM : Type) (extract_topics : pystr -> LLM -> result (list string) * LLM)
      (l : list Segment) :
  (forall t st, exists e, fst (extract_topics t st) = Raise e) ->
  forall st : LLM,
    fst (extract_topics_for_segments extract_topics l st)
    = map (fun s => if nonempty (text s) then set_topics s [] else s) l.
Proof.
  intros Hfail. induction l as [| s tl IH]; intros st; [reflexivity |].
  cbn [extract_topics_for_segments map].
  destruct (nonempty (text s)).
  - destruct (Hfail (text s) st) as [e He].
    destruct (extract_topics (text s) st) as [[ts | err] st'];
      cbn [fst] in He; [discriminate He |].
    specialize (IH st').
    destruct (extract_topics_for_segments extract_topics tl st') as [tl' st''].
    cbn [fst] in *. rewrite IH. reflexivity.
  - specialize (IH st).
    destruct (extract_topics_for_segments extract_topics tl st) as [tl' st''].
    cbn [fst] in *. rewrite IH. reflexivity.
Qed.

(** X17.  Topic extraction returns the segments in their order, each either
    untouched or changed in its topics alone; a segment with an empty text
    is never touched.  When every call of the collaborator raises, nothing
    is aborted: each segment with a text gets the empty topic list. *)
Theorem extract_topics_isolated :
  forall (LLM : Type)
         (extract_topics : pystr -> LLM -> result (list string) * LLM)
         (l : list Segment) (st : LLM),
    Forall2 (fun s s' => (s' = s \/ exists ts, s' = set_topics s ts)
                         /\ (text s = [] -> s' = s))
            l (fst (extract_topics_for_segments extract_topics l st))
    /\ ((forall t st', exists e, fst (extract_topics t st') = Raise e) ->
        fst (extract_topics_for_segments extract_topics l st)
        = map (fun s => if nonempty (text s) then set_topics s [] else s) l).
Proof.
  intros LLM extract l st. split.
  - apply extract_topics_pointwise.
  - intros Hfail. apply extract_topics_all_fail. exact Hfail.
Qed.

Lemma extract_topics_isolated_witness :
  fst (extract_topics_for_segments
         (fun (t : pystr) (st : nat) =>
            (Raise (RuntimeError "quota") : result (list string), S st))
         [sample_segment "seg_1" (1 # 2); wrap []] 0%nat)
  = [set_topics (sample_segment "seg_1" (1 # 2)) []; wrap []].
Proof.
  apply (proj2 (extract_topics_isolated nat
                  (fun (t : pystr) (st : nat) =>
                     (Raise (RuntimeError "quota") : result (list string), S st))
                  [sample_segment "seg_1" (1 # 2); wrap []] 0%nat)).
  intros t st'. exists (RuntimeError "quota"). reflexivity.
Defined.

(** ** The fallback topic tree *)

Lemma fold_left_flat_map {A B C : Type} (f : A -> B -> A) (g : C -> list B)
      (l : list C) :
  forall a, fold_left f (flat_map g l) a
            = fold_left (fun acc x => fold_left f (g x) acc) l a.
Proof.
  induction l as [| x tl IH]; intros a; [reflexivity |].
  cbn [flat_map fold_left]. rewrite fold_left_app. apply IH.
Qed.

Lemma fold_left_map_arg {A B C : Type} (f : A -> B -> A) (g : C -> B)
      (l : list C) :
  forall a, fold_left f (map g l) a = fold_left (fun acc x => f acc (g x)) l a.
Proof.
  induction l as [| x tl IH]; intros a; [reflexivity |]. simpl. apply IH.
Qed.

Lemma topic_segments_pairs (l : list Segment) :
  topic_segments l
  = fold_left (fun d (p : string * string) => dict_append (fst p) (snd p) d)
              (topic_pairs l) [].
Proof.
  unfold topic_segments, topic_pairs. rewrite fold_left_flat_map.
  generalize (@nil (string * list string)) as d.
  induction l as [| s tl IH]; intros d; [reflexivity |].
  cbn [fold_left]. rewrite fold_left_map_arg. cbn [fst snd]. apply IH.
Qed.

Lemma dict_append_keys (topic v : string) (d : list (string * list string)) :
  map fst (dict_append topic v d)
  = if existsb (String.eqb topic) (map fst d)
    then map fst d else map fst d ++ [topic].
Proof.
  induction d as [| [k ids] tl IH]; [reflexivity |].
  cbn [dict_append map fst existsb]. rewrite (String.eqb_sym topic k).
  destruct (String.eqb k topic); cbn [orb map fst]; [reflexivity |].
  rewrite IH. destruct (existsb (String.eqb topic) (map fst tl)); reflexivity.
Qed.

Lemma fold_dict_append_keys (pairs : list (string * string)) :
  forall (d : list (string * list string)) (seen : list string),
    (forall x, existsb (String.eqb x) seen = existsb (String.eqb x) (map fst d)) ->
    map fst (fold_left (fun d0 (p : string * string) =>
                          dict_append (fst p) (snd p) d0) pairs d)
    = map fst d ++ first_seen seen (map fst pairs).
Proof.
  induction pairs as [| [topic v] tl IH]; intros d seen Hseen.
  - simpl. rewrite app_nil_r. reflexivity.
  - cbn [fold_left map fst snd first_seen].
    pose proof (dict_append_keys topic v d) as Hkeys.
    destruct (existsb (String.eqb topic) seen) eqn:Hin.
    + rewrite <- Hseen, Hin in Hkeys.
      rewrite (IH (dict_append topic v d) seen); [rewrite Hkeys; reflexivity |].
      intros x. rewrite Hkeys. apply Hseen.
    + rewrite <- Hseen, Hin in Hkeys.
      rewrite (IH (dict_append topic v d) (topic :: seen)).
      * rewrite Hkeys, <- app_assoc. reflexivity.
      * intros x. rewrite Hkeys, existsb_app. cbn [existsb].
        rewrite Hseen, orb_false_r. apply orb_comm.
Qed.

Lemma dict_get_append (k topic v : string) (d : list (string * list string)) :
  dict_get k (dict_append topic v d)
  = if String.eqb topic k
    then Some (match dict_get k d with
               | Some old => old ++ [v]
               | None => [v]
               end)
    else dict_get k d.
Proof.
  induction d as [| [k0 ids] tl IH].
  - reflexivity.
  - cbn [dict_append dict_get].
    destruct (String.eqb k0 topic) eqn:E0.
    + apply String.eqb_eq in E0. subst k0. cbn [dict_get].
      destruct (String.eqb topic k); reflexivity.
    + cbn [dict_get]. rewrite IH.
      destruct (String.eqb topic k) eqn:E1; [| reflexivity].
      apply String.eqb_eq in E1. subst k. rewrite E0. reflexivity.
Qed.

Lemma fold_dict_append_get (k : string) (pairs : list (string * string)) :
  forall d : list (string * list string),
    dict_get k (fold_left (fun d0 (p : string * string) =>
                             dict_append (fst p) (snd p) d0) pairs d)
    = match dict_get k d,
            map snd (filter (fun p : string * string => String.eqb (fst p) k) pairs)
      with
      | Some old, new => Some (old ++ new)
      | None, [] => None
      | None, new => Some new
      end.
Proof.
  induction pairs as [| [topic v] tl IH]; intros d.
  - simpl. destruct (dict_get k d); [rewrite app_nil_r |]; reflexivity.
  - cbn [fold_left filter fst snd]. rewrite IH, dict_get_append.
    destruct (String.eqb topic k); cbn [map snd].
    + destruct (dict_get k d) as [old |].
      * rewrite <- app_assoc. reflexivity.
      * reflexivity.
    + reflexivity.
Qed.

Lemma first_seen_spec (l : list string) :
  forall seen,
    NoDup (first_seen seen l)
    /\ forall x, In x (first_seen seen l)
                 <-> In x l /\ existsb (String.eqb x) seen = false.
Proof.
  induction l as [| y tl IH]; intros seen.
  - simpl. split; [constructor | intros x; tauto].
  - cbn [first_seen]. destruct (existsb (String.eqb y) seen) eqn:Hy.
    + destruct (IH seen) as [Hnd Hin]. split; [exact Hnd |].
      intros x. rewrite Hin. simpl. split; [tauto |].
      intros [[-> | H] Hx]; [congruence | tauto].
    + destruct (IH (y :: seen)) as [Hnd Hin]. split.
      * constructor; [| exact Hnd].
        rewrite Hin. cbn [existsb]. rewrite String.eqb_refl. simpl.
        intros [_ H]; discriminate H.
      * intros x. simpl. rewrite Hin. cbn [existsb].
        destruct (String.eqb x y) eqn:Exy.
        -- apply String.eqb_eq in Exy. subst x. simpl.
           split; [tauto | intros _; left; reflexivity].
        -- apply String.eqb_neq in Exy. simpl. split.
           ++ intros [H | H]; [congruence | tauto].
           ++ intros [[H | H] Hx]; [congruence | tauto].
Qed.

Lemma first_seen_length (l : list string) :
  length (first_seen [] l) = length (nodup string_dec l).
Proof.
  destruct (first_seen_spec l []) as [Hnd Hin].
  apply Nat.le_antisymm; apply NoDup_incl_length.
  - exact Hnd.
  - intros x Hx. apply nodup_In. apply Hin in Hx. tauto.
  - apply NoDup_nodup.
  - intros x Hx. apply nodup_In in Hx. apply Hin. split; [exact Hx | reflexivity].
Qed.

(** X18.  A non-empty topic tree from the analysis is used as it is.
    Otherwise the tree has the root "文档主题" and one child per topic label
    of the segments: the children come in the order in which the labels
    are first met, their number is the count of distinct topics that the
    metadata reports, and a child lists one segment id per occurrence of
    its label, in visiting order. *)
Theorem build_topic_tree_spec :
  forall (l : list Segment) (topic_tree_data : json),
    (truthy topic_tree_data = true ->
     build_topic_tree l topic_tree_data = topic_tree_data)
    /\ (truthy topic_tree_data = false ->
        build_topic_tree l topic_tree_data
        = JDict [("main_topic"%string, JStr "文档主题");
                 ("subtopics"%string,
                  JList (map subtopic_node (topic_segments l)))])
    /\ map fst (topic_segments l) = first_seen [] (flat_map topics l)
    /\ Z.of_nat (length (topic_segments l)) = total_topics l
    /\ forall topic,
        dict_get topic (topic_segments l)
        = match ids_with_topic l topic with
          | [] => None
          | ids => Some ids
          end.
Proof.
  intros l data.
  split; [intros H; unfold build_topic_tree; rewrite H; reflexivity |].
  split; [intros H; unfold build_topic_tree; rewrite H; reflexivity |].
  assert (Hkeys : map fst (topic_segments l) = first_seen [] (flat_map topics l)).
  { rewrite topic_segments_pairs.
    rewrite (fold_dict_append_keys (topic_pairs l) [] []) by reflexivity.
    cbn [map app]. f_equal. unfold topic_pairs.
    induction l as [| s tl IH]; [reflexivity |].
    cbn [flat_map]. rewrite map_app, IH, map_map. cbn [fst].
    rewrite map_id. reflexivity. }
  split; [exact Hkeys |]. split.
  - unfold total_topics. f_equal.
    rewrite <- (length_map fst), Hkeys. apply first_seen_length.
  - intros topic. rewrite topic_segments_pairs, fold_dict_append_get.
    reflexivity.
Qed.

Lemma build_topic_tree_spec_witness :
  build_topic_tree
    [labelled_segment "a" ["x"; "y"]%string; labelled_segment "b" ["y"; "x"; "y"]%string]
    (JDict [])
  = JDict [("main_topic"%string, JStr "文档主题");
           ("subtopics"%string,
            JList (map subtopic_node
                       [("x", ["a"; "b"]); ("y", ["a"; "b"; "b"])]%string))].
Proof.
  apply (proj1 (proj2 (build_topic_tree_spec
                         [labelled_segment "a" ["x"; "y"]%string;
                          labelled_segment "b" ["y"; "x"; "y"]%string]
                         (JDict [])))).
  reflexivity.
Defined.

(** ** Reconstruction: what the document keeps *)

Lemma mark_segment_keeps (core_ids : list string) (s : Segment) :
  same_but_topics_score_flag s (mark_segment core_ids s)
  /\ topics (mark_segment core_ids s) = topics s.
Proof.
  unfold mark_segment. destruct (id_in (id s) core_ids); repeat split.
Qed.

Lemma Forall2_map_r {A B : Type} (R : A -> B -> Prop) (f : B -> B)
      (l : list A) (l' : list B) :
  Forall2 (fun a b => R a (f b)) l l' -> Forall2 R l (map f l').
Proof.
  induction 1; simpl; constructor; assumption.
Qed.

(** X19.  Reconstruction returns a document with an empty source file
    whose segments are the input segments in their order, each changed at
    most in its topics, score and core flag; the chain count and the topic
    count of the metadata are the number of chains and the number of
    distinct topic labels of that document. *)
Theorem reconstruct_consistent :
  forall (LLM : Type)
         (extract_topics : pystr -> LLM -> result (list string) * LLM)
         (analyze_paragraphs :
            list SegmentPayload -> LLM -> result AnalysisResult * LLM)
         (now : Z) (l : list Segment) (st : LLM),
    let doc := fst (reconstruct extract_topics analyze_paragraphs now l st) in
    source_file doc = ""%string
    /\ created_at doc = now
    /\ Forall2 same_but_topics_score_flag l (segments doc)
    /\ segment_count doc = length l
    /\ dict_get "logic_chains_count" (metadata doc)
       = Some (Z.of_nat (length (logic_chains doc)))
    /\ dict_get "total_topics" (metadata doc)
       = Some (total_topics (segments doc)).
Proof.
  intros LLM extract analyze now l st doc. subst doc. unfold reconstruct.
  pose proof (extract_topics_pointwise LLM extract l st) as Hpt.
  destruct (extract_topics_for_segments extract l st) as [l1 st1].
  cbn [fst] in Hpt.
  destruct (analyze_logic_structure analyze l1 st1) as [res st2].
  cbn [fst source_file created_at segments metadata logic_chains].
  assert (Hsegs : Forall2 same_but_topics_score_flag l
                          (mark_core_arguments l1
                             (get_default (core_arguments res) []))).
  { unfold mark_core_arguments. apply Forall2_map_r.
    eapply Forall2_impl; [| exact Hpt].
    intros s s' [[-> | [ts ->]] _].
    - apply mark_segment_keeps.
    - destruct (mark_segment_keeps (get_default (core_arguments res) [])
                                   (set_topics s ts)) as [H _].
      unfold same_but_topics_score_flag in *. cbn in H. exact H. }
  split; [reflexivity |]. split; [reflexivity |]. split; [exact Hsegs |].
  split; [| split; reflexivity].
  unfold segment_count. cbn [segments].
  symmetry. eapply Forall2_length. exact Hsegs.
Qed.

(** ** Transcription *)

Lemma transcribe_segment_keeps (outcome : result STTResult) (s : Segment) :
  same_but_transcript s (transcribe_segment outcome s).
Proof.
  unfold transcribe_segment. destruct outcome; repeat split.
Qed.

(** X20.  Given one outcome of the speech-to-text call per segment,
    transcription returns the segments in their order, each changed in its
    text and confidence alone: a call that returned gives its text and
    confidence, a call that raised gives the empty text and confidence 0,
    and the other segments are not affected by it. *)
Theorem transcribe_segments_isolated :
  forall (outcomes : list (result STTResult)) (l : list Segment),
    length outcomes = length l ->
    Forall2 same_but_transcript l (transcribe_segments outcomes l)
    /\ forall (i : nat) (s : Segment) (o : result STTResult),
        nth_error l i = Some s ->
        nth_error outcomes i = Some o ->
        nth_error (transcribe_segments outcomes l) i
        = Some match o with
               | Ok r => set_transcript s (stt_text r) (stt_confidence r)
               | Raise _ => set_transcript s [] 0
               end.
Proof.
  intros outcomes l. revert outcomes.
  induction l as [| s tl IH]; intros outcomes Hlen.
  - split; [destruct outcomes; constructor |].
    intros i s o H. destruct i; discriminate H.
  - destruct outcomes as [| o outcomes']; [discriminate Hlen |].
    injection Hlen as Hlen. destruct (IH outcomes' Hlen) as [Hall Hnth].
    cbn [transcribe_segments]. split.
    + constructor; [apply transcribe_segment_keeps | exact Hall].
    + intros i s0 o0 Hs Ho. destruct i as [| j].
      * injection Hs as <-. injection Ho as <-. reflexivity.
      * cbn [nth_error] in *. apply Hnth; assumption.
Qed.

Lemma transcribe_segments_isolated_witness :
  nth_error
    (transcribe_segments
       [mock_transcribe "a.wav"; Raise (RuntimeError "timeout")]
       [sample_segment "seg_1" (1 # 2); sample_segment "seg_2" (1 # 2)]) 1
  = Some (set_transcript (sample_segment "seg_2" (1 # 2)) [] 0).
Proof.
  apply (proj2 (transcribe_segments_isolated
                  [mock_transcribe "a.wav"; Raise (RuntimeError "timeout")]
                  [sample_segment "seg_1" (1 # 2); sample_segment "seg_2" (1 # 2)]
                  eq_refl)
               1%nat (sample_segment "seg_2" (1 # 2))
               (Raise (RuntimeError "timeout"))); reflexivity.
Defined.

(** ** The run of the window with the mock providers *)

Lemma transcribe_segments_mock (l : list Segment) :
  transcribe_segments (map (fun seg => mock_transcribe (audio_path seg)) l) l
  = map (fun s => set_transcript s mock_transcript (90 # 100)) l.
Proof.
  induction l as [| s tl IH]; [reflexivity |].
  cbn [map transcribe_segments]. rewrite IH. reflexivity.
Qed.

Lemma mock_transcript_no_markers :
  detect_markers SEMANTIC_MARKERS mock_transcript = [].
Proof. vm_compute. reflexivity. Qed.

Lemma analyze_relations_from_no_markers (table : lexicon) (l : list Segment) :
  Forall (fun s => detect_markers table (text s) = []) l ->
  forall prev, analyze_relations_from table prev l = map clear_markers l.
Proof.
  induction 1 as [| s tl Hs _ IH]; intros prev; [reflexivity |].
  cbn [analyze_relations_from map]. rewrite IH, Hs.
  f_equal. unfold clear_markers. cbn [map].
  destruct prev; rewrite app_nil_r; reflexivity.
Qed.

Lemma analyzer_process_unsplit (l : list Segment) :
  existsb has_boundary_occurrence l = false ->
  analyzer_process unicode_word unicode_space SEMANTIC_MARKERS l
  = Ok (map (fun seg =>
               with_importance seg
                 (calculate_importance SEMANTIC_MARKERS seg
                    (analyze_relations SEMANTIC_MARKERS l)))
            (analyze_relations SEMANTIC_MARKERS l)).
Proof.
  intros Hocc. unfold analyzer_process, refine_segments.
  change (split_by_markers unicode_word unicode_space SEMANTIC_MARKERS)
    with default_split_by_markers.
  rewrite mapM_default_split, Hocc. cbn [bind].
  rewrite concat_singletons. reflexivity.
Qed.

Lemma extract_topics_mock (l : list Segment) :
  extract_topics_for_segments mock_extract_topics l tt
  = (map (fun s => if nonempty (text s) then set_topics s mock_topics else s) l,
     tt).
Proof.
  induction l as [| s tl IH]; [reflexivity |].
  cbn [extract_topics_for_segments map].
  destruct (nonempty (text s)); cbn [mock_extract_topics]; rewrite IH; reflexivity.
Qed.

Lemma filter_flagged_map (G : Segment -> Segment) (ids : list string)
      (l : list Segment) :
  (forall s, In s l ->
             is_core_argument (G s) = id_in (id s) ids) ->
  filter is_core_argument (map G l)
  = map G (filter (fun s => id_in (id s) ids) l).
Proof.
  induction l as [| s tl IH]; intros H; [reflexivity |].
  cbn [map filter]. rewrite (H s (or_introl eq_refl)).
  rewrite IH by (intros x Hx; apply H; right; exact Hx).
  destruct (id_in (id s) ids); reflexivity.
Qed.

Lemma filter_absent_id (x : string) (tl : list Segment) :
  ~ In x (map id tl) ->
  filter (fun s => id_in (id s) [x]) tl = [].
Proof.
  induction tl as [| y tl IH]; intros Hnotin; [reflexivity |].
  cbn [filter]. unfold id_in at 1. cbn [existsb].
  destruct (String.eqb (id y) x) eqn:E.
  - apply String.eqb_eq in E. exfalso. apply Hnotin. left. exact E.
  - cbn [orb]. apply IH. intros Hin. apply Hnotin. right. exact Hin.
Qed.

Lemma filter_first_id (l : list Segment) :
  NoDup (map id l) ->
  filter (fun s => id_in (id s) (firstn 1 (map id l))) l = firstn 1 l.
Proof.
  destruct l as [| s tl]; [reflexivity |].
  intros Hnd. cbn [map firstn filter].
  unfold id_in at 1. cbn [existsb]. rewrite String.eqb_refl. cbn [orb].
  f_equal. inversion Hnd as [| x xs Hnotin _]; subst.
  apply filter_absent_id. exact Hnotin.
Qed.

(** X21.  The run of the window after segmentation, with the mock
    speech-to-text and mock structuring providers, never fails.  Its
    document has the given source file and the input segments in their
    order, each with the mock transcript, confidence 0.9, no markers and
    the three mock topics; it has the mock collaborator's one chain over
    the first three segment ids and its topic tree.  When the segment ids
    are pairwise distinct and no segment comes in flagged, its core
    arguments are the first segment alone and their number is the count in
    the metadata. *)
Theorem run_after_segmentation_mock :
  forall (file_path : string) (now : Z) (l : list Segment),
  exists doc : Document,
    run_after_segmentation file_path now l = Ok doc
    /\ source_file doc = file_path
    /\ map id (segments doc) = map id l
    /\ Forall (fun s => text s = mock_transcript /\ confidence s = 90 # 100
                        /\ markers s = [] /\ topics s = mock_topics)
              (segments doc)
    /\ logic_chains doc = [mock_chain (map id l)]
    /\ topic_tree doc = mock_tree
    /\ (NoDup (map id l) ->
        Forall (fun s => is_core_argument s = false) l ->
        map id (get_core_arguments doc) = firstn 1 (map id l)
        /\ dict_get "core_arguments_count" (metadata doc)
           = Some (Z.of_nat (length (get_core_arguments doc)))).
Proof.
  intros file_path now l. unfold run_after_segmentation.
  rewrite transcribe_segments_mock.
  set (T := map (fun s => set_transcript s mock_transcript (90 # 100)) l).
  assert (Hocc : existsb has_boundary_occurrence T = false).
  { subst T. induction l as [| s tl IH]; [reflexivity |].
    cbn [map existsb]. rewrite IH. vm_compute. reflexivity. }
  rewrite (analyzer_process_unsplit T Hocc). cbn [bind].
  assert (HR : analyze_relations SEMANTIC_MARKERS T = map clear_markers T).
  { unfold analyze_relations. apply analyze_relations_from_no_markers.
    subst T. apply Forall_map. apply Forall_forall. intros s _.
    exact mock_transcript_no_markers. }
  rewrite HR.
  set (R := map clear_markers T).
  set (A := map (fun seg =>
                   with_importance seg (calculate_importance SEMANTIC_MARKERS seg R))
                R).
  unfold reconstruct. rewrite extract_topics_mock.
  set (G := fun s : Segment =>
              set_topics
                (with_importance
                   (clear_markers (set_transcript s mock_transcript (90 # 100)))
                   (calculate_importance SEMANTIC_MARKERS
                      (clear_markers (set_transcript s mock_transcript (90 # 100)))
                      R))
                mock_topics).
  assert (HL1 : map (fun s => if nonempty (text s)
                              then set_topics s mock_topics else s) A
                = map G l).
  { subst A R T G. rewrite !map_map. apply map_ext. intros s. reflexivity. }
  rewrite HL1.
  unfold analyze_logic_structure. cbn [mock_analyze_paragraphs].
  cbn [fst core_arguments result_logic_chains result_topic_tree get_default].
  assert (Hids : map id (map G l) = map id l).
  { rewrite map_map. apply map_ext. intros s. reflexivity. }
  assert (Hpayload : map payload_id (segments_data (map G l)) = map id l).
  { unfold segments_data. rewrite !map_map. apply map_ext. intros s. reflexivity. }
  set (core := match segments_data (map G l) with
               | [] => []
               | first :: _ => [payload_id first]
               end).
  assert (Hcore : core = firstn 1 (map id l)).
  { subst core. rewrite <- Hpayload.
    destruct (segments_data (map G l)); reflexivity. }
  eexists. split; [reflexivity |].
  cbn [set_source_file source_file segments logic_chains topic_tree metadata].
  split; [reflexivity |].
  split.
  { unfold mark_core_arguments. rewrite !map_map.
    apply map_ext. intros s. rewrite mark_segment_id. reflexivity. }
  split.
  { unfold mark_core_arguments. rewrite map_map.
    apply Forall_map. apply Forall_forall. intros s _.
    unfold mark_segment. destruct (id_in (id (G s)) core); repeat split. }
  split.
  { unfold build_logic_chains. cbn [result_logic_chains get_default map].
    unfold mock_chain.
    cbn [data_chain_id data_chain_type data_segments data_description
         data_importance get_default].
    rewrite <- Hpayload, firstn_map. reflexivity. }
  split; [reflexivity |].
  intros Hnd Hflags.
  unfold get_core_arguments. cbn [segments dict_get]. cbn.
  unfold mark_core_arguments. rewrite map_map.
  rewrite (filter_flagged_map (fun s => mark_segment core (G s)) core l).
  2:{ intros s Hin. rewrite Forall_forall in Hflags.
      unfold mark_segment. change (id (G s)) with (id s).
      destruct (id_in (id s) core); [reflexivity |].
      change (is_core_argument (G s)) with (is_core_argument s).
      apply Hflags. exact Hin. }
  rewrite Hcore, (filter_first_id l Hnd).
  split.
  - rewrite map_map. clear.
    destruct l as [| s tl]; [reflexivity |].
    cbn [firstn map]. rewrite mark_segment_id. reflexivity.
  - rewrite firstn_map, !length_map. reflexivity.
Qed.

Lemma run_after_segmentation_mock_witness :
  exists doc : Document,
    run_after_segmentation "talk.mp4" 1700000000
      [sample_segment "seg_1" (1 # 2); sample_segment "seg_2" (1 # 2)]
    = Ok doc
    /\ map id (get_core_arguments doc) = ["seg_1"%string]
    /\ dict_get "core_arguments_count" (metadata doc)
       = Some (Z.of_nat (length (get_core_arguments doc))).
Proof.
  destruct (run_after_segmentation_mock "talk.mp4" 1700000000
              [sample_segment "seg_1" (1 # 2); sample_segment "seg_2" (1 # 2)])
    as [doc [Hrun [_ [_ [_ [_ [_ Hcore]]]]]]].
  exists doc. split; [exact Hrun |].
  apply Hcore.
  - repeat constructor; simpl; intuition discriminate.
  - repeat constructor.
Defined.

(** The analysis step of the repository's own full-pipeline test raises:
    four of its seven transcripts open with a marker and a comma. *)
Example mock_lecture_analysis_raises :
  map has_boundary_occurrence mock_lecture_segments
  = [false; false; false; true; true; true; true]
  /\ analyzer_process unicode_word unicode_space SEMANTIC_MARKERS
       mock_lecture_segments
     = Raise TypeError.
Proof. split; vm_compute; reflexivity. Qed.
